(** * A shallow embedding of the snow MPM solver (lib/SnowSolver.cpp)

    Doubles are idealised as real numbers, glm vectors and matrices as
    records of reals (matrices are stored by columns, as glm does), the
    grid and the particle set as lists, and the integer window bounds as
    [Z].  A read or write outside a vector is an error: the steps that
    index the node array return an [option].

    Two things the solver calls are not in the sources and are section
    variables: the SVD routine, which the source delegates to Eigen, and
    [getGridNodeIndex], which [SnowSolver.h] declares.  The facts a
    property needs about them are its hypotheses.  The diagnostic totals
    that [update] only writes to the log are left out. *)

From Stdlib Require Import Reals Lra Lia ZArith List Psatz Bool.
From Stdlib Require String.
Import ListNotations.
Open Scope R_scope.

(** ** glm::dvec3 *)

Record dvec3 : Type := mkVec { vx : R; vy : R; vz : R }.

Definition vzero : dvec3 := mkVec 0 0 0.
Definition vadd (a b : dvec3) : dvec3 :=
  mkVec (vx a + vx b) (vy a + vy b) (vz a + vz b).
Definition vsub (a b : dvec3) : dvec3 :=
  mkVec (vx a - vx b) (vy a - vy b) (vz a - vz b).
Definition vscale (k : R) (a : dvec3) : dvec3 :=
  mkVec (k * vx a) (k * vy a) (k * vz a).
Definition vdiv (a : dvec3) (k : R) : dvec3 :=
  mkVec (vx a / k) (vy a / k) (vz a / k).
Definition dot (a b : dvec3) : R := vx a * vx b + vy a * vy b + vz a * vz b.
(** glm::length *)
Definition length3 (a : dvec3) : R := sqrt (dot a a).
(** glm::normalize: the vector times the inverse square root of its
    squared length. *)
Definition normalize (a : dvec3) : dvec3 := vscale (1 / sqrt (dot a a)) a.
(** glm::clamp on a vector with scalar bounds: min (max x lo) hi per
    component. *)
Definition clamp1 (x lo hi : R) : R := Rmin (Rmax x lo) hi.
Definition vclamp (a : dvec3) (lo hi : R) : dvec3 :=
  mkVec (clamp1 (vx a) lo hi) (clamp1 (vy a) lo hi) (clamp1 (vz a) lo hi).

Declare Scope vec_scope.
Delimit Scope vec_scope with V.
Bind Scope vec_scope with dvec3.
Infix "+v" := vadd (at level 50, left associativity) : vec_scope.
Infix "-v" := vsub (at level 50, left associativity) : vec_scope.
Infix "*v" := vscale (at level 40, left associativity) : vec_scope.

(** ** glm::dmat3, stored by columns: [m[c][r]] is row [r] of column [c] *)

Record dmat3 : Type := mkMat { col0 : dvec3; col1 : dvec3; col2 : dvec3 }.

(** The nine-scalar constructor fills column after column. *)
Definition dmat3_9 (x0 y0 z0 x1 y1 z1 x2 y2 z2 : R) : dmat3 :=
  mkMat (mkVec x0 y0 z0) (mkVec x1 y1 z1) (mkVec x2 y2 z2).
(** [glm::dmat3(s)]: [s] on the diagonal. *)
Definition dmat3_1 (s : R) : dmat3 := dmat3_9 s 0 0 0 s 0 0 0 s.
Definition mzero : dmat3 := mkMat vzero vzero vzero.
Definition midentity : dmat3 := dmat3_1 1.
Definition mdiag (e : dvec3) : dmat3 :=
  dmat3_9 (vx e) 0 0 0 (vy e) 0 0 0 (vz e).

(** [m[c][r]] *)
Definition mcol (m : dmat3) (c : nat) : dvec3 :=
  match c with O => col0 m | S O => col1 m | _ => col2 m end.
Definition vget (a : dvec3) (r : nat) : R :=
  match r with O => vx a | S O => vy a | _ => vz a end.
Definition mget (m : dmat3) (c r : nat) : R := vget (mcol m c) r.

Definition madd (a b : dmat3) : dmat3 :=
  mkMat (vadd (col0 a) (col0 b)) (vadd (col1 a) (col1 b)) (vadd (col2 a) (col2 b)).
Definition msub (a b : dmat3) : dmat3 :=
  mkMat (vsub (col0 a) (col0 b)) (vsub (col1 a) (col1 b)) (vsub (col2 a) (col2 b)).
Definition mscale (k : R) (a : dmat3) : dmat3 :=
  mkMat (vscale k (col0 a)) (vscale k (col1 a)) (vscale k (col2 a)).
(** matrix times column vector *)
Definition mvmul (m : dmat3) (v : dvec3) : dvec3 :=
  vadd (vadd (vscale (vx v) (col0 m)) (vscale (vy v) (col1 m))) (vscale (vz v) (col2 m)).
(** matrix product: column [c] of [a * b] is [a * b[c]] *)
Definition mmul (a b : dmat3) : dmat3 :=
  mkMat (mvmul a (col0 b)) (mvmul a (col1 b)) (mvmul a (col2 b)).
Definition transpose (m : dmat3) : dmat3 :=
  dmat3_9 (vx (col0 m)) (vx (col1 m)) (vx (col2 m))
          (vy (col0 m)) (vy (col1 m)) (vy (col2 m))
          (vz (col0 m)) (vz (col1 m)) (vz (col2 m)).
(** glm::outerProduct (c, r) = c * r^T: column [j] is [c * r[j]] *)
Definition outerProduct (c r : dvec3) : dmat3 :=
  mkMat (vscale (vx r) c) (vscale (vy r) c) (vscale (vz r) c).
Definition determinant (m : dmat3) : R :=
  let a := col0 m in let b := col1 m in let c := col2 m in
  vx a * (vy b * vz c - vy c * vz b)
  - vx b * (vy a * vz c - vy c * vz a)
  + vx c * (vy a * vz b - vy b * vz a).
(** glm::inverse: adjugate divided by the determinant. *)
Definition inverse (m : dmat3) : dmat3 :=
  let a := col0 m in let b := col1 m in let c := col2 m in
  let d := 1 / determinant m in
  dmat3_9
    ((vy b * vz c - vy c * vz b) * d)
    (- (vy a * vz c - vy c * vz a) * d)
    ((vy a * vz b - vy b * vz a) * d)
    (- (vx b * vz c - vx c * vz b) * d)
    ((vx a * vz c - vx c * vz a) * d)
    (- (vx a * vz b - vx b * vz a) * d)
    ((vx b * vy c - vx c * vy b) * d)
    (- (vx a * vy c - vx c * vy a) * d)
    ((vx a * vy b - vx b * vy a) * d).

Declare Scope mat_scope.
Delimit Scope mat_scope with M.
Bind Scope mat_scope with dmat3.
Infix "+m" := madd (at level 50, left associativity) : mat_scope.
Infix "-m" := msub (at level 50, left associativity) : mat_scope.
Infix "*m" := mmul (at level 40, left associativity) : mat_scope.
Infix "*s" := mscale (at level 40, left associativity) : mat_scope.

(** ** Nodes

    Modelled from the spec: [Node.h] and [ParticleNode.h] are not among
    the sources; the fields are those of section 3 of the specification
    and those the solver reads and writes.  The velocity is double
    buffered and [velocity(n)] selects the buffer by the parity of [n]
    (section 9). *)

Record Node : Type := mkNode {
  position : dvec3;
  velocity_even : dvec3;
  velocity_odd : dvec3;
  velocity_star : dvec3;
  mass : R
}.

Definition velocity (nd : Node) (n : nat) : dvec3 :=
  if Nat.even n then velocity_even nd else velocity_odd nd.

Definition set_velocity (nd : Node) (n : nat) (v : dvec3) : Node :=
  if Nat.even n
  then mkNode (position nd) v (velocity_odd nd) (velocity_star nd) (mass nd)
  else mkNode (position nd) (velocity_even nd) v (velocity_star nd) (mass nd).

Definition set_velocity_star (nd : Node) (v : dvec3) : Node :=
  mkNode (position nd) (velocity_even nd) (velocity_odd nd) v (mass nd).

Definition set_mass (nd : Node) (m : R) : Node :=
  mkNode (position nd) (velocity_even nd) (velocity_odd nd) (velocity_star nd) m.

Definition set_position (nd : Node) (x : dvec3) : Node :=
  mkNode x (velocity_even nd) (velocity_odd nd) (velocity_star nd) (mass nd).

(** GridNode.h: a node with [density0], [location] and [force]. *)
Record GridNode : Type := mkGridNode {
  g_node : Node;
  density0 : R;
  location : Z * Z * Z;
  force : dvec3
}.

Record ParticleNode : Type := mkParticleNode {
  p_node : Node;
  volume0 : R;
  deformElastic : dmat3;
  deformPlastic : dmat3
}.

(** ** SnowSolver::handleNodeCollisionVelocityUpdate *)

Definition handleNodeCollisionVelocityUpdate (node : Node) : Node :=
  if Rle_dec (vz (position node)) 0.1 then
    let v_co := mkVec 0 0 0 in
    let n := mkVec 0 0 1 in
    let mu := 1.0 in
    let v_rel := vsub (velocity_star node) v_co in
    let v_n := dot v_rel n in
    if Rge_dec v_n 0 then node
    else
      let v_t := vsub v_rel (vscale v_n n) in
      let v_rel' :=
        if Rle_dec (length3 v_t) (- mu * v_n) then mkVec 0 0 0
        else vadd v_t (vscale (mu * v_n) (normalize v_t)) in
      set_velocity_star node (vadd v_rel' v_co)
  else node.

(** ** Interpolation kernel

    Modelled from the spec: [weight] and [nabla_weight] are declared in
    headers that are not among the sources; section 4.1 of the
    specification gives the one-dimensional cubic B-spline [N], its
    derivative by pieces, and the three-dimensional weight and weight
    gradient built from them. *)

Definition bspline (x : R) : R :=
  let a := Rabs x in
  if Rlt_dec a 1 then 1 / 2 * (a * a * a) - x * x + 2 / 3
  else if Rlt_dec a 2 then - (a * a * a) / 6 + x * x - 2 * a + 4 / 3
  else 0.

Definition sgn (x : R) : R := if Rle_dec 0 x then 1 else -1.

Definition bspline' (x : R) : R :=
  let a := Rabs x in
  if Rlt_dec a 1 then 3 / 2 * (x * a) - 2 * x
  else if Rlt_dec a 2 then - (1 / 2) * (x * a) + 2 * x - 2 * sgn x
  else 0.

(** ** The solver state

    Modelled from the spec: [SnowSolver.h] is not among the sources; the
    fields are the scalar parameters of section 3, the grid shape and the
    two node arrays the solver owns. *)

Record SnowSolver : Type := mkSolver {
  h : R;
  invh : R;
  size : nat * nat * nat;
  gridNodes : list GridNode;
  particleNodes : list ParticleNode;
  delta_t : R;
  mu0 : R;
  lambda0 : R;
  hardeningCoefficient : R;
  criticalCompression : R;
  criticalStretch : R;
  alpha : R
}.

Definition with_nodes (s : SnowSolver) (gs : list GridNode) (ps : list ParticleNode)
  : SnowSolver :=
  mkSolver (h s) (invh s) (size s) gs ps (delta_t s) (mu0 s) (lambda0 s)
           (hardeningCoefficient s) (criticalCompression s) (criticalStretch s)
           (alpha s).

Definition with_delta_t (s : SnowSolver) (dt : R) : SnowSolver :=
  mkSolver (h s) (invh s) (size s) (gridNodes s) (particleNodes s) dt (mu0 s)
           (lambda0 s) (hardeningCoefficient s) (criticalCompression s)
           (criticalStretch s) (alpha s).

Definition size_x (s : SnowSolver) : Z := Z.of_nat (fst (fst (size s))).
Definition size_y (s : SnowSolver) : Z := Z.of_nat (snd (fst (size s))).
Definition size_z (s : SnowSolver) : Z := Z.of_nat (snd (size s)).

Definition coord : Type := (Z * Z * Z)%type.
Definition cx (c : coord) : Z := fst (fst c).
Definition cy (c : coord) : Z := snd (fst c).
Definition cz (c : coord) : Z := snd c.

(** Modelled from the spec: [isValidGridNode] is declared in
    [SnowSolver.h]; by section 3 the nodes outside [0, N-1] in some axis
    are the invalid ones. *)
Definition isValidGridNode (s : SnowSolver) (c : coord) : bool :=
  ((0 <=? cx c) && (cx c <? size_x s) &&
   (0 <=? cy c) && (cy c <? size_y s) &&
   (0 <=? cz c) && (cz c <? size_z s))%Z.

(** Element [i] of a vector; an index outside the vector is an error. *)
Definition at_index {A : Type} (l : list A) (i : Z) : option A :=
  if (i <? 0)%Z then None else nth_error l (Z.to_nat i).

(** Overwriting element [i] of a vector. *)
Fixpoint store_nat {A : Type} (l : list A) (i : nat) (a : A) : list A :=
  match l, i with
  | [], _ => []
  | _ :: t, O => a :: t
  | x :: t, S j => x :: store_nat t j a
  end.
Definition store {A : Type} (l : list A) (i : Z) (a : A) : list A :=
  if (i <? 0)%Z then l else store_nat l (Z.to_nat i) a.

(** The argument of the kernel: [(p - g) / h]. *)
Definition kernel_arg (s : SnowSolver) (g : GridNode) (p : ParticleNode) : dvec3 :=
  vdiv (vsub (position (p_node p)) (position (g_node g))) (h s).

Definition bspline3 (d : dvec3) : R :=
  bspline (vx d) * bspline (vy d) * bspline (vz d).

Definition nabla_bspline3 (h0 : R) (d : dvec3) : dvec3 :=
  vscale (1 / h0)
    (mkVec (bspline' (vx d) * bspline (vy d) * bspline (vz d))
           (bspline (vx d) * bspline' (vy d) * bspline (vz d))
           (bspline (vx d) * bspline (vy d) * bspline' (vz d))).

Definition weight (s : SnowSolver) (g : GridNode) (p : ParticleNode) : R :=
  bspline3 (kernel_arg s g p).

Definition nabla_weight (s : SnowSolver) (g : GridNode) (p : ParticleNode) : dvec3 :=
  nabla_bspline3 (h s) (kernel_arg s g p).

(** ** The window of grid nodes around a particle *)

(** Conversion of a double to [int]: truncation toward zero. *)
Definition trunc (x : R) : Z := if Rle_dec 0 x then Zfloor x else Zceil x.
Definition ivec3 (v : dvec3) : coord := (trunc (vx v), trunc (vy v), trunc (vz v)).

Definition gmin (s : SnowSolver) (p : ParticleNode) : coord :=
  ivec3 (vsub (vdiv (position (p_node p)) (h s)) (mkVec 1 1 1)).
Definition gmax (s : SnowSolver) (p : ParticleNode) : coord :=
  ivec3 (vadd (vdiv (position (p_node p)) (h s)) (mkVec 2 2 2)).

(** The integers [lo], [lo + 1], ..., [hi], in this order. *)
Definition zrange (lo hi : Z) : list Z :=
  map (fun i => (lo + Z.of_nat i)%Z) (seq 0 (Z.to_nat (hi - lo + 1))).

(** The coordinates the three nested loops visit, in the order of the
    loops. *)
Definition box (lo hi : coord) : list coord :=
  flat_map (fun gx =>
    flat_map (fun gy =>
      map (fun gz => (gx, gy, gz)) (zrange (cz lo) (cz hi)))
      (zrange (cy lo) (cy hi)))
    (zrange (cx lo) (cx hi)).

Definition window (s : SnowSolver) (p : ParticleNode) : list coord :=
  box (gmin s p) (gmax s p).

(** ** Sequencing of steps that may read outside a vector *)

Definition bind {A B : Type} (m : option A) (f : A -> option B) : option B :=
  match m with Some a => f a | None => None end.

Notation "x <- m ;; k" := (bind m (fun x => k))
  (at level 61, m at next level, right associativity).

Fixpoint foldM {A B : Type} (f : B -> A -> option A) (l : list B) (a : A)
  : option A :=
  match l with
  | [] => Some a
  | b :: t => a' <- f b a ;; foldM f t a'
  end.

Fixpoint mapM {A B : Type} (f : A -> option B) (l : list A) : option (list B) :=
  match l with
  | [] => Some []
  | a :: t => b <- f a ;; t' <- mapM f t ;; Some (b :: t')
  end.

(** [x > y] on doubles, as a boolean. *)
Definition Rgtb (x y : R) : bool := if Rgt_dec x y then true else false.

(** Field updates of grid nodes and particles. *)
Definition g_with_node (g : GridNode) (nd : Node) : GridNode :=
  mkGridNode nd (density0 g) (location g) (force g).
Definition g_with_density0 (g : GridNode) (d : R) : GridNode :=
  mkGridNode (g_node g) d (location g) (force g).
Definition g_with_force (g : GridNode) (f : dvec3) : GridNode :=
  mkGridNode (g_node g) (density0 g) (location g) f.
Definition p_with_node (p : ParticleNode) (nd : Node) : ParticleNode :=
  mkParticleNode nd (volume0 p) (deformElastic p) (deformPlastic p).
Definition p_with_volume0 (p : ParticleNode) (v : R) : ParticleNode :=
  mkParticleNode (p_node p) v (deformElastic p) (deformPlastic p).
Definition p_with_deform (p : ParticleNode) (fe fp : dmat3) : ParticleNode :=
  mkParticleNode (p_node p) (volume0 p) fe fp.

(** ** SnowSolver::update, step by step *)

Section Solver.

(** The free function [svd] wraps Eigen's Jacobi SVD: for a matrix it
    returns [u], the vector [e] of singular values and [v]. *)
Variable svd : dmat3 -> dmat3 * dvec3 * dmat3.

(** [getGridNodeIndex] is declared in [SnowSolver.h], which is not among
    the sources: the flat index of the node with the given coordinates
    in the node array.  The properties below state what they need of
    it. *)
Variable getGridNodeIndex : SnowSolver -> coord -> Z.

(** [this->gridNode(x, y, z)]: the node stored at the flat index. *)
Definition gridNode (s : SnowSolver) (gs : list GridNode) (c : coord)
  : option GridNode :=
  at_index gs (getGridNodeIndex s c).

(** A loop body guarded by [if (!isValidGridNode(gx, gy, gz)) continue;]
    that then takes a reference to the node. *)
Definition guarded {A : Type} (s : SnowSolver) (gs : list GridNode)
    (body : coord -> GridNode -> A -> option A) (c : coord) (a : A) : option A :=
  if isValidGridNode s c
  then g <- gridNode s gs c ;; body c g a
  else Some a.

Definition polarRot (m : dmat3) : dmat3 :=
  let '(u, e, v) := svd m in
  mmul u (transpose v).

Definition polarDecompose (m : dmat3) : dmat3 * dmat3 :=
  let '(u, e, v) := svd m in
  (mmul u (transpose v),
   mmul (mmul v (dmat3_9 (vx e) 0 0 0 (vy e) 0 0 0 (vz e))) (transpose v)).

(** A guarded loop body that writes through the reference to the node:
    the node at the flat index is replaced by its update. *)
Definition modify_at (s : SnowSolver) (upd : GridNode -> GridNode) (c : coord)
    (gs : list GridNode) : option (list GridNode) :=
  guarded s gs (fun c g gs => Some (store gs (getGridNodeIndex s c) (upd g))) c gs.

(** *** Step 1: rasterize particle data to the grid *)

Definition step1_clear (n : nat) (gs : list GridNode) : list GridNode :=
  map (fun g => g_with_node g (set_velocity (set_mass (g_node g) 0) n vzero)) gs.

Definition rasterize_node (s : SnowSolver) (n : nat) (p : ParticleNode)
    (g : GridNode) : GridNode :=
  let particleWeightedMass := mass (p_node p) * weight s g p in
  let nd := set_mass (g_node g) (mass (g_node g) + particleWeightedMass) in
  let nd := set_velocity nd n
              (vadd (velocity nd n)
                    (vscale particleWeightedMass (velocity (p_node p) n))) in
  g_with_node g nd.

Definition rasterize_at (s : SnowSolver) (n : nat) (p : ParticleNode)
  : coord -> list GridNode -> option (list GridNode) :=
  modify_at s (rasterize_node s n p).

Definition step1_rasterize (s : SnowSolver) (n : nat) (ps : list ParticleNode)
    (gs : list GridNode) : option (list GridNode) :=
  foldM (fun p gs => foldM (rasterize_at s n p) (window s p) gs) ps gs.

Definition normalize_node (n : nat) (g : GridNode) : GridNode :=
  let nd := g_node g in
  if Rgtb (length3 (velocity nd n)) 0 && Rgtb (mass nd) 0
  then g_with_node g (set_velocity nd n (vdiv (velocity nd n) (mass nd)))
  else g_with_node g (set_velocity nd n vzero).

Definition step1_normalize (n : nat) (gs : list GridNode) : list GridNode :=
  map (normalize_node n) gs.

Definition step1 (s : SnowSolver) (n : nat) (ps : list ParticleNode)
    (gs : list GridNode) : option (list GridNode) :=
  gs <- step1_rasterize s n ps (step1_clear n gs) ;;
  Some (step1_normalize n gs).

(** *** Step 2: particle volumes and densities, when [n == 0] *)

Definition step2_density (s : SnowSolver) (gs : list GridNode) : list GridNode :=
  map (fun g => g_with_density0 g (mass (g_node g) / (h s * h s * h s))) gs.

(** The gather loop of step 2 takes the reference to the node without a
    validity test. *)
Definition density_at (s : SnowSolver) (gs : list GridNode) (p : ParticleNode)
    (c : coord) (particleNodeDensity0 : R) : option R :=
  g <- gridNode s gs c ;;
  Some (particleNodeDensity0 + density0 g * weight s g p).

Definition particle_density0 (s : SnowSolver) (gs : list GridNode)
    (p : ParticleNode) : option R :=
  foldM (density_at s gs p) (window s p) 0.

Definition step2_volume (s : SnowSolver) (gs : list GridNode) (p : ParticleNode)
  : option ParticleNode :=
  d <- particle_density0 s gs p ;;
  Some (p_with_volume0 p (mass (p_node p) / d)).

Definition step2 (s : SnowSolver) (n : nat) (gs : list GridNode)
    (ps : list ParticleNode) : option (list GridNode * list ParticleNode) :=
  if Nat.eqb n 0 then
    let gs := step2_density s gs in
    ps <- mapM (step2_volume s gs) ps ;;
    Some (gs, ps)
  else Some (gs, ps).

(** *** Step 3: grid forces *)

Definition step3_gravity (gs : list GridNode) : list GridNode :=
  map (fun g => g_with_force g (mkVec 0 0 (-9.8 * mass (g_node g)))) gs.

Definition unweightedForce (s : SnowSolver) (p : ParticleNode) : dmat3 :=
  let jp := determinant (deformPlastic p) in
  let je := determinant (deformElastic p) in
  let e := exp (hardeningCoefficient s * (1 - jp)) in
  let mu := mu0 s * e in
  let lambda := lambda0 s * e in
  mscale (- volume0 p)
    (madd (mmul (mscale (2 * mu) (msub (deformElastic p) (polarRot (deformElastic p))))
                (transpose (deformElastic p)))
          (dmat3_1 (lambda * (je - 1) * je))).

Definition force_at (s : SnowSolver) (p : ParticleNode)
  : coord -> list GridNode -> option (list GridNode) :=
  modify_at s (fun g =>
    g_with_force g
      (vadd (force g) (mvmul (unweightedForce s p) (nabla_weight s g p)))).

Definition step3_forces (s : SnowSolver) (ps : list ParticleNode)
    (gs : list GridNode) : option (list GridNode) :=
  foldM (fun p gs => foldM (force_at s p) (window s p) gs) ps gs.

Definition step3 (s : SnowSolver) (ps : list ParticleNode) (gs : list GridNode)
  : option (list GridNode) :=
  step3_forces s ps (step3_gravity gs).

(** *** Steps 4 and 5: explicit velocities and grid collisions *)

Definition step45_node (delta_t : R) (n : nat) (g : GridNode) : GridNode :=
  let nd := set_velocity_star (g_node g) (velocity (g_node g) n) in
  let nd :=
    if Rgtb (length3 (force g)) 0 && Rgtb (mass nd) 0
    then set_velocity_star nd
           (vadd (velocity_star nd) (vdiv (vscale delta_t (force g)) (mass nd)))
    else nd in
  g_with_node g (handleNodeCollisionVelocityUpdate nd).

Definition step45 (delta_t : R) (n : nat) (gs : list GridNode) : list GridNode :=
  map (step45_node delta_t n) gs.

(** *** Step 6: the linear system; the call of the solver is commented
    out in the source, so [velocity_next] keeps the copy of
    [velocity_star]. *)

Definition step6 (n : nat) (gs : list GridNode) : list GridNode :=
  let velocity_star_v := map (fun g => velocity_star (g_node g)) gs in
  let velocity_next := map (fun g => velocity_star (g_node g)) gs in
  map (fun gv => g_with_node (fst gv) (set_velocity (g_node (fst gv)) (n + 1) (snd gv)))
      (combine gs velocity_next).

(** *** Step 7: deformation gradient *)

Definition nabla_v_at (s : SnowSolver) (n : nat) (gs : list GridNode)
    (p : ParticleNode) : coord -> dmat3 -> option dmat3 :=
  guarded s gs (fun c g nabla_v =>
    Some (madd nabla_v
            (outerProduct (velocity (g_node g) (n + 1)) (nabla_weight s g p)))).

Definition velocity_gradient (s : SnowSolver) (n : nat) (gs : list GridNode)
    (p : ParticleNode) : option dmat3 :=
  foldM (nabla_v_at s n gs p) (window s p) mzero.

Definition multiplier (delta_t : R) (nabla_v : dmat3) : dmat3 :=
  madd (dmat3_1 1) (mscale delta_t nabla_v).

(** The new elastic and plastic parts from the velocity gradient. *)
Definition deform_update (s : SnowSolver) (delta_t : R) (nabla_v : dmat3)
    (p : ParticleNode) : dmat3 * dmat3 :=
  let deform := mmul (deformElastic p) (deformPlastic p) in
  let deform_prime := mmul (multiplier delta_t nabla_v) deform in
  let deformElastic_prime := mmul (multiplier delta_t nabla_v) (deformElastic p) in
  let '(u, e, v) := svd deformElastic_prime in
  let e := vclamp e (1 - criticalCompression s) (1 + criticalStretch s) in
  (mmul (mmul u (dmat3_9 (vx e) 0 0 0 (vy e) 0 0 0 (vz e))) (transpose v),
   mmul (mmul (mmul v (dmat3_9 (1 / vx e) 0 0 0 (1 / vy e) 0 0 0 (1 / vz e)))
              (transpose u))
        deform_prime).

Definition step7 (s : SnowSolver) (delta_t : R) (n : nat) (gs : list GridNode)
    (p : ParticleNode) : option ParticleNode :=
  nabla_v <- velocity_gradient s n gs p ;;
  let fefp := deform_update s delta_t nabla_v p in
  Some (p_with_deform p (fst fefp) (snd fefp)).

(** *** Steps 8, 9 and 10: particle velocity, collision, position *)

Definition pic_flip_at (s : SnowSolver) (n : nat) (gs : list GridNode)
    (p : ParticleNode) : coord -> dvec3 * dvec3 -> option (dvec3 * dvec3) :=
  guarded s gs (fun c g acc =>
    let w := weight s g p in
    let gv := velocity (g_node g) n in
    let gv1 := velocity (g_node g) (n + 1) in
    Some (vadd (fst acc) (vscale w gv1), vadd (snd acc) (vscale w (vsub gv1 gv)))).

Definition step8910 (s : SnowSolver) (delta_t : R) (n : nat) (gs : list GridNode)
    (p : ParticleNode) : option ParticleNode :=
  acc <- foldM (pic_flip_at s n gs p) (window s p) (vzero, velocity (p_node p) n) ;;
  let v_pic := fst acc in
  let v_flip := snd acc in
  let nd := set_velocity_star (p_node p)
              (vadd (vscale (1 - alpha s) v_pic) (vscale (alpha s) v_flip)) in
  let nd := handleNodeCollisionVelocityUpdate nd in
  let nd := set_velocity nd (n + 1) (velocity_star nd) in
  let nd := set_position nd
              (vadd (position nd) (vscale delta_t (velocity nd (n + 1)))) in
  Some (p_with_node p nd).

Definition particle_update (s : SnowSolver) (delta_t : R) (n : nat)
    (gs : list GridNode) (p : ParticleNode) : option ParticleNode :=
  p7 <- step7 s delta_t n gs p ;;
  (* the window of step 8 is the one computed before step 7; the position
     is not written before step 10 *)
  step8910 s delta_t n gs p7.

(** *** The whole tick *)

Definition update (s : SnowSolver) (delta_t : R) (n : nat) : option SnowSolver :=
  gs <- step1 s n (particleNodes s) (gridNodes s) ;;
  gp <- step2 s n gs (particleNodes s) ;;
  let gs := fst gp in
  let ps := snd gp in
  gs <- step3 s ps gs ;;
  let gs := step45 delta_t n gs in
  let gs := step6 n gs in
  ps <- mapM (particle_update s delta_t n gs) ps ;;
  Some (with_nodes s gs ps).

(** ** SnowSolver::implicitVelocityIntegrationMatrix *)

Definition ddot (a b : dmat3) : R :=
  mget a 0 0 * mget b 0 0 + mget a 0 1 * mget b 0 1 + mget a 0 2 * mget b 0 2 +
  mget a 1 0 * mget b 1 0 + mget a 1 1 * mget b 1 1 + mget a 1 2 * mget b 1 2 +
  mget a 2 0 * mget b 2 0 + mget a 2 1 * mget b 2 1 + mget a 2 2 * mget b 2 2.

Definition del_deformElastic_at (s : SnowSolver) (gs : list GridNode)
    (v_next : list dvec3) (p : ParticleNode) : coord -> dmat3 -> option dmat3 :=
  guarded s gs (fun c g acc =>
    vg <- at_index v_next (getGridNodeIndex s c) ;;
    Some (madd acc (outerProduct vg (nabla_weight s g p)))).

Definition del_cofactor (cde del_deformElastic : dmat3) : dmat3 :=
  dmat3_9
    (ddot (dmat3_9 0 0 0
                   0 (mget cde 2 2) (- mget cde 2 1)
                   0 (- mget cde 1 2) (mget cde 1 1)) del_deformElastic)
    (ddot (dmat3_9 0 0 0
                   (- mget cde 2 2) 0 (mget cde 2 0)
                   (mget cde 1 2) 0 (- mget cde 1 0)) del_deformElastic)
    (ddot (dmat3_9 0 0 0
                   (mget cde 2 1) (- mget cde 2 0) 0
                   (- mget cde 1 1) (mget cde 1 0) 0) del_deformElastic)
    (ddot (dmat3_9 0 (- mget cde 2 2) (mget cde 2 1)
                   0 0 0
                   0 (mget cde 0 2) (- mget cde 0 1)) del_deformElastic)
    (ddot (dmat3_9 (mget cde 2 2) 0 (- mget cde 2 0)
                   0 0 0
                   (- mget cde 0 2) 0 (mget cde 0 0)) del_deformElastic)
    (ddot (dmat3_9 (- mget cde 2 1) (mget cde 2 0) 0
                   0 0 0
                   (mget cde 0 1) (- mget cde 0 0) 0) del_deformElastic)
    (ddot (dmat3_9 0 (mget cde 1 2) (- mget cde 1 1)
                   0 (- mget cde 0 2) (mget cde 0 1)
                   0 0 0) del_deformElastic)
    (ddot (dmat3_9 (- mget cde 1 2) 0 (mget cde 1 0)
                   (mget cde 0 2) 0 (- mget cde 0 0)
                   0 0 0) del_deformElastic)
    (ddot (dmat3_9 (mget cde 1 1) (- mget cde 1 0) 0
                   (- mget cde 0 1) (mget cde 0 0) 0
                   0 0 0) del_deformElastic).

(** The per-particle force differential before it is weighted, from the
    sum of the outer products of the loop. *)
Definition unweightedDelForce (s : SnowSolver) (delta_t : R) (p : ParticleNode)
    (outer_sum : dmat3) : dmat3 :=
  let del_deformElastic := mmul (mscale delta_t outer_sum) (deformElastic p) in
  let rs := polarDecompose (deformElastic p) in
  let r := fst rs in
  let s' := snd rs in
  let rtdf_dftr := msub (mmul (transpose r) del_deformElastic)
                        (mmul (transpose del_deformElastic) r) in
  let del_r :=
    mvmul (inverse (dmat3_9 (mget s' 0 0 + mget s' 1 1) (mget s' 1 2)
                            (- mget s' 0 2) (mget s' 2 1) (mget s' 0 0 + mget s' 2 2)
                            (mget s' 1 0)
                            (- mget s' 0 2) (mget s' 0 1) (mget s' 1 1 + mget s' 2 2)))
          (mkVec (mget rtdf_dftr 0 1) (mget rtdf_dftr 0 2) (mget rtdf_dftr 1 2)) in
  let del_polarRotDeformElastic :=
    dmat3_9 0 (- vx del_r) (- vy del_r)
            (vx del_r) 0 (- vz del_r)
            (vy del_r) (vz del_r) 0 in
  let jp := determinant (deformPlastic p) in
  let je := determinant (deformElastic p) in
  let e := exp (hardeningCoefficient s * (1 - jp)) in
  let mu := mu0 s * e in
  let lambda := lambda0 s * e in
  let cofactor_deformElastic := mscale je (transpose (inverse (deformElastic p))) in
  let del_je := ddot cofactor_deformElastic del_deformElastic in
  let del_cofactor_deformElastic :=
    del_cofactor cofactor_deformElastic del_deformElastic in
  mmul (mscale (- volume0 p)
          (madd (mscale (2 * mu) (msub del_deformElastic del_polarRotDeformElastic))
                (mscale lambda
                   (madd (mscale del_je cofactor_deformElastic)
                         (mscale (je - 1) del_cofactor_deformElastic)))))
       (transpose (deformElastic p)).

Definition del_f_at (s : SnowSolver) (gs : list GridNode) (p : ParticleNode)
    (udf : dmat3) : coord -> list dvec3 -> option (list dvec3) :=
  guarded s gs (fun c g del_f =>
    d <- at_index del_f (getGridNodeIndex s c) ;;
    Some (store del_f (getGridNodeIndex s c)
            (vadd d (mvmul udf (nabla_weight s g p))))).

Definition del_f_particle (s : SnowSolver) (delta_t : R) (v_next : list dvec3)
    (p : ParticleNode) (del_f : list dvec3) : option (list dvec3) :=
  outer_sum <- foldM (del_deformElastic_at s (gridNodes s) v_next p) (window s p) mzero ;;
  foldM (del_f_at s (gridNodes s) p (unweightedDelForce s delta_t p outer_sum))
        (window s p) del_f.

Definition Av_next_at (delta_t beta : R) (gvd : GridNode * dvec3 * dvec3) : dvec3 :=
  let '(g, v, df) := gvd in
  if Rgtb (mass (g_node g)) 0
  then vsub v (vdiv (vscale (beta * delta_t) df) (mass (g_node g)))
  else v.

(** The body of the operator, below the declarations of the two local
    constants [delta_t] and [beta]. *)
Definition implicitBody (delta_t beta : R) (s : SnowSolver) (v_next : list dvec3)
  : option (list dvec3) :=
  if negb (Nat.eqb (length v_next) (length (gridNodes s))) then None else
  let x_next :=
    map (fun gv => vadd (position (g_node (fst gv))) (vscale delta_t (snd gv)))
        (combine (gridNodes s) v_next) in
  del_f <- foldM (del_f_particle s delta_t v_next) (particleNodes s)
             (map (fun _ => vzero) v_next) ;;
  Some (map (Av_next_at delta_t beta) (combine (combine (gridNodes s) v_next) del_f)).

Definition implicitVelocityIntegrationMatrix (s : SnowSolver) (v_next : list dvec3)
  : option (list dvec3) :=
  let delta_t := 5e-3 in
  let beta := 1 in
  implicitBody delta_t beta s v_next.

End Solver.

(** ** Notions the properties are stated with *)

(** What the properties need of the flat index: a valid coordinate is
    mapped inside the node array, and two valid coordinates are not
    mapped to the same place. *)
Definition index_in_range (idx : SnowSolver -> coord -> Z) (s : SnowSolver)
    (gs : list GridNode) : Prop :=
  forall c, isValidGridNode s c = true ->
    (0 <= idx s c < Z.of_nat (length gs))%Z.

Definition index_injective (idx : SnowSolver -> coord -> Z) (s : SnowSolver) : Prop :=
  forall c c', isValidGridNode s c = true -> isValidGridNode s c' = true ->
    idx s c = idx s c' -> c = c'.

(** The point of the lattice with the given coordinates, as the
    constructor computes it: [glm::dvec3(x, y, z) * h]. *)
Definition lattice_point (s : SnowSolver) (c : coord) : dvec3 :=
  mkVec (IZR (cx c) * h s) (IZR (cy c) * h s) (IZR (cz c) * h s).

(** The node found under the index of a valid coordinate sits at the
    lattice point of that coordinate. *)
Definition nodes_on_lattice (idx : SnowSolver -> coord -> Z) (s : SnowSolver)
    (gs : list GridNode) : Prop :=
  forall c, isValidGridNode s c = true ->
    exists g, at_index gs (idx s c) = Some g /\
              position (g_node g) = lattice_point s c.

(** The constructor: one node per grid point, pushed by three nested
    loops over x, y and z.  The fields a [Node] starts with are not in
    the sources; they are taken to be zero. *)
Definition new_GridNode (position : dvec3) (location : coord) : GridNode :=
  mkGridNode (mkNode position vzero vzero vzero 0) 0 location vzero.

Definition new_gridNodes (h : R) (size : nat * nat * nat) : list GridNode :=
  flat_map (fun x =>
    flat_map (fun y =>
      map (fun z =>
             new_GridNode
               (mkVec (IZR (Z.of_nat x) * h) (IZR (Z.of_nat y) * h) (IZR (Z.of_nat z) * h))
               (Z.of_nat x, Z.of_nat y, Z.of_nat z))
          (seq 0 (snd size)))
      (seq 0 (snd (fst size))))
    (seq 0 (fst (fst size))).

(** The place in the node array where these loops put the node of the
    given coordinates. *)
Definition storage_index (s : SnowSolver) (c : coord) : Z :=
  ((cx c * size_y s + cy c) * size_z s + cz c)%Z.

(** Modelled from the spec: [getGridNodeIndex] is declared in
    [SnowSolver.h]; section 3 gives the flat index
    [ix + Nx * (iy + Ny * iz)]. *)
Definition spec_index (s : SnowSolver) (c : coord) : Z :=
  (cx c + size_x s * (cy c + size_y s * cz c))%Z.

(** The window of section 4.1: from [floor (p / h) - 1] to
    [floor (p / h) + 2] in every axis. *)
Definition floor_window (s : SnowSolver) (p : ParticleNode) : list coord :=
  let q := vdiv (position (p_node p)) (h s) in
  box (Zfloor (vx q) - 1, Zfloor (vy q) - 1, Zfloor (vz q) - 1)%Z
      (Zfloor (vx q) + 2, Zfloor (vy q) + 2, Zfloor (vz q) + 2)%Z.

Definition Rsum (l : list R) : R := fold_right Rplus 0 l.

(** The weight the node of coordinate [c] has for the particle, when
    the node sits on its lattice point; zero for the coordinates the
    guard skips. *)
Definition node_share (s : SnowSolver) (p : ParticleNode) (c : coord) : R :=
  if isValidGridNode s c
  then bspline3 (vdiv (vsub (position (p_node p)) (lattice_point s c)) (h s))
  else 0.

(** The sum of the masses on the grid and of the particles. *)
Definition grid_mass (gs : list GridNode) : R :=
  fold_right (fun g acc => mass (g_node g) + acc) 0 gs.
Definition particle_mass (ps : list ParticleNode) : R :=
  fold_right (fun p acc => mass (p_node p) + acc) 0 ps.

(** The window of section 4.1, from [floor (p / h) - 1] to
    [floor (p / h) + 2] in every axis, lies inside the grid. *)
Definition window_inside (s : SnowSolver) (p : ParticleNode) : Prop :=
  let q := vdiv (position (p_node p)) (h s) in
  (1 <= Zfloor (vx q) /\ Zfloor (vx q) + 2 <= size_x s - 1 /\
   1 <= Zfloor (vy q) /\ Zfloor (vy q) + 2 <= size_y s - 1 /\
   1 <= Zfloor (vz q) /\ Zfloor (vz q) + 2 <= size_z s - 1)%Z.

Definition orthogonal (m : dmat3) : Prop :=
  mmul (transpose m) m = midentity /\ mmul m (transpose m) = midentity.

(** [sigma] is a singular value of [m]: it is non-negative and its square
    is an eigenvalue of [m^T m]. *)
Definition singular_value (m : dmat3) (sigma : R) : Prop :=
  0 <= sigma /\
  determinant (msub (mmul (transpose m) m) (dmat3_1 (sigma * sigma))) = 0.

(** A result of [svd] with orthogonal factors and non-negative singular
    values. *)
Definition svd_factors (r : dmat3 * dvec3 * dmat3) : Prop :=
  let '(u, e, v) := r in
  orthogonal u /\ orthogonal v /\ 0 <= vx e /\ 0 <= vy e /\ 0 <= vz e.

(** *** The force of section 4.5, in the words of the specification *)

Definition coord_eqb (c c' : coord) : bool :=
  ((cx c =? cx c') && (cy c =? cy c') && (cz c =? cz c'))%Z.

(** The coordinate is one of those the loops over the particle's window
    visit. *)
Definition in_window (s : SnowSolver) (p : ParticleNode) (c : coord) : bool :=
  existsb (coord_eqb c) (window s p).

(** [P = 2 mu (F_E - R_E) F_E^T + lambda (J_E - 1) J_E I], with the
    hardening [e = exp (xi (1 - J_P))], [mu = mu0 e], [lambda = lambda0 e]
    and [R_E] the rotation of the polar decomposition of [F_E]. *)
Definition stress_spec (svd : dmat3 -> dmat3 * dvec3 * dmat3) (s : SnowSolver)
    (p : ParticleNode) : dmat3 :=
  let J_P := determinant (deformPlastic p) in
  let J_E := determinant (deformElastic p) in
  let e := exp (hardeningCoefficient s * (1 - J_P)) in
  let mu := mu0 s * e in
  let lambda := lambda0 s * e in
  let R_E := polarRot svd (deformElastic p) in
  madd (mscale (2 * mu) (mmul (msub (deformElastic p) R_E) (transpose (deformElastic p))))
       (mscale (lambda * (J_E - 1) * J_E) midentity).

(** The coordinate is one of the 4 x 4 x 4 window of the particle,
    from [floor (p / h) - 1] to [floor (p / h) + 2] in every axis. *)
Definition in_floor_window (s : SnowSolver) (p : ParticleNode) (c : coord) : bool :=
  existsb (coord_eqb c) (floor_window s p).

(** The force of the node [g] of coordinate [c]: gravity, and then, for
    every particle whose 4 x 4 x 4 window holds [c],
    [- volume0 * P * nabla w]. *)
Definition force_spec (svd : dmat3 -> dmat3 * dvec3 * dmat3) (s : SnowSolver)
    (ps : list ParticleNode) (c : coord) (g : GridNode) : dvec3 :=
  fold_left
    (fun f p =>
       if in_floor_window s p c
       then vadd f (vscale (- volume0 p)
                      (mvmul (stress_spec svd s p) (nabla_weight s g p)))
       else f)
    ps (mkVec 0 0 (-9.8 * mass (g_node g))).

(** ** Sample states *)

(** An SVD routine on the identity matrix. *)
Definition svd_of_identity (m : dmat3) : dmat3 * dvec3 * dmat3 :=
  (midentity, mkVec 1 1 1, midentity).

Definition sample_particle (x : dvec3) : ParticleNode :=
  mkParticleNode (mkNode x vzero vzero vzero 1) 1 midentity midentity.

(** A solver as the constructor leaves it, with spacing 1, one particle
    and the given time step. *)
Definition sample_solver (size : nat * nat * nat) (x : dvec3) (dt : R) : SnowSolver :=
  mkSolver 1 1 size (new_gridNodes 1 size) [sample_particle x] dt
           58333 38888 10 2.5e-2 7.5e-3 0.95.

(** A particle in the middle of a grid of 4 x 4 x 4 nodes. *)
Definition inner_solver : SnowSolver := sample_solver (4, 4, 4)%nat (mkVec 1.5 1.5 1.5) 1e-5.

(** A particle in the first cell of a grid of 2 x 2 x 2 nodes. *)
Definition corner_solver : SnowSolver := sample_solver (2, 2, 2)%nat (mkVec 0.5 0.5 0.5) 1e-5.

(** A node on the floor that moves down and sideways. *)
Definition floor_node : Node :=
  mkNode (mkVec 0.5 0.5 0) vzero vzero (mkVec 3 4 (-1)) 1.

(** A single grid node of mass 1 and a particle half a cell away from
    it in every axis. *)
Definition single_solver : SnowSolver :=
  mkSolver 1 1 (1, 1, 1)%nat
           [mkGridNode (mkNode vzero vzero vzero vzero 1) 0 (0, 0, 0)%Z vzero]
           [sample_particle (mkVec 0.5 0.5 0.5)] 1e-5
           58333 38888 10 2.5e-2 7.5e-3 0.95.

(** ** Notions the further properties are stated with *)

Definition symmetric (m : dmat3) : Prop := transpose m = m.

(** The force differential as a function of [del_deformElastic]: the
    part of [unweightedDelForce] below the line that computes it. *)
Definition del_force_from (svd : dmat3 -> dmat3 * dvec3 * dmat3) (s : SnowSolver)
    (p : ParticleNode) (del_deformElastic : dmat3) : dmat3 :=
  let rs := polarDecompose svd (deformElastic p) in
  let r := fst rs in
  let s' := snd rs in
  let rtdf_dftr := msub (mmul (transpose r) del_deformElastic)
                        (mmul (transpose del_deformElastic) r) in
  let del_r :=
    mvmul (inverse (dmat3_9 (mget s' 0 0 + mget s' 1 1) (mget s' 1 2)
                            (- mget s' 0 2) (mget s' 2 1) (mget s' 0 0 + mget s' 2 2)
                            (mget s' 1 0)
                            (- mget s' 0 2) (mget s' 0 1) (mget s' 1 1 + mget s' 2 2)))
          (mkVec (mget rtdf_dftr 0 1) (mget rtdf_dftr 0 2) (mget rtdf_dftr 1 2)) in
  let del_polarRotDeformElastic :=
    dmat3_9 0 (- vx del_r) (- vy del_r)
            (vx del_r) 0 (- vz del_r)
            (vy del_r) (vz del_r) 0 in
  let jp := determinant (deformPlastic p) in
  let je := determinant (deformElastic p) in
  let e := exp (hardeningCoefficient s * (1 - jp)) in
  let mu := mu0 s * e in
  let lambda := lambda0 s * e in
  let cofactor_deformElastic := mscale je (transpose (inverse (deformElastic p))) in
  let del_je := ddot cofactor_deformElastic del_deformElastic in
  let del_cofactor_deformElastic :=
    del_cofactor cofactor_deformElastic del_deformElastic in
  mmul (mscale (- volume0 p)
          (madd (mscale (2 * mu) (msub del_deformElastic del_polarRotDeformElastic))
                (mscale lambda
                   (madd (mscale del_je cofactor_deformElastic)
                         (mscale (je - 1) del_cofactor_deformElastic)))))
       (transpose (deformElastic p)).

(** ** utils/viz-diff.h *)

(** [unsigned int] arithmetic: modulo 2^32. *)
Definition uint (z : Z) : Z := (z mod 2 ^ 32)%Z.

(** [vizDiffRenderLoopUpdate]:
    [wrappedFrame = startFrame + frame % (endFrame - startFrame)] on
    [unsigned int]; a remainder by zero is an error.  The arguments are
    the values of the three unsigned variables, between 0 and
    [2^32 - 1]. *)
Definition wrappedFrame (startFrame endFrame frame : Z) : option Z :=
  let d := uint (endFrame - startFrame) in
  if (d =? 0)%Z then None
  else Some (uint (startFrame + frame mod d)).

(** ** The launcher (main) *)

Module Cli.
Import String.
Local Open Scope string_scope.

Inductive Launcher : Type :=
| launchInfo | launchDemoSnowball | launchDemoSlabOverWedge
| launchSimGenSnowball | launchSimGenSlab
| launchSimScene0 | launchVizScene0 | launchVizDiffScene0
| launchSimScene1 | launchVizScene1.

(** [routines.find]: the launcher registered under a name. *)
Fixpoint find (routines : list (string * Launcher)) (name : string) : option Launcher :=
  match routines with
  | [] => None
  | (k, l) :: t => if String.eqb k name then Some l else find t name
  end.

(** [routines.insert]: a name that is registered already keeps its
    launcher. *)
Definition insert (routines : list (string * Launcher)) (it : string * Launcher)
  : list (string * Launcher) :=
  match find routines (fst it) with
  | Some _ => routines
  | None => List.app routines [it]
  end.

(** The map [main] fills; the five launchers of the second block are
    compiled in with [USE_RENDERBOX] only. *)
Definition routines (USE_RENDERBOX : bool) : list (string * Launcher) :=
  let r := [] in
  let r := insert r ("info", launchInfo) in
  let r := insert r ("sim-gen-snowball", launchSimGenSnowball) in
  let r := insert r ("sim-gen-slab", launchSimGenSlab) in
  let r := insert r ("sim-scene0", launchSimScene0) in
  let r := insert r ("sim-scene1", launchSimScene1) in
  if USE_RENDERBOX then
    let r := insert r ("demo-snowball", launchDemoSnowball) in
    let r := insert r ("demo-slab-over-wedge", launchDemoSlabOverWedge) in
    let r := insert r ("viz-scene0", launchVizScene0) in
    let r := insert r ("viz-diff-scene0", launchVizDiffScene0) in
    let r := insert r ("viz-scene1", launchVizScene1) in
    r
  else r.

(** What [main] does after its output: it leaves with [exit (code)], or
    it calls a launcher with the arguments (and returns when the
    launcher does). *)
Inductive Outcome : Type :=
| Exit (code : Z)
| Call (l : Launcher) (argv : list string).

(** [main]: the lines written to the standard output and the outcome.
    [argc] is the length of [argv].  The listing follows the order of
    the hash map, which the model takes to be the order of
    insertion. *)
Definition main (USE_RENDERBOX : bool) (argv : list string) : list string * Outcome :=
  if (List.length argv <? 2)%nat then
    (List.app ["Usage: ./snow [launcher]"; "Available launchers:"]
              (map (fun it => "* " ++ fst it) (routines USE_RENDERBOX)),
     Exit 1)
  else
    let routine := nth 1 argv "" in
    match find (routines USE_RENDERBOX) routine with
    | None => (["Launcher " ++ routine ++ " not found"], Exit 1)
    | Some l => ([], Call l argv)
    end.

End Cli.

(** ** Further sample states *)

(** A grid of 1 x 1 x 1 nodes as the constructor leaves it, without
    particles. *)
Definition empty_solver : SnowSolver :=
  mkSolver 1 1 (1, 1, 1)%nat (new_gridNodes 1 (1, 1, 1)%nat) [] 1e-5
           58333 38888 10 2.5e-2 7.5e-3 0.95.

(** A particle in the middle of the second cell that moves with the
    velocity (1, 2, 3) at time 0. *)
Definition moving_particle : ParticleNode :=
  mkParticleNode (mkNode (mkVec 1.5 1.5 1.5) (mkVec 1 2 3) vzero vzero 1)
                 1 midentity midentity.

(** A grid of 5 x 5 x 5 nodes as the constructor leaves it, with the
    moving particle: the loops over its window visit the coordinates 0
    to 3, so the nodes with a coordinate 4 get nothing from it. *)
Definition outer_solver : SnowSolver :=
  mkSolver 1 1 (5, 5, 5)%nat (new_gridNodes 1 (5, 5, 5)%nat) [moving_particle] 1e-5
           58333 38888 10 2.5e-2 7.5e-3 0.95.

(** A grid of 4 x 4 x 4 nodes of mass 1 that all move with the velocity
    (7, 0, 0) at the times 0 and 1, with the moving particle and
    [alpha = 1]. *)
Definition flip_solver : SnowSolver :=
  mkSolver 1 1 (4, 4, 4)%nat
           (map (fun g => g_with_node g
                            (mkNode (position (g_node g)) (mkVec 7 0 0) (mkVec 7 0 0)
                                    vzero 1))
                (new_gridNodes 1 (4, 4, 4)%nat))
           [moving_particle] 1e-5
           58333 38888 10 2.5e-2 7.5e-3 1.

(** An SVD routine for the diagonal matrices with non-negative
    entries. *)
Definition svd_of_diagonal (m : dmat3) : dmat3 * dvec3 * dmat3 :=
  (midentity, mkVec (mget m 0 0) (mget m 1 1) (mget m 2 2), midentity).

(** A particle at (0.5, 0, 0) whose elastic part is compressed to one
    half along z and whose plastic part is stretched to the double
    along y. *)
Definition stretch_particle : ParticleNode :=
  mkParticleNode (mkNode (mkVec 0.5 0 0) vzero vzero vzero 1) 1
                 (dmat3_9 1 0 0 0 1 0 0 0 (1 / 2)) (dmat3_9 1 0 0 0 2 0 0 0 1).

(** The node at the origin a tick of step 0.1 finds before step 7 when
    the node of mass 1 moves away from the particle with the velocity
    (-18, 0, 0) at time 1. *)
Definition stretch_node : GridNode :=
  mkGridNode (mkNode vzero vzero (mkVec (-18) 0 0) vzero 1) 0 (0, 0, 0)%Z vzero.

Definition stretch_solver : SnowSolver :=
  mkSolver 1 1 (1, 1, 1)%nat [stretch_node] [stretch_particle] (1 / 10)
           58333 38888 10 2.5e-2 7.5e-3 0.95.

(** A matrix with the singular values 2, 3 and 4 between a quarter turn
    about the z axis and a quarter turn about the x axis, and its
    SVD. *)
Definition quarter_turn_z : dmat3 := dmat3_9 0 1 0 (-1) 0 0 0 0 1.
Definition quarter_turn_x : dmat3 := dmat3_9 1 0 0 0 0 1 0 (-1) 0.
Definition turned_matrix : dmat3 :=
  mmul (mmul quarter_turn_z (dmat3_9 2 0 0 0 3 0 0 0 4)) (transpose quarter_turn_x).
Definition svd_of_turned (m : dmat3) : dmat3 * dvec3 * dmat3 :=
  (quarter_turn_z, mkVec 2 3 4, quarter_turn_x).

(** ** Tactics for equations between vectors and matrices *)

Ltac vec_unfold :=
  cbv [midentity mzero mdiag dmat3_1 dmat3_9 transpose outerProduct
       mmul mvmul madd msub mscale vadd vsub vscale vdiv vzero dot
       mget mcol vget vx vy vz col0 col1 col2] in *.

Ltac vec_ring :=
  intros;
  repeat match goal with
         | m : dmat3 |- _ => destruct m
         | v : dvec3 |- _ => destruct v
         end;
  vec_unfold;
  repeat match goal with
         | |- mkMat _ _ _ = mkMat _ _ _ => f_equal
         | |- mkVec _ _ _ = mkVec _ _ _ => f_equal
         end;
  try ring.

(** * Properties *)

(** ** Vectors and matrices *)

Lemma dvec3_eq (a b : dvec3) :
  vx a = vx b -> vy a = vy b -> vz a = vz b -> a = b.
Proof. destruct a, b; simpl; intros; subst; reflexivity. Qed.

Lemma dmat3_eq (a b : dmat3) :
  col0 a = col0 b -> col1 a = col1 b -> col2 a = col2 b -> a = b.
Proof. destruct a, b; simpl; intros; subst; reflexivity. Qed.

Lemma vadd_zero_r (a : dvec3) : vadd a vzero = a.
Proof. vec_ring. Qed.

Lemma vadd_zero_l (a : dvec3) : vadd vzero a = a.
Proof. vec_ring. Qed.

Lemma vadd_assoc (a b c : dvec3) : vadd (vadd a b) c = vadd a (vadd b c).
Proof. vec_ring. Qed.

Lemma vadd_comm (a b : dvec3) : vadd a b = vadd b a.
Proof. vec_ring. Qed.

Lemma mmul_assoc (a b c : dmat3) : mmul (mmul a b) c = mmul a (mmul b c).
Proof. vec_ring. Qed.

Lemma mmul_id_l (a : dmat3) : mmul midentity a = a.
Proof. vec_ring. Qed.

Lemma mmul_id_r (a : dmat3) : mmul a midentity = a.
Proof. vec_ring. Qed.

Lemma transpose_mmul (a b : dmat3) :
  transpose (mmul a b) = mmul (transpose b) (transpose a).
Proof. vec_ring. Qed.

Lemma transpose_involutive (a : dmat3) : transpose (transpose a) = a.
Proof. vec_ring. Qed.

Lemma determinant_mmul (a b : dmat3) :
  determinant (mmul a b) = determinant a * determinant b.
Proof.
  destruct a as [[] [] []], b as [[] [] []].
  unfold determinant; vec_unfold; ring.
Qed.

Lemma determinant_transpose (a : dmat3) : determinant (transpose a) = determinant a.
Proof. destruct a as [[] [] []]. unfold determinant; vec_unfold; ring. Qed.

Lemma determinant_identity : determinant midentity = 1.
Proof. unfold determinant; vec_unfold; ring. Qed.

Lemma length3_nonneg (a : dvec3) : 0 <= length3 a.
Proof. apply sqrt_pos. Qed.

Lemma dot_self_nonneg (a : dvec3) : 0 <= dot a a.
Proof. destruct a; unfold dot; simpl; nra. Qed.

Lemma length3_zero_iff (a : dvec3) : length3 a = 0 <-> a = vzero.
Proof.
  split.
  - intros H. apply sqrt_eq_0 in H; [| apply dot_self_nonneg].
    destruct a as [x y z]; unfold dot in H; simpl in H.
    unfold vzero; f_equal; nra.
  - intros ->. unfold length3, dot, vzero; simpl.
    replace (0 * 0 + 0 * 0 + 0 * 0) with 0 by ring. apply sqrt_0.
Qed.

Lemma Rgtb_true (x y : R) : Rgtb x y = true <-> x > y.
Proof. unfold Rgtb; destruct (Rgt_dec x y); split; intros; congruence || assumption || reflexivity. Qed.

Lemma Rgtb_false (x y : R) : Rgtb x y = false <-> x <= y.
Proof.
  unfold Rgtb; destruct (Rgt_dec x y); split; intros; try congruence; try lra.
Qed.

(** ** The collision handler *)

Lemma handle_position (nd : Node) :
  position (handleNodeCollisionVelocityUpdate nd) = position nd.
Proof.
  unfold handleNodeCollisionVelocityUpdate.
  destruct (Rle_dec _ _); [| reflexivity].
  destruct (Rge_dec _ _); reflexivity.
Qed.

Lemma handle_other_fields (nd : Node) :
  velocity_even (handleNodeCollisionVelocityUpdate nd) = velocity_even nd /\
  velocity_odd (handleNodeCollisionVelocityUpdate nd) = velocity_odd nd /\
  mass (handleNodeCollisionVelocityUpdate nd) = mass nd.
Proof.
  unfold handleNodeCollisionVelocityUpdate.
  destruct (Rle_dec _ _); [| auto].
  destruct (Rge_dec _ _); auto.
Qed.

Lemma handle_no_approach (nd : Node) :
  0 <= vz (velocity_star nd) -> handleNodeCollisionVelocityUpdate nd = nd.
Proof.
  intros Hz. unfold handleNodeCollisionVelocityUpdate.
  destruct (Rle_dec _ _); [| reflexivity].
  destruct (Rge_dec _ _) as [_ | Hno]; [reflexivity |].
  exfalso. apply Hno. unfold dot, vsub; simpl. lra.
Qed.

Lemma handle_normal_component (nd : Node) :
  vz (position nd) <= 0.1 -> vz (velocity_star nd) < 0 ->
  vz (velocity_star (handleNodeCollisionVelocityUpdate nd)) = 0.
Proof.
  intros Hc Hv. unfold handleNodeCollisionVelocityUpdate.
  destruct (Rle_dec _ _); [| contradiction].
  destruct (Rge_dec _ _) as [Hge | _].
  - exfalso. unfold dot, vsub in Hge; simpl in Hge. lra.
  - destruct nd as [[px py pz] ve vo [sx sy sz] m]. simpl.
    destruct (Rle_dec _ _); unfold normalize; vec_unfold; ring.
Qed.

(** C7.  For a node in contact with the floor (its height is at most
    0.1), with the floor's normal n = (0,0,1), velocity v_co = 0 and
    friction mu_f = 1: when the normal relative velocity v_n is
    non-negative the node is returned unchanged; otherwise, when
    |v_t| <= - mu_f v_n the velocity becomes v_co (stick), and else it
    becomes v_t + mu_f v_n (v_t / |v_t|) + v_co (slide). *)
Theorem collision_floor_cases (nd : Node) :
  vz (position nd) <= 0.1 ->
  let n := mkVec 0 0 1 in
  let v_co := vzero in
  let mu_f := 1 in
  let v_rel := vsub (velocity_star nd) v_co in
  let v_n := dot v_rel n in
  let v_t := vsub v_rel (vscale v_n n) in
  (v_n >= 0 -> handleNodeCollisionVelocityUpdate nd = nd) /\
  (v_n < 0 -> length3 v_t <= - mu_f * v_n ->
   handleNodeCollisionVelocityUpdate nd = set_velocity_star nd v_co) /\
  (v_n < 0 -> length3 v_t > - mu_f * v_n ->
   handleNodeCollisionVelocityUpdate nd =
   set_velocity_star nd
     (vadd (vadd v_t (vscale (mu_f * v_n) (vdiv v_t (length3 v_t)))) v_co)).
Proof.
  intros Hc. cbv zeta.
  unfold handleNodeCollisionVelocityUpdate, vzero. cbv zeta.
  destruct (Rle_dec (vz (position nd)) 0.1) as [_ | Hn]; [| contradiction].
  repeat split.
  - intros Hge. destruct (Rge_dec _ 0); [reflexivity | contradiction].
  - intros Hlt Hstick.
    destruct (Rge_dec _ 0) as [Hge | _]; [lra |].
    destruct (Rle_dec _ _) as [_ | Hno].
    + f_equal. unfold vadd; simpl. f_equal; ring.
    + exfalso. apply Hno. lra.
  - intros Hlt Hslide.
    destruct (Rge_dec _ 0) as [Hge | _]; [lra |].
    destruct (Rle_dec _ _) as [Hle | _].
    + exfalso. lra.
    + f_equal. f_equal. f_equal.
      unfold normalize, length3.
      match goal with |- vscale _ (vscale _ ?t) = _ => destruct t as [a b c] end.
      unfold vscale, vdiv; simpl.
      replace 1.0 with 1 by lra.
      f_equal; unfold Rdiv; ring.
Qed.

(** C8.  The handler is idempotent: a second application changes
    nothing, whatever the position and the velocity of the node. *)
Theorem collision_idempotent (nd : Node) :
  handleNodeCollisionVelocityUpdate (handleNodeCollisionVelocityUpdate nd) =
  handleNodeCollisionVelocityUpdate nd.
Proof.
  destruct (Rle_dec (vz (position nd)) 0.1) as [Hc | Hn].
  - destruct (Rle_dec 0 (vz (velocity_star nd))) as [Hz | Hz].
    + rewrite (handle_no_approach nd Hz). apply handle_no_approach, Hz.
    + apply handle_no_approach.
      rewrite handle_normal_component; lra.
  - assert (E : handleNodeCollisionVelocityUpdate nd = nd).
    { unfold handleNodeCollisionVelocityUpdate.
      destruct (Rle_dec _ _); [contradiction | reflexivity]. }
    rewrite !E. reflexivity.
Qed.

(** ** Vector accesses *)

Lemma velocity_set_same (nd : Node) (n : nat) (v : dvec3) :
  velocity (set_velocity nd n v) n = v.
Proof. unfold velocity, set_velocity. destruct (Nat.even n); reflexivity. Qed.

Lemma even_succ_negb (n : nat) : Nat.even (n + 1) = negb (Nat.even n).
Proof. rewrite Nat.add_1_r, Nat.even_succ, <- Nat.negb_even. reflexivity. Qed.

Lemma velocity_set_next (nd : Node) (n : nat) (v : dvec3) :
  velocity (set_velocity nd (n + 1) v) n = velocity nd n.
Proof.
  unfold velocity, set_velocity. rewrite even_succ_negb.
  destruct (Nat.even n); reflexivity.
Qed.

Lemma set_velocity_fields (nd : Node) (n : nat) (v : dvec3) :
  position (set_velocity nd n v) = position nd /\
  velocity_star (set_velocity nd n v) = velocity_star nd /\
  mass (set_velocity nd n v) = mass nd.
Proof. unfold set_velocity. destruct (Nat.even n); auto. Qed.

Lemma at_index_in_range {A : Type} (l : list A) (i : Z) :
  (0 <= i < Z.of_nat (length l))%Z -> exists a, at_index l i = Some a.
Proof.
  intros [H0 H1]. unfold at_index.
  destruct (i <? 0)%Z eqn:E; [apply Z.ltb_lt in E; lia |].
  destruct (nth_error l (Z.to_nat i)) eqn:En; [eauto |].
  apply nth_error_None in En. lia.
Qed.

Section Grid.

Variable idx : SnowSolver -> coord -> Z.

Lemma gridNode_valid (s : SnowSolver) (gs : list GridNode) (c : coord) :
  index_in_range idx s gs -> isValidGridNode s c = true ->
  exists g, gridNode idx s gs c = Some g.
Proof.
  intros Hs Hv. apply at_index_in_range. apply Hs, Hv.
Qed.

(** A guarded loop never reads outside the node array. *)
Lemma foldM_guarded_total {A : Type} (s : SnowSolver) (gs : list GridNode)
    (body : coord -> GridNode -> A -> option A) :
  index_in_range idx s gs ->
  (forall c g a, exists a', body c g a = Some a') ->
  forall (l : list coord) (a : A),
    exists a', foldM (guarded idx s gs body) l a = Some a'.
Proof.
  intros Hs Hb l. induction l as [| c l IH]; intros a; simpl; [eauto |].
  unfold guarded at 1.
  destruct (isValidGridNode s c) eqn:Hv; simpl.
  - destruct (gridNode_valid s gs c Hs Hv) as [g ->]. simpl.
    destruct (Hb c g a) as [a' ->]. simpl. apply IH.
  - apply IH.
Qed.

Lemma velocity_gradient_total (s : SnowSolver) (n : nat) (gs : list GridNode)
    (p : ParticleNode) :
  index_in_range idx s gs ->
  exists nabla_v, velocity_gradient idx s n gs p = Some nabla_v.
Proof.
  intros Hs. unfold velocity_gradient, nabla_v_at.
  apply foldM_guarded_total; [assumption | eauto].
Qed.

End Grid.

Lemma Forall2_map_self {A B : Type} (R : A -> B -> Prop) (f : A -> B) (l : list A) :
  (forall a, R a (f a)) -> Forall2 R l (map f l).
Proof. intros H. induction l; simpl; constructor; auto. Qed.

Lemma map_combine_self {A B C : Type} (f : A -> B) (k : A * B -> C) (l : list A) :
  map k (combine l (map f l)) = map (fun a => k (a, f a)) l.
Proof. induction l; simpl; [reflexivity | f_equal; assumption]. Qed.

(** ** Step 1: the normalisation of the grid velocities *)

Lemma normalize_node_velocity (n : nat) (g : GridNode) :
  velocity (g_node (normalize_node n g)) n =
  if Rgtb (mass (g_node g)) 0
  then vdiv (velocity (g_node g) n) (mass (g_node g))
  else vzero.
Proof.
  unfold normalize_node.
  destruct (Rgtb (length3 (velocity (g_node g) n)) 0) eqn:El;
    destruct (Rgtb (mass (g_node g)) 0) eqn:Em; simpl;
    rewrite velocity_set_same; try reflexivity.
  apply Rgtb_false in El.
  assert (Hz : length3 (velocity (g_node g) n) = 0)
    by (pose proof (length3_nonneg (velocity (g_node g) n)); lra).
  apply length3_zero_iff in Hz. rewrite Hz.
  unfold vdiv, vzero; simpl. f_equal; unfold Rdiv; ring.
Qed.

(** C4.  After the normalisation that ends step 1, every grid node with
    positive accumulated mass has the accumulated momentum divided by
    that mass as its velocity at time n, and every other node has the
    zero velocity; a node with positive mass and zero momentum ends with
    zero velocity.  The mass is left as accumulated.  ([gs] is the grid
    the rasterization leaves: the velocity slot of time n holds the
    accumulated momentum, see [rasterize_node].) *)
Theorem p2g_normalization (n : nat) (gs : list GridNode) :
  Forall2 (fun g g' =>
    (mass (g_node g) > 0 ->
     velocity (g_node g') n = vdiv (velocity (g_node g) n) (mass (g_node g))) /\
    (mass (g_node g) <= 0 -> velocity (g_node g') n = vzero) /\
    (mass (g_node g) > 0 -> velocity (g_node g) n = vzero ->
     velocity (g_node g') n = vzero) /\
    mass (g_node g') = mass (g_node g))
    gs (step1_normalize n gs).
Proof.
  unfold step1_normalize. apply Forall2_map_self. intros g.
  rewrite normalize_node_velocity.
  repeat split.
  - intros Hm. apply Rgtb_true in Hm. rewrite Hm. reflexivity.
  - intros Hm. apply Rgtb_false in Hm. rewrite Hm. reflexivity.
  - intros Hm Hv. apply Rgtb_true in Hm. rewrite Hm, Hv.
    unfold vdiv, vzero; simpl. f_equal; unfold Rdiv; ring.
  - unfold normalize_node.
    destruct (_ && _); simpl; apply set_velocity_fields.
Qed.

(** ** Step 6 *)

(** C6.  With the solver call disabled, step 6 gives every grid node,
    as its velocity at time n + 1, exactly the [velocity_star] it had
    after steps 4 and 5; nothing else of the node changes. *)
Theorem step6_copies_velocity_star (delta_t : R) (n : nat) (gs : list GridNode) :
  Forall2 (fun g g' =>
    velocity (g_node g') (n + 1) = velocity_star (g_node g) /\
    velocity_star (g_node g') = velocity_star (g_node g) /\
    velocity (g_node g') n = velocity (g_node g) n /\
    position (g_node g') = position (g_node g) /\
    mass (g_node g') = mass (g_node g) /\
    force g' = force g /\ density0 g' = density0 g /\ location g' = location g)
    (step45 delta_t n gs) (step6 n (step45 delta_t n gs)).
Proof.
  unfold step6. rewrite map_combine_self. apply Forall2_map_self.
  intros g. simpl.
  rewrite velocity_set_same, velocity_set_next.
  destruct (set_velocity_fields (g_node g) (n + 1) (velocity_star (g_node g)))
    as (Hp & Hs & Hm).
  repeat split; assumption.
Qed.

(** ** Step 7: the plastic clamp *)

Lemma clamp1_bounds (x lo hi : R) : lo <= hi -> lo <= clamp1 x lo hi <= hi.
Proof.
  intros H. unfold clamp1, Rmin, Rmax.
  destruct (Rle_dec x lo); destruct (Rle_dec _ hi); lra.
Qed.

Lemma clamp1_nonneg (x lo hi : R) : 0 <= x -> 0 <= hi -> 0 <= clamp1 x lo hi.
Proof.
  intros Hx Hh. unfold clamp1, Rmin, Rmax.
  destruct (Rle_dec x lo); destruct (Rle_dec _ hi); lra.
Qed.

Lemma mdiag_inverse (a b c : R) :
  a <> 0 -> b <> 0 -> c <> 0 ->
  mmul (dmat3_9 a 0 0 0 b 0 0 0 c) (dmat3_9 (1 / a) 0 0 0 (1 / b) 0 0 0 (1 / c))
  = midentity.
Proof. intros Ha Hb Hc. vec_unfold. repeat f_equal; field; assumption. Qed.

Lemma clamp_split_product (u v f : dmat3) (a b c : R) :
  orthogonal u -> orthogonal v -> a <> 0 -> b <> 0 -> c <> 0 ->
  mmul (mmul (mmul u (dmat3_9 a 0 0 0 b 0 0 0 c)) (transpose v))
       (mmul (mmul (mmul v (dmat3_9 (1 / a) 0 0 0 (1 / b) 0 0 0 (1 / c)))
                   (transpose u)) f)
  = f.
Proof.
  intros [_ Hu] [Hv _] Ha Hb Hc.
  rewrite !mmul_assoc.
  rewrite <- (mmul_assoc (transpose v) v), Hv, mmul_id_l.
  rewrite <- (mmul_assoc (dmat3_9 a 0 0 0 b 0 0 0 c)), mdiag_inverse by assumption.
  rewrite mmul_id_l, <- mmul_assoc, Hu, mmul_id_l. reflexivity.
Qed.

Lemma gram_of_factors (u v d : dmat3) :
  orthogonal u ->
  mmul (transpose (mmul (mmul u d) (transpose v))) (mmul (mmul u d) (transpose v))
  = mmul (mmul v (mmul (transpose d) d)) (transpose v).
Proof.
  intros [Hu _].
  rewrite !transpose_mmul, transpose_involutive, !mmul_assoc.
  rewrite <- (mmul_assoc (transpose u) u), Hu, mmul_id_l. reflexivity.
Qed.

Lemma conjugate_scalar (v : dmat3) (k : R) :
  orthogonal v -> dmat3_1 k = mmul (mmul v (dmat3_1 k)) (transpose v).
Proof.
  intros [_ Hv].
  assert (E : mmul (mmul v (dmat3_1 k)) (transpose v) = mscale k (mmul v (transpose v)))
    by vec_ring.
  rewrite E, Hv. vec_ring.
Qed.

Lemma conjugate_msub (v a b : dmat3) :
  msub (mmul (mmul v a) (transpose v)) (mmul (mmul v b) (transpose v))
  = mmul (mmul v (msub a b)) (transpose v).
Proof. vec_ring. Qed.

Lemma determinant_orthogonal_sq (v : dmat3) :
  orthogonal v -> determinant v * determinant v = 1.
Proof.
  intros [_ Hv].
  rewrite <- (determinant_transpose v) at 2.
  rewrite <- determinant_mmul, Hv. apply determinant_identity.
Qed.

(** The singular values of [u * diag (a, b, c) * v^T], for orthogonal
    [u] and [v] and non-negative [a], [b], [c], are [a], [b] and [c]. *)
Lemma singular_value_of_factors (u v : dmat3) (a b c sigma : R) :
  orthogonal u -> orthogonal v -> 0 <= a -> 0 <= b -> 0 <= c ->
  singular_value (mmul (mmul u (dmat3_9 a 0 0 0 b 0 0 0 c)) (transpose v)) sigma <->
  0 <= sigma /\ (sigma = a \/ sigma = b \/ sigma = c).
Proof.
  intros Hu Hv Ha Hb Hc. unfold singular_value.
  rewrite gram_of_factors by assumption.
  rewrite (conjugate_scalar v (sigma * sigma) Hv), conjugate_msub.
  rewrite !determinant_mmul, determinant_transpose.
  pose proof (determinant_orthogonal_sq v Hv) as Hd.
  assert (E : determinant
                (msub (mmul (transpose (dmat3_9 a 0 0 0 b 0 0 0 c))
                            (dmat3_9 a 0 0 0 b 0 0 0 c))
                      (dmat3_1 (sigma * sigma)))
              = (a * a - sigma * sigma) * (b * b - sigma * sigma)
                * (c * c - sigma * sigma)).
  { unfold determinant. vec_unfold. ring. }
  rewrite E.
  split.
  - intros [Hs H]. split; [assumption |].
    assert (H' : (a * a - sigma * sigma) * (b * b - sigma * sigma)
                 * (c * c - sigma * sigma) = 0).
    { transitivity ((determinant v * determinant v)
                    * ((a * a - sigma * sigma) * (b * b - sigma * sigma)
                       * (c * c - sigma * sigma))); [rewrite Hd; ring | rewrite <- H; ring]. }
    apply Rmult_integral in H'. destruct H' as [H' | H'].
    + apply Rmult_integral in H'. destruct H' as [H' | H']; [left | right; left]; nra.
    + right; right; nra.
  - intros [Hs H]. split; [assumption |].
    destruct H as [-> | [-> | ->]]; ring.
Qed.

Section Clamp.

Variable svd : dmat3 -> dmat3 * dvec3 * dmat3.
Variable idx : SnowSolver -> coord -> Z.

(** C1.  After step 7 every singular value of the particle's
    [deformElastic] lies in [1 - criticalCompression, 1 + criticalStretch];
    the singular values are the clamped values themselves.  The interval
    is taken non-empty with a non-negative upper end, and the SVD routine
    is taken to return orthogonal factors and non-negative values for the
    matrix step 7 passes to it. *)
Theorem clamp_singular_values (s : SnowSolver) (delta_t : R) (n : nat)
    (gs : list GridNode) (p : ParticleNode) :
  index_in_range idx s gs ->
  1 - criticalCompression s <= 1 + criticalStretch s ->
  0 <= 1 + criticalStretch s ->
  (forall nabla_v, velocity_gradient idx s n gs p = Some nabla_v ->
     svd_factors (svd (mmul (madd midentity (mscale delta_t nabla_v))
                            (deformElastic p)))) ->
  exists p', step7 svd idx s delta_t n gs p = Some p' /\
    forall sigma, singular_value (deformElastic p') sigma ->
      1 - criticalCompression s <= sigma <= 1 + criticalStretch s.
Proof.
  intros Hs Hlh Hh Hsvd.
  destruct (velocity_gradient_total idx s n gs p Hs) as [nv Hnv].
  specialize (Hsvd nv Hnv).
  unfold step7. rewrite Hnv. simpl.
  eexists; split; [reflexivity |].
  intros sigma. simpl. unfold deform_update, multiplier.
  change (dmat3_1 1) with midentity.
  destruct (svd (mmul (madd midentity (mscale delta_t nv)) (deformElastic p)))
    as [[u e] v].
  destruct Hsvd as (Hu & Hv & Hx & Hy & Hz). simpl.
  set (lo := 1 - criticalCompression s) in *.
  set (hi := 1 + criticalStretch s) in *.
  intros Hsv.
  apply singular_value_of_factors in Hsv;
    try assumption; try (apply clamp1_nonneg; assumption).
  destruct Hsv as [_ [-> | [-> | ->]]]; apply clamp1_bounds; assumption.
Qed.

(** C10.  Step 7 keeps the total deformation gradient: with
    M = I + delta_t * nabla_v and the values before the step, the new
    elastic part times the new plastic part is M * F_E * F_P, when the
    clamped singular values are non-zero (and the SVD routine returns
    orthogonal factors for the matrix step 7 passes to it). *)
Theorem deformation_product_preserved (s : SnowSolver) (delta_t : R) (n : nat)
    (gs : list GridNode) (p : ParticleNode) :
  index_in_range idx s gs ->
  (forall nabla_v, velocity_gradient idx s n gs p = Some nabla_v ->
     let '(u, e, v) := svd (mmul (madd midentity (mscale delta_t nabla_v))
                                 (deformElastic p)) in
     let e' := vclamp e (1 - criticalCompression s) (1 + criticalStretch s) in
     orthogonal u /\ orthogonal v /\ vx e' <> 0 /\ vy e' <> 0 /\ vz e' <> 0) ->
  exists nabla_v p',
    velocity_gradient idx s n gs p = Some nabla_v /\
    step7 svd idx s delta_t n gs p = Some p' /\
    mmul (deformElastic p') (deformPlastic p') =
    mmul (mmul (madd midentity (mscale delta_t nabla_v)) (deformElastic p))
         (deformPlastic p).
Proof.
  intros Hs Hsvd.
  destruct (velocity_gradient_total idx s n gs p Hs) as [nv Hnv].
  specialize (Hsvd nv Hnv).
  exists nv. unfold step7. rewrite Hnv. simpl.
  eexists; split; [reflexivity | split; [reflexivity |]].
  simpl. unfold deform_update, multiplier.
  change (dmat3_1 1) with midentity.
  destruct (svd (mmul (madd midentity (mscale delta_t nv)) (deformElastic p)))
    as [[u e] v].
  destruct Hsvd as (Hu & Hv & Hx & Hy & Hz). simpl in *.
  rewrite clamp_split_product by assumption.
  symmetry. apply mmul_assoc.
Qed.

End Clamp.

(** ** The node array the constructor builds *)

Lemma length_flat_map_seq {A : Type} (f : nat -> list A) (m a n : nat) :
  (forall x, length (f x) = m) -> length (flat_map f (seq a n)) = (n * m)%nat.
Proof.
  intros Hf. revert a. induction n as [| n IH]; intros a; simpl; [reflexivity |].
  rewrite length_app, Hf, IH. reflexivity.
Qed.

Lemma nth_error_flat_map_seq {A : Type} (f : nat -> list A) (m a n i j : nat) :
  (forall x, length (f x) = m) -> (i < n)%nat -> (j < m)%nat ->
  nth_error (flat_map f (seq a n)) (i * m + j) = nth_error (f (a + i)%nat) j.
Proof.
  intros Hf. revert a i. induction n as [| n IH]; intros a i Hi Hj; [lia |].
  simpl. destruct i as [| i].
  - simpl. rewrite nth_error_app1 by (rewrite Hf; assumption).
    rewrite Nat.add_0_r. reflexivity.
  - rewrite nth_error_app2 by (rewrite Hf; simpl; lia).
    rewrite Hf. replace (S i * m + j - m)%nat with (i * m + j)%nat by (simpl; lia).
    rewrite IH by lia. f_equal. f_equal. lia.
Qed.

Lemma new_gridNodes_length (h0 : R) (sz : nat * nat * nat) :
  length (new_gridNodes h0 sz) = (fst (fst sz) * snd (fst sz) * snd sz)%nat.
Proof.
  unfold new_gridNodes.
  rewrite (length_flat_map_seq _ (snd (fst sz) * snd sz)); [lia |].
  intros x. rewrite (length_flat_map_seq _ (snd sz)); [reflexivity |].
  intros y. rewrite length_map, length_seq. reflexivity.
Qed.

Lemma valid_coord_bounds (s : SnowSolver) (c : coord) :
  isValidGridNode s c = true ->
  (0 <= cx c < size_x s /\ 0 <= cy c < size_y s /\ 0 <= cz c < size_z s)%Z.
Proof.
  unfold isValidGridNode.
  rewrite !andb_true_iff, !Z.leb_le, !Z.ltb_lt. tauto.
Qed.

Lemma storage_index_nat (s : SnowSolver) (c : coord) :
  isValidGridNode s c = true ->
  (0 <= storage_index s c)%Z /\
  Z.to_nat (storage_index s c) =
  (Z.to_nat (cx c) * (snd (fst (size s)) * snd (size s))
   + (Z.to_nat (cy c) * snd (size s) + Z.to_nat (cz c)))%nat.
Proof.
  intros Hv. apply valid_coord_bounds in Hv.
  unfold storage_index, size_x, size_y, size_z in *.
  destruct (size s) as [[nx ny] nz]; simpl in *.
  split; [nia |].
  apply Nat2Z.inj. rewrite Z2Nat.id by nia.
  rewrite !Nat2Z.inj_add, !Nat2Z.inj_mul, !Z2Nat.id by lia. ring.
Qed.

Lemma storage_index_in_range (s : SnowSolver) (gs : list GridNode) :
  length gs = (fst (fst (size s)) * snd (fst (size s)) * snd (size s))%nat ->
  index_in_range storage_index s gs.
Proof.
  intros Hl c Hv. rewrite Hl.
  apply valid_coord_bounds in Hv.
  unfold storage_index, size_x, size_y, size_z in *.
  destruct (size s) as [[nx ny] nz]; simpl in *.
  rewrite !Nat2Z.inj_mul. split; [nia |].
  assert ((cx c * Z.of_nat ny + cy c) * Z.of_nat nz + cz c
          <= ((Z.of_nat nx - 1) * Z.of_nat ny + (Z.of_nat ny - 1)) * Z.of_nat nz
             + (Z.of_nat nz - 1))%Z.
  { apply Z.add_le_mono; [| lia]. apply Z.mul_le_mono_nonneg_r; [lia |].
    apply Z.add_le_mono; [| lia]. apply Z.mul_le_mono_nonneg_r; lia. }
  nia.
Qed.

Lemma storage_index_injective (s : SnowSolver) : index_injective storage_index s.
Proof.
  intros [[x y] z] [[x' y'] z'] Hv Hv' E.
  apply valid_coord_bounds in Hv, Hv'.
  unfold storage_index, size_x, size_y, size_z, cx, cy, cz in *.
  destruct (size s) as [[nx ny] nz]; simpl in *.
  assert (Hz : z = z' /\ (x * Z.of_nat ny + y = x' * Z.of_nat ny + y')%Z).
  { assert (H1 : ((x * Z.of_nat ny + y) = (x' * Z.of_nat ny + y'))%Z) by nia.
    split; [nia | assumption]. }
  destruct Hz as [-> E2].
  assert (x = x') by nia. subst x'.
  assert (y = y') by lia. subst y'. reflexivity.
Qed.

Lemma new_gridNodes_on_lattice (s : SnowSolver) :
  nodes_on_lattice storage_index s (new_gridNodes (h s) (size s)).
Proof.
  intros c Hv.
  destruct (storage_index_nat s c Hv) as [H0 Hn].
  pose proof (valid_coord_bounds s c Hv) as Hb.
  unfold at_index. destruct (storage_index s c <? 0)%Z eqn:E;
    [apply Z.ltb_lt in E; lia |].
  rewrite Hn. unfold new_gridNodes, size_x, size_y, size_z in *.
  destruct (size s) as [[nx ny] nz]; simpl fst in *; simpl snd in *.
  rewrite (nth_error_flat_map_seq _ (ny * nz)); try lia; try nia.
  2:{ intros x. rewrite (length_flat_map_seq _ nz); [reflexivity |].
      intros y. rewrite length_map, length_seq. reflexivity. }
  rewrite (nth_error_flat_map_seq _ nz); try lia.
  2:{ intros y. rewrite length_map, length_seq. reflexivity. }
  rewrite nth_error_map.
  rewrite nth_error_seq.
  destruct (Nat.ltb (Z.to_nat (cz c)) nz) eqn:Ez;
    [| apply Nat.ltb_ge in Ez; lia].
  simpl. eexists; split; [reflexivity |].
  simpl. unfold lattice_point. rewrite !Z2Nat.id by lia. reflexivity.
Qed.

(** ** Writing into the node array *)

Lemma store_nat_length {A : Type} (l : list A) (i : nat) (a : A) :
  length (store_nat l i a) = length l.
Proof.
  revert i. induction l as [| x l IH]; intros [| i]; simpl; auto.
Qed.

Lemma store_length {A : Type} (l : list A) (i : Z) (a : A) :
  length (store l i a) = length l.
Proof. unfold store. destruct (i <? 0)%Z; auto using store_nat_length. Qed.

Lemma nth_error_store_nat_eq {A : Type} (l : list A) (i : nat) (a : A) :
  (i < length l)%nat -> nth_error (store_nat l i a) i = Some a.
Proof.
  revert i. induction l as [| x l IH]; intros [| i] H; simpl in *; try lia; auto.
  apply IH. lia.
Qed.

Lemma nth_error_store_nat_neq {A : Type} (l : list A) (i j : nat) (a : A) :
  i <> j -> nth_error (store_nat l i a) j = nth_error l j.
Proof.
  revert i j. induction l as [| x l IH]; intros [| i] [| j] H; simpl; auto; try lia.
Qed.

Lemma at_index_store_eq {A : Type} (l : list A) (i : Z) (a b : A) :
  at_index l i = Some a -> at_index (store l i b) i = Some b.
Proof.
  unfold at_index, store. destruct (i <? 0)%Z; [discriminate |].
  intros H. apply nth_error_store_nat_eq.
  apply nth_error_Some. congruence.
Qed.

Lemma at_index_store_neq {A : Type} (l : list A) (i j : Z) (b : A) :
  i <> j -> at_index (store l i b) j = at_index l j.
Proof.
  unfold at_index, store. intros H.
  destruct (j <? 0)%Z eqn:Ej; [reflexivity |].
  destruct (i <? 0)%Z eqn:Ei; [reflexivity |].
  apply nth_error_store_nat_neq.
  apply Z.ltb_ge in Ei, Ej. intros E. apply H. apply Z2Nat.inj; assumption.
Qed.

Lemma grid_mass_store_nat (gs : list GridNode) (i : nat) (g g' : GridNode) :
  nth_error gs i = Some g ->
  grid_mass (store_nat gs i g') = grid_mass gs - mass (g_node g) + mass (g_node g').
Proof.
  revert i. induction gs as [| x gs IH]; intros [| i] H; simpl in *; try discriminate.
  - injection H as ->. lra.
  - rewrite (IH i H). lra.
Qed.

Lemma grid_mass_store (gs : list GridNode) (i : Z) (g g' : GridNode) :
  at_index gs i = Some g ->
  grid_mass (store gs i g') = grid_mass gs - mass (g_node g) + mass (g_node g').
Proof.
  unfold at_index, store. destruct (i <? 0)%Z; [discriminate |].
  apply grid_mass_store_nat.
Qed.

Section Scatter.

Variable idx : SnowSolver -> coord -> Z.
Variable s : SnowSolver.

(** One guarded write: either the coordinate is not valid and the array
    is left alone, or the node under its index is replaced. *)
Lemma modify_at_cases (upd : GridNode -> GridNode) (c : coord) (gs : list GridNode) :
  index_in_range idx s gs ->
  (isValidGridNode s c = false /\ modify_at idx s upd c gs = Some gs) \/
  (isValidGridNode s c = true /\
   exists g, at_index gs (idx s c) = Some g /\
             modify_at idx s upd c gs = Some (store gs (idx s c) (upd g))).
Proof.
  intros Hr. unfold modify_at, guarded.
  destruct (isValidGridNode s c) eqn:Hv; [right | left; auto].
  split; [reflexivity |].
  destruct (gridNode_valid idx s gs c Hr Hv) as [g Hg].
  exists g. unfold gridNode in *. rewrite Hg. auto.
Qed.

Lemma index_in_range_length (gs gs' : list GridNode) :
  length gs' = length gs -> index_in_range idx s gs -> index_in_range idx s gs'.
Proof. intros Hl Hr c Hv. rewrite Hl. apply Hr, Hv. Qed.

Lemma nodes_on_lattice_store (gs : list GridNode) (c : coord) (g g' : GridNode) :
  nodes_on_lattice idx s gs ->
  at_index gs (idx s c) = Some g ->
  position (g_node g') = position (g_node g) ->
  nodes_on_lattice idx s (store gs (idx s c) g').
Proof.
  intros Hn Hg Hp c' Hv'.
  destruct (Hn c' Hv') as (g0 & Hg0 & Hp0).
  destruct (Z.eq_dec (idx s c) (idx s c')) as [E | E].
  - exists g'. rewrite <- E. split; [eapply at_index_store_eq; eassumption |].
    rewrite Hp. rewrite <- E in Hg0. congruence.
  - exists g0. rewrite at_index_store_neq by assumption. auto.
Qed.

End Scatter.

(** ** The interpolation kernel *)

Lemma bspline_partition (x : R) :
  let k := Zfloor x in
  bspline (x - IZR (k - 1)) + bspline (x - IZR k)
  + bspline (x - IZR (k + 1)) + bspline (x - IZR (k + 2)) = 1.
Proof.
  intros k. pose proof (Zfloor_bound x) as Hb. fold k in Hb.
  rewrite minus_IZR, !plus_IZR. simpl IZR.
  set (f := x - IZR k).
  replace (x - (IZR k - 1)) with (f + 1) by (unfold f; ring).
  replace (x - (IZR k + 1)) with (f - 1) by (unfold f; ring).
  replace (x - (IZR k + 2)) with (f - 2) by (unfold f; ring).
  assert (Hf : 0 <= f < 1) by (unfold f; lra).
  clearbody f. clear Hb.
  unfold bspline, Rabs.
  repeat match goal with
         | |- context [Rcase_abs ?a] => destruct (Rcase_abs a)
         | |- context [Rlt_dec ?a ?b] => destruct (Rlt_dec a b)
         end; try lra; try (exfalso; lra); nra.
Qed.

Lemma Rsum_cons (a : R) (l : list R) : Rsum (a :: l) = a + Rsum l.
Proof. reflexivity. Qed.

Lemma Rsum_app (l l' : list R) : Rsum (l ++ l') = Rsum l + Rsum l'.
Proof. induction l; simpl; [ring | unfold Rsum in *; simpl; lra]. Qed.

Lemma Rsum_map_scale {A : Type} (k : R) (f : A -> R) (l : list A) :
  Rsum (map (fun a => k * f a) l) = k * Rsum (map f l).
Proof. induction l; unfold Rsum in *; simpl; [ring | rewrite IHl; ring]. Qed.

Lemma Rsum_map_ext_in {A : Type} (f g : A -> R) (l : list A) :
  (forall a, In a l -> f a = g a) -> Rsum (map f l) = Rsum (map g l).
Proof. intros H. f_equal. apply map_ext_in, H. Qed.

Lemma Rsum_flat_map {A B : Type} (f : B -> R) (g : A -> list B) (l : list A) :
  Rsum (map f (flat_map g l)) = Rsum (map (fun a => Rsum (map f (g a))) l).
Proof.
  induction l; simpl; [reflexivity |].
  rewrite map_app, Rsum_app, IHl. reflexivity.
Qed.

(** A sum of products over the box is the product of the sums over
    its three sides. *)
Lemma Rsum_box (f g k : Z -> R) (lo hi : coord) :
  Rsum (map (fun c => f (cx c) * g (cy c) * k (cz c)) (box lo hi)) =
  Rsum (map f (zrange (cx lo) (cx hi))) * Rsum (map g (zrange (cy lo) (cy hi)))
  * Rsum (map k (zrange (cz lo) (cz hi))).
Proof.
  unfold box. rewrite Rsum_flat_map.
  rewrite (Rsum_map_ext_in _
    (fun x => (Rsum (map g (zrange (cy lo) (cy hi)))
               * Rsum (map k (zrange (cz lo) (cz hi)))) * f x)).
  - rewrite Rsum_map_scale. ring.
  - intros x _. rewrite Rsum_flat_map.
    rewrite (Rsum_map_ext_in _
      (fun y => (f x * Rsum (map k (zrange (cz lo) (cz hi)))) * g y)).
    + rewrite Rsum_map_scale. ring.
    + intros y _. rewrite map_map. unfold cx, cy, cz; simpl.
      rewrite Rsum_map_scale. ring.
Qed.

Lemma in_zrange (lo hi i : Z) : In i (zrange lo hi) <-> (lo <= i <= hi)%Z.
Proof.
  unfold zrange. rewrite in_map_iff. split.
  - intros (j & <- & Hj). apply in_seq in Hj. lia.
  - intros H. exists (Z.to_nat (i - lo)). split; [lia |].
    apply in_seq. lia.
Qed.

Lemma in_box (lo hi c : coord) :
  In c (box lo hi) <->
  (cx lo <= cx c <= cx hi /\ cy lo <= cy c <= cy hi /\ cz lo <= cz c <= cz hi)%Z.
Proof.
  unfold box. rewrite in_flat_map. split.
  - intros (x & Hx & H). apply in_flat_map in H. destruct H as (y & Hy & H).
    apply in_map_iff in H. destruct H as (z & <- & Hz).
    apply in_zrange in Hx, Hy, Hz. unfold cx, cy, cz in *; simpl. lia.
  - intros (Hx & Hy & Hz). destruct c as [[x y] z]. unfold cx, cy, cz in *; simpl in *.
    exists x. split; [apply in_zrange; assumption |].
    apply in_flat_map. exists y. split; [apply in_zrange; assumption |].
    apply in_map_iff. exists z. split; [reflexivity | apply in_zrange; assumption].
Qed.

Lemma zrange_four (k : Z) :
  zrange (k - 1) (k + 2) = [(k - 1)%Z; k; (k + 1)%Z; (k + 2)%Z].
Proof.
  unfold zrange. replace (k + 2 - (k - 1) + 1)%Z with 4%Z by lia.
  simpl. repeat (f_equal; try lia).
Qed.

(** Away from the lower border the truncations of the window bounds are
    floors. *)
Lemma trunc_window (x : R) :
  (1 <= Zfloor x)%Z ->
  trunc (x - 1) = (Zfloor x - 1)%Z /\ trunc (x + 2) = (Zfloor x + 2)%Z.
Proof.
  intros Hk. pose proof (Zfloor_bound x) as Hb.
  assert (H1 : 1 <= x) by (apply IZR_le in Hk; lra).
  unfold trunc.
  destruct (Rle_dec 0 (x - 1)); [| lra].
  destruct (Rle_dec 0 (x + 2)); [| lra].
  split.
  - replace (x - 1) with (x + IZR (-1)) by (simpl; ring). apply Zfloor_addz.
  - apply (Zfloor_addz 2 x).
Qed.

(** The weights of the nodes of a window that lies inside the grid
    add up to one. *)
Lemma window_weights_sum (s : SnowSolver) (p : ParticleNode) :
  h s <> 0 -> window_inside s p ->
  Rsum (map (fun c =>
               bspline3 (vdiv (vsub (position (p_node p)) (lattice_point s c)) (h s)))
            (window s p)) = 1.
Proof.
  intros Hh (Hx1 & Hx2 & Hy1 & Hy2 & Hz1 & Hz2).
  unfold window, gmin, gmax, ivec3.
  destruct (position (p_node p)) as [px py pz] eqn:Ep.
  simpl in *.
  destruct (trunc_window (px / h s) Hx1) as [-> ->].
  destruct (trunc_window (py / h s) Hy1) as [-> ->].
  destruct (trunc_window (pz / h s) Hz1) as [-> ->].
  rewrite (Rsum_map_ext_in _
    (fun c => bspline (px / h s - IZR (cx c)) * bspline (py / h s - IZR (cy c))
              * bspline (pz / h s - IZR (cz c)))).
  - rewrite (Rsum_box (fun i => bspline (px / h s - IZR i))
                      (fun i => bspline (py / h s - IZR i))
                      (fun i => bspline (pz / h s - IZR i))).
    unfold cx, cy, cz; simpl.
    rewrite !zrange_four. unfold Rsum; simpl.
    pose proof (bspline_partition (px / h s)) as Bx.
    pose proof (bspline_partition (py / h s)) as By.
    pose proof (bspline_partition (pz / h s)) as Bz.
    simpl in Bx, By, Bz.
    rewrite !Rplus_0_r, <- !Rplus_assoc, Bx, By, Bz. ring.
  - intros c _. unfold bspline3, lattice_point, vdiv, vsub; simpl.
    f_equal; [f_equal |]; f_equal; field; assumption.
Qed.

Lemma window_inside_valid (s : SnowSolver) (p : ParticleNode) (c : coord) :
  window_inside s p -> In c (window s p) -> isValidGridNode s c = true.
Proof.
  intros (Hx1 & Hx2 & Hy1 & Hy2 & Hz1 & Hz2) Hin.
  unfold window, gmin, gmax, ivec3 in Hin. simpl in *.
  destruct (trunc_window _ Hx1) as [Ex1 Ex2].
  destruct (trunc_window _ Hy1) as [Ey1 Ey2].
  destruct (trunc_window _ Hz1) as [Ez1 Ez2].
  rewrite Ex1, Ex2, Ey1, Ey2, Ez1, Ez2 in Hin.
  apply in_box in Hin. unfold cx, cy, cz in Hin; simpl in Hin.
  unfold isValidGridNode.
  rewrite !andb_true_iff, !Z.leb_le, !Z.ltb_lt. unfold cx, cy, cz in *. lia.
Qed.

(** ** Step 1: conservation of mass *)

Lemma at_index_map {A B : Type} (f : A -> B) (l : list A) (i : Z) :
  at_index (map f l) i = option_map f (at_index l i).
Proof.
  unfold at_index. destruct (i <? 0)%Z; [reflexivity |]. apply nth_error_map.
Qed.

Lemma nodes_on_lattice_map (idx : SnowSolver -> coord -> Z) (s : SnowSolver)
    (f : GridNode -> GridNode) (gs : list GridNode) :
  (forall g, position (g_node (f g)) = position (g_node g)) ->
  nodes_on_lattice idx s gs -> nodes_on_lattice idx s (map f gs).
Proof.
  intros Hf Hn c Hv. destruct (Hn c Hv) as (g & Hg & Hp).
  exists (f g). rewrite at_index_map, Hg. split; [reflexivity |].
  rewrite Hf. assumption.
Qed.

Lemma grid_mass_map (f : GridNode -> GridNode) (gs : list GridNode) :
  (forall g, mass (g_node (f g)) = mass (g_node g)) ->
  grid_mass (map f gs) = grid_mass gs.
Proof.
  intros Hf. induction gs; simpl; [reflexivity |]. rewrite Hf, IHgs. reflexivity.
Qed.

Lemma grid_mass_clear (n : nat) (gs : list GridNode) :
  grid_mass (step1_clear n gs) = 0.
Proof.
  unfold step1_clear. induction gs; simpl; [reflexivity |].
  rewrite IHgs.
  destruct (set_velocity_fields (set_mass (g_node a) 0) n vzero) as (_ & _ & ->).
  simpl. ring.
Qed.

Lemma rasterize_node_fields (s : SnowSolver) (n : nat) (p : ParticleNode)
    (g : GridNode) :
  position (g_node (rasterize_node s n p g)) = position (g_node g) /\
  mass (g_node (rasterize_node s n p g)) =
  mass (g_node g) + mass (p_node p) * weight s g p.
Proof.
  unfold rasterize_node. simpl.
  match goal with
  | |- context [set_velocity ?nd ?k ?v] =>
      destruct (set_velocity_fields nd k v) as (-> & _ & ->)
  end.
  simpl. auto.
Qed.

Section MassConservation.

Variable idx : SnowSolver -> coord -> Z.
Variable s : SnowSolver.
Variable n : nat.

Lemma rasterize_window_mass (p : ParticleNode) (l : list coord) :
  forall gs, index_in_range idx s gs -> nodes_on_lattice idx s gs ->
  exists gs', foldM (rasterize_at idx s n p) l gs = Some gs' /\
    length gs' = length gs /\ nodes_on_lattice idx s gs' /\
    grid_mass gs' = grid_mass gs + mass (p_node p) * Rsum (map (node_share s p) l).
Proof.
  induction l as [| c l IH]; intros gs Hr Hn; simpl.
  - exists gs. repeat split; auto. unfold Rsum; simpl. ring.
  - unfold rasterize_at at 1.
    destruct (modify_at_cases idx s (rasterize_node s n p) c gs Hr)
      as [[Hv ->] | [Hv (g & Hg & ->)]]; simpl.
    + destruct (IH gs Hr Hn) as (gs' & -> & Hl & Hn' & Hm).
      exists gs'. repeat split; auto.
      rewrite Hm. unfold node_share at 2. rewrite Hv. unfold Rsum; simpl. ring.
    + destruct (rasterize_node_fields s n p g) as [Hp Hmass].
      assert (Hn1 : nodes_on_lattice idx s (store gs (idx s c) (rasterize_node s n p g)))
        by (eapply nodes_on_lattice_store; eassumption).
      assert (Hr1 : index_in_range idx s (store gs (idx s c) (rasterize_node s n p g)))
        by (eapply index_in_range_length; [apply store_length | assumption]).
      destruct (IH _ Hr1 Hn1) as (gs' & -> & Hl & Hn' & Hm).
      exists gs'. split; [reflexivity |].
      split; [rewrite Hl; apply store_length |].
      split; [assumption |].
      rewrite Hm, (grid_mass_store gs _ g) by assumption.
      rewrite Hmass. unfold node_share at 2. rewrite Hv.
      destruct (Hn c Hv) as (g0 & Hg0 & Hp0).
      assert (g0 = g) by congruence. subst g0.
      unfold weight, kernel_arg. rewrite Hp0.
      unfold Rsum; simpl. ring.
Qed.

Lemma rasterize_particles_mass (ps : list ParticleNode) :
  forall gs, index_in_range idx s gs -> nodes_on_lattice idx s gs ->
  exists gs', step1_rasterize idx s n ps gs = Some gs' /\
    length gs' = length gs /\ nodes_on_lattice idx s gs' /\
    grid_mass gs' =
    grid_mass gs
    + Rsum (map (fun p => mass (p_node p) * Rsum (map (node_share s p) (window s p))) ps).
Proof.
  unfold step1_rasterize.
  induction ps as [| p ps IH]; intros gs Hr Hn; simpl.
  - exists gs. repeat split; auto. unfold Rsum; simpl. ring.
  - destruct (rasterize_window_mass p (window s p) gs Hr Hn)
      as (gs1 & -> & Hl1 & Hn1 & Hm1). simpl.
    assert (Hr1 : index_in_range idx s gs1)
      by (eapply index_in_range_length; eassumption).
    destruct (IH gs1 Hr1 Hn1) as (gs' & -> & Hl & Hn' & Hm).
    exists gs'. split; [reflexivity |].
    split; [congruence |]. split; [assumption |].
    rewrite Hm, Hm1. unfold Rsum; simpl. ring.
Qed.

Lemma node_share_sum_inside (p : ParticleNode) :
  h s <> 0 -> window_inside s p -> Rsum (map (node_share s p) (window s p)) = 1.
Proof.
  intros Hh Hw. rewrite <- (window_weights_sum s p Hh Hw).
  apply Rsum_map_ext_in. intros c Hc. unfold node_share.
  rewrite (window_inside_valid s p c Hw Hc). reflexivity.
Qed.

(** C9.  When every particle's window lies inside the grid, the masses
    of the grid nodes after the rasterization of step 1 add up to the
    sum of the particle masses, and the normalisation that ends the step
    keeps it so.  The node array is taken to hold, under the index of
    every valid coordinate, the node of that lattice point, and the
    spacing to be non-zero. *)
Theorem grid_mass_conservation (ps : list ParticleNode) (gs : list GridNode) :
  h s <> 0 ->
  index_in_range idx s gs ->
  nodes_on_lattice idx s gs ->
  Forall (window_inside s) ps ->
  exists acc,
    step1_rasterize idx s n ps (step1_clear n gs) = Some acc /\
    grid_mass acc = particle_mass ps /\
    step1 idx s n ps gs = Some (step1_normalize n acc) /\
    grid_mass (step1_normalize n acc) = particle_mass ps.
Proof.
  intros Hh Hr Hn Hw.
  assert (Hrc : index_in_range idx s (step1_clear n gs)).
  { eapply index_in_range_length; [| exact Hr]. unfold step1_clear. apply length_map. }
  assert (Hnc : nodes_on_lattice idx s (step1_clear n gs)).
  { unfold step1_clear. apply nodes_on_lattice_map; [| assumption].
    intros g. simpl.
    destruct (set_velocity_fields (set_mass (g_node g) 0) n vzero) as (-> & _).
    reflexivity. }
  destruct (rasterize_particles_mass ps _ Hrc Hnc) as (acc & Hacc & _ & _ & Hm).
  assert (Hsum : grid_mass acc = particle_mass ps).
  { rewrite Hm, grid_mass_clear, Rplus_0_l. clear Hacc Hm.
    induction Hw as [| p ps Hp Hps IH]; [reflexivity |].
    simpl map. rewrite Rsum_cons, IH, (node_share_sum_inside p Hh Hp).
    simpl. ring. }
  exists acc. split; [assumption |]. split; [assumption |].
  split.
  - unfold step1. rewrite Hacc. reflexivity.
  - rewrite <- Hsum. unfold step1_normalize. apply grid_mass_map.
    intros g. unfold normalize_node.
    destruct (_ && _); simpl; apply set_velocity_fields.
Qed.

End MassConservation.

(** ** Step 3: the force of a node *)

Lemma coord_eqb_eq (c c' : coord) : coord_eqb c c' = true <-> c = c'.
Proof.
  destruct c as [[x y] z], c' as [[x' y'] z']. unfold coord_eqb, cx, cy, cz; simpl.
  rewrite !andb_true_iff, !Z.eqb_eq. split.
  - intros [[-> ->] ->]. reflexivity.
  - intros E. injection E as -> -> ->. auto.
Qed.

Lemma existsb_coord_in (c : coord) (l : list coord) :
  existsb (coord_eqb c) l = true <-> In c l.
Proof.
  rewrite existsb_exists. split.
  - intros (c' & Hin & E). apply coord_eqb_eq in E. subst. assumption.
  - intros Hin. exists c. split; [assumption | apply coord_eqb_eq; reflexivity].
Qed.

Lemma NoDup_flat_map {A B : Type} (f : A -> list B) (l : list A) :
  NoDup l -> (forall a, In a l -> NoDup (f a)) ->
  (forall a a' b, In a l -> In a' l -> In b (f a) -> In b (f a') -> a = a') ->
  NoDup (flat_map f l).
Proof.
  induction 1 as [| a l Hna Hnd IH]; intros Hf Hd; simpl; [constructor |].
  apply NoDup_app.
  - apply Hf. left; reflexivity.
  - apply IH.
    + intros a' Ha'. apply Hf. right; assumption.
    + intros a1 a2 b H1 H2. apply Hd; right; assumption.
  - intros b Hb Hb'. apply in_flat_map in Hb'. destruct Hb' as (a' & Ha' & Hb').
    assert (a = a') by (apply (Hd a a' b); auto; [left; reflexivity | right; assumption]).
    subst a'. contradiction.
Qed.

Lemma NoDup_zrange (lo hi : Z) : NoDup (zrange lo hi).
Proof.
  unfold zrange. apply NoDup_map_NoDup_ForallPairs; [| apply seq_NoDup].
  intros i j _ _ E. lia.
Qed.

Lemma NoDup_box (lo hi : coord) : NoDup (box lo hi).
Proof.
  unfold box. apply NoDup_flat_map.
  - apply NoDup_zrange.
  - intros x _. apply NoDup_flat_map.
    + apply NoDup_zrange.
    + intros y _. apply NoDup_map_NoDup_ForallPairs; [| apply NoDup_zrange].
      intros z z' _ _ E. congruence.
    + intros y y' c _ _ H H'.
      apply in_map_iff in H, H'. destruct H as (z & <- & _), H' as (z' & E & _).
      congruence.
  - intros x x' c _ _ H H'.
    apply in_flat_map in H, H'.
    destruct H as (y & _ & H), H' as (y' & _ & H').
    apply in_map_iff in H, H'. destruct H as (z & <- & _), H' as (z' & E & _).
    congruence.
Qed.

Lemma unweightedForce_stress (svd : dmat3 -> dmat3 * dvec3 * dmat3)
    (s : SnowSolver) (p : ParticleNode) (w : dvec3) :
  mvmul (unweightedForce svd s p) w =
  vscale (- volume0 p) (mvmul (stress_spec svd s p) w).
Proof.
  unfold unweightedForce, stress_spec.
  generalize (polarRot svd (deformElastic p)) as r.
  generalize (exp (hardeningCoefficient s * (1 - determinant (deformPlastic p)))) as e.
  generalize (determinant (deformElastic p)) as je.
  generalize (deformElastic p) as fe. generalize (volume0 p) as vol.
  generalize (mu0 s) as m0. generalize (lambda0 s) as l0.
  clear. vec_ring.
Qed.

Lemma fold_left_ext {A B : Type} (f g : A -> B -> A) (l : list B) (a : A) :
  (forall x y, f x y = g x y) -> fold_left f l a = fold_left g l a.
Proof.
  intros H. revert a. induction l as [| b l IH]; intros a; simpl; [reflexivity |].
  rewrite H. apply IH.
Qed.

Section Forces.

Variable svd : dmat3 -> dmat3 * dvec3 * dmat3.
Variable idx : SnowSolver -> coord -> Z.
Variable s : SnowSolver.
Hypothesis idx_inj : index_injective idx s.

(** A loop of guarded writes over coordinates without repetition
    updates once the nodes of the valid coordinates it visits, and no
    other node of a valid coordinate. *)
Lemma modify_window (upd : GridNode -> GridNode) (l : list coord) :
  NoDup l ->
  forall gs, index_in_range idx s gs ->
  exists gs', foldM (modify_at idx s upd) l gs = Some gs' /\
    length gs' = length gs /\
    forall c, isValidGridNode s c = true ->
      at_index gs' (idx s c) =
      if existsb (coord_eqb c) l
      then option_map upd (at_index gs (idx s c))
      else at_index gs (idx s c).
Proof.
  induction 1 as [| c1 l Hnin Hnd IH]; intros gs Hr; simpl.
  - exists gs. auto.
  - destruct (modify_at_cases idx s upd c1 gs Hr)
      as [[Hv ->] | [Hv (g1 & Hg1 & ->)]]; simpl.
    + destruct (IH gs Hr) as (gs' & -> & Hl & Hat).
      exists gs'. repeat split; auto.
      intros c Hc. rewrite (Hat c Hc).
      destruct (coord_eqb c c1) eqn:E; [| reflexivity].
      apply coord_eqb_eq in E. congruence.
    + assert (Hr1 : index_in_range idx s (store gs (idx s c1) (upd g1)))
        by (eapply index_in_range_length; [apply store_length | assumption]).
      destruct (IH _ Hr1) as (gs' & -> & Hl & Hat).
      exists gs'. split; [reflexivity |].
      split; [rewrite Hl; apply store_length |].
      intros c Hc. rewrite (Hat c Hc).
      destruct (coord_eqb c c1) eqn:E; simpl.
      * apply coord_eqb_eq in E. subst c1.
        destruct (existsb (coord_eqb c) l) eqn:Ex.
        { apply existsb_coord_in in Ex. contradiction. }
        rewrite (at_index_store_eq gs _ g1) by assumption.
        rewrite Hg1. reflexivity.
      * assert (Hne : idx s c1 <> idx s c).
        { intros Ei. apply idx_inj in Ei; try assumption. subst c1.
          assert (coord_eqb c c = true) by (apply coord_eqb_eq; reflexivity).
          congruence. }
        rewrite at_index_store_neq by assumption. reflexivity.
Qed.

Lemma window_NoDup (p : ParticleNode) : NoDup (window s p).
Proof. apply NoDup_box. Qed.

Lemma step3_forces_node (ps : list ParticleNode) :
  forall gs, index_in_range idx s gs ->
  exists gs', step3_forces svd idx s ps gs = Some gs' /\
    length gs' = length gs /\
    forall c g0, isValidGridNode s c = true ->
      at_index gs (idx s c) = Some g0 ->
      exists g', at_index gs' (idx s c) = Some g' /\
        g_node g' = g_node g0 /\ density0 g' = density0 g0 /\
        location g' = location g0 /\
        force g' =
        fold_left
          (fun f p =>
             if in_window s p c
             then vadd f (mvmul (unweightedForce svd s p) (nabla_weight s g0 p))
             else f)
          ps (force g0).
Proof.
  unfold step3_forces.
  induction ps as [| p ps IH]; intros gs Hr; simpl.
  - exists gs. repeat split; auto. intros c g0 _ Hg. exists g0. auto.
  - unfold force_at at 1.
    match goal with
    | |- context [foldM (modify_at idx s ?u) _ _] =>
        destruct (modify_window u (window s p) (window_NoDup p) gs Hr)
          as (gs1 & -> & Hl1 & Hat1)
    end. simpl.
    assert (Hr1 : index_in_range idx s gs1)
      by (eapply index_in_range_length; eassumption).
    destruct (IH gs1 Hr1) as (gs' & -> & Hl & Hat).
    exists gs'. split; [reflexivity |]. split; [congruence |].
    intros c g0 Hc Hg0.
    specialize (Hat1 c Hc). rewrite Hg0 in Hat1. fold (in_window s p c) in Hat1.
    destruct (in_window s p c); simpl in Hat1.
    + destruct (Hat c _ Hc Hat1) as (g' & Hg' & Hn & Hd & Hloc & Hf).
      exists g'. simpl in *. repeat split; assumption.
    + destruct (Hat c _ Hc Hat1) as (g' & Hg' & Hn & Hd & Hloc & Hf).
      exists g'. repeat split; assumption.
Qed.

(** Step 3 over the window the loops visit: gravity first, and then
    every particle adds - volume0 * P * nabla w to the force of every
    valid node its loops visit. *)
Lemma step3_force_of_window (ps : list ParticleNode) (gs : list GridNode) :
  index_in_range idx s gs ->
  Forall2 (fun g g1 =>
             force g1 = mkVec 0 0 (-9.8 * mass (g_node g)) /\ g_node g1 = g_node g)
          gs (step3_gravity gs) /\
  exists gs',
    step3_forces svd idx s ps (step3_gravity gs) = Some gs' /\
    step3 svd idx s ps gs = Some gs' /\
    length gs' = length gs /\
    forall c g0, isValidGridNode s c = true ->
      at_index gs (idx s c) = Some g0 ->
      exists g', at_index gs' (idx s c) = Some g' /\
        force g' =
          fold_left
            (fun f p =>
               if in_window s p c
               then vadd f (vscale (- volume0 p)
                              (mvmul (stress_spec svd s p) (nabla_weight s g0 p)))
               else f)
            ps (mkVec 0 0 (-9.8 * mass (g_node g0))) /\
        g_node g' = g_node g0 /\ density0 g' = density0 g0 /\
        location g' = location g0.
Proof.
  intros Hr. split.
  { unfold step3_gravity. apply Forall2_map_self. intros g. simpl. auto. }
  unfold step3.
  assert (Hrg : index_in_range idx s (step3_gravity gs)).
  { eapply index_in_range_length; [| exact Hr]. unfold step3_gravity. apply length_map. }
  destruct (step3_forces_node ps _ Hrg) as (gs' & -> & Hl & Hat).
  exists gs'. split; [reflexivity |]. split; [reflexivity |].
  split; [rewrite Hl; unfold step3_gravity; apply length_map |].
  intros c g0 Hc Hg0.
  assert (Hg1 : at_index (step3_gravity gs) (idx s c)
                = Some (g_with_force g0 (mkVec 0 0 (-9.8 * mass (g_node g0))))).
  { unfold step3_gravity. rewrite at_index_map, Hg0. reflexivity. }
  destruct (Hat c _ Hc Hg1) as (g' & Hg' & Hn & Hd & Hloc & Hf).
  exists g'. simpl in *. repeat split; try assumption.
  rewrite Hf. apply fold_left_ext. intros f p.
  destruct (in_window s p c); [| reflexivity].
  rewrite unweightedForce_stress. reflexivity.
Qed.

End Forces.

(** ** Step 2: the density gather *)

Section Gather.

Variable idx : SnowSolver -> coord -> Z.
Variable s : SnowSolver.

Lemma modify_loop_total (upd : GridNode -> GridNode) (l : list coord) :
  forall gs, index_in_range idx s gs ->
  exists gs', foldM (modify_at idx s upd) l gs = Some gs' /\ length gs' = length gs.
Proof.
  induction l as [| c l IH]; intros gs Hr; simpl; [eauto |].
  destruct (modify_at_cases idx s upd c gs Hr) as [[_ ->] | [_ (g & _ & ->)]]; simpl.
  - apply IH, Hr.
  - destruct (IH (store gs (idx s c) (upd g))) as (gs' & -> & Hl).
    + eapply index_in_range_length; [apply store_length | assumption].
    + exists gs'. split; [reflexivity |]. rewrite Hl. apply store_length.
Qed.

Lemma step1_total (n : nat) (ps : list ParticleNode) (gs : list GridNode) :
  index_in_range idx s gs ->
  exists gs', step1 idx s n ps gs = Some gs' /\ length gs' = length gs.
Proof.
  intros Hr. unfold step1, step1_rasterize.
  assert (H : forall gs0, index_in_range idx s gs0 ->
            exists gs', foldM (fun p gs1 => foldM (rasterize_at idx s n p) (window s p) gs1)
                              ps gs0 = Some gs' /\ length gs' = length gs0).
  { induction ps as [| p ps IH]; intros gs0 Hr0; simpl; [eauto |].
    destruct (modify_loop_total (rasterize_node s n p) (window s p) gs0 Hr0)
      as (gs1 & H1 & Hl1).
    unfold rasterize_at at 1. rewrite H1. simpl.
    destruct (IH gs1) as (gs' & -> & Hl).
    - eapply index_in_range_length; eassumption.
    - exists gs'. split; [reflexivity | congruence]. }
  destruct (H (step1_clear n gs)) as (gs' & -> & Hl).
  - eapply index_in_range_length; [| exact Hr]. unfold step1_clear. apply length_map.
  - simpl. eexists; split; [reflexivity |].
    unfold step1_normalize. rewrite length_map, Hl.
    unfold step1_clear. apply length_map.
Qed.

(** The gather fails as soon as one coordinate of the window has its
    index outside the node array. *)
Lemma density_gather_fails (gs : list GridNode) (p : ParticleNode) (l : list coord)
    (c : coord) :
  In c l -> gridNode idx s gs c = None ->
  forall a, foldM (density_at idx s gs p) l a = None.
Proof.
  intros Hin Hc. induction l as [| c' l IH]; intros a; [contradiction |].
  simpl. destruct Hin as [-> | Hin].
  - unfold density_at at 1. rewrite Hc. reflexivity.
  - unfold density_at at 1. destruct (gridNode idx s gs c'); simpl; [| reflexivity].
    apply IH, Hin.
Qed.

End Gather.

Lemma trunc_nonneg (x : R) (k : Z) :
  0 <= x -> IZR k <= x < IZR k + 1 -> trunc x = k.
Proof.
  intros H0 Hk. unfold trunc. destruct (Rle_dec 0 x); [| contradiction].
  apply Zfloor_eq, Hk.
Qed.

Lemma trunc_neg (x : R) (k : Z) :
  x < 0 -> IZR k - 1 < x <= IZR k -> trunc x = k.
Proof.
  intros H0 Hk. unfold trunc. destruct (Rle_dec 0 x); [lra |].
  apply Zceil_eq, Hk.
Qed.

Lemma half_cell_window (s : SnowSolver) (p : ParticleNode) :
  h s = 1 -> position (p_node p) = mkVec 0.5 0.5 0.5 ->
  window s p = box (0, 0, 0)%Z (2, 2, 2)%Z.
Proof.
  intros Hh Hp. unfold window, gmin, gmax, ivec3. rewrite Hh, Hp. simpl.
  rewrite (trunc_neg (0.5 / 1 - 1) 0) by (simpl; lra).
  rewrite (trunc_nonneg (0.5 / 1 + 2) 2) by (simpl; lra).
  reflexivity.
Qed.

Lemma spec_index_in_range (s : SnowSolver) (gs : list GridNode) :
  length gs = (fst (fst (size s)) * snd (fst (size s)) * snd (size s))%nat ->
  index_in_range spec_index s gs.
Proof.
  intros Hl c Hv. rewrite Hl.
  apply valid_coord_bounds in Hv.
  unfold spec_index, size_x, size_y, size_z in *.
  destruct (size s) as [[nx ny] nz]; simpl in *.
  rewrite !Nat2Z.inj_mul. split; [nia |].
  assert (cx c + Z.of_nat nx * (cy c + Z.of_nat ny * cz c)
          <= Z.of_nat nx - 1
             + Z.of_nat nx * (Z.of_nat ny - 1 + Z.of_nat ny * (Z.of_nat nz - 1)))%Z.
  { apply Z.add_le_mono; [lia |]. apply Z.mul_le_mono_nonneg_l; [lia |].
    apply Z.add_le_mono; [lia |]. apply Z.mul_le_mono_nonneg_l; lia. }
  nia.
Qed.

(** The first tick fails in step 2 when the window of a particle holds
    a coordinate whose index is outside the node array. *)
Lemma update_gather_fails (svd : dmat3 -> dmat3 * dvec3 * dmat3)
    (idx : SnowSolver -> coord -> Z) (s : SnowSolver) (delta_t : R)
    (p : ParticleNode) (c : coord) :
  index_in_range idx s (gridNodes s) ->
  particleNodes s = [p] ->
  In c (window s p) ->
  ~ (0 <= idx s c < Z.of_nat (length (gridNodes s)))%Z ->
  update svd idx s delta_t 0 = None.
Proof.
  intros Hr Hps Hin Hout. unfold update.
  destruct (step1_total idx s 0 (particleNodes s) (gridNodes s) Hr)
    as (gs1 & -> & Hl1).
  cbn [bind].
  assert (H2 : step2 idx s 0 gs1 (particleNodes s) = None).
  { unfold step2. simpl Nat.eqb. cbv iota. rewrite Hps. simpl mapM.
    unfold step2_volume at 1, particle_density0.
    rewrite (density_gather_fails idx s _ _ _ c Hin); [reflexivity |].
    unfold gridNode, at_index, step2_density.
    destruct (idx s c <? 0)%Z eqn:E; [reflexivity |].
    apply Z.ltb_ge in E.
    apply nth_error_None. rewrite length_map, Hl1. lia. }
  rewrite H2. reflexivity.
Qed.

(** C2, on the code.  In the first tick of a solver with 2 x 2 x 2 nodes
    and one particle in the middle of the first cell, the density gather
    of step 2 takes the node reference at the coordinate (2, 2, 2),
    which is not a valid grid node, and reads outside the node array:
    with the index under which the constructor stores the nodes, and
    with the index of the specification as well. *)
Theorem density_gather_out_of_bounds :
  In (2, 2, 2)%Z (window corner_solver (sample_particle (mkVec 0.5 0.5 0.5))) /\
  isValidGridNode corner_solver (2, 2, 2)%Z = false /\
  gridNode storage_index corner_solver (gridNodes corner_solver) (2, 2, 2)%Z = None /\
  gridNode spec_index corner_solver (gridNodes corner_solver) (2, 2, 2)%Z = None /\
  forall svd,
    update svd storage_index corner_solver 1e-5 0 = None /\
    update svd spec_index corner_solver 1e-5 0 = None.
Proof.
  assert (Hin : In (2, 2, 2)%Z
                   (window corner_solver (sample_particle (mkVec 0.5 0.5 0.5)))).
  { rewrite (half_cell_window corner_solver (sample_particle (mkVec 0.5 0.5 0.5))
               eq_refl eq_refl).
    apply in_box. unfold cx, cy, cz; simpl. lia. }
  split; [exact Hin |]. do 3 (split; [reflexivity |]).
  assert (Hlen : length (gridNodes corner_solver) = 8%nat) by reflexivity.
  intros svd. split.
  - apply (update_gather_fails svd storage_index corner_solver 1e-5
             (sample_particle (mkVec 0.5 0.5 0.5)) (2, 2, 2)%Z);
      [apply storage_index_in_range; reflexivity | reflexivity | exact Hin |].
    rewrite Hlen. change (storage_index corner_solver (2, 2, 2)%Z) with 14%Z. lia.
  - apply (update_gather_fails svd spec_index corner_solver 1e-5
             (sample_particle (mkVec 0.5 0.5 0.5)) (2, 2, 2)%Z);
      [apply spec_index_in_range; reflexivity | reflexivity | exact Hin |].
    rewrite Hlen. change (spec_index corner_solver (2, 2, 2)%Z) with 14%Z. lia.
Qed.

(** ** The implicit operator *)

Lemma foldM_guarded_filter {A : Type} (idx : SnowSolver -> coord -> Z) (s : SnowSolver)
    (gs : list GridNode) (body : coord -> GridNode -> A -> option A) (l : list coord) :
  forall a, foldM (guarded idx s gs body) l a =
            foldM (fun c a => g <- gridNode idx s gs c ;; body c g a)
                  (filter (isValidGridNode s) l) a.
Proof.
  induction l as [| c l IH]; intros a; simpl; [reflexivity |].
  unfold guarded at 1. destruct (isValidGridNode s c); simpl.
  - destruct (gridNode idx s gs c); simpl; [| reflexivity].
    destruct (body c g a); simpl; [apply IH | reflexivity].
  - apply IH.
Qed.

Lemma bspline_half : bspline (1 / 2) = 23 / 48.
Proof.
  unfold bspline. rewrite Rabs_right by lra.
  destruct (Rlt_dec (1 / 2) 1); lra.
Qed.

Lemma bspline'_half : bspline' (1 / 2) = - (5 / 8).
Proof.
  unfold bspline'. rewrite Rabs_right by lra.
  destruct (Rlt_dec (1 / 2) 1); lra.
Qed.

Lemma single_nabla_weight :
  nabla_weight single_solver
    (mkGridNode (mkNode vzero vzero vzero vzero 1) 0 (0, 0, 0)%Z vzero)
    (sample_particle (mkVec 0.5 0.5 0.5))
  = mkVec (- (2645 / 18432)) (- (2645 / 18432)) (- (2645 / 18432)).
Proof.
  unfold nabla_weight, nabla_bspline3, kernel_arg. simpl.
  replace ((0.5 - 0) / 1) with (1 / 2) by lra.
  rewrite bspline_half, bspline'_half.
  unfold vscale; simpl. f_equal; lra.
Qed.

(** The force differential of the single particle on the single node,
    for the velocity (1, 0, 0) of the node and a weight gradient with
    three equal components. *)
Lemma single_del_force (dt gamma : R) :
  mvmul (unweightedDelForce svd_of_identity single_solver dt
           (sample_particle (mkVec 0.5 0.5 0.5))
           (madd mzero (outerProduct (mkVec 1 0 0) (mkVec gamma gamma gamma))))
        (mkVec gamma gamma gamma)
  = mkVec (- (8 * 58333 + 38888) * dt * (gamma * gamma))
          ((58333 - 38888) * dt * (gamma * gamma))
          ((58333 - 38888) * dt * (gamma * gamma)).
Proof.
  unfold unweightedDelForce.
  cbn [sample_particle deformElastic deformPlastic volume0 single_solver
       hardeningCoefficient mu0 lambda0].
  rewrite determinant_identity.
  replace (10 * (1 - 1)) with 0 by ring. rewrite exp_0.
  unfold polarDecompose, svd_of_identity, del_cofactor, ddot, inverse, determinant.
  cbv [fst snd]. vec_unfold.
  apply dvec3_eq; cbv [vx vy vz]; field; lra.
Qed.

(** The operator's body on the single node, for any time step and any
    [beta]. *)
Lemma implicit_single (idx : SnowSolver -> coord -> Z) (dt beta : R) :
  idx single_solver (0, 0, 0)%Z = 0%Z ->
  implicitBody svd_of_identity idx dt beta single_solver [mkVec 1 0 0]
  = Some [mkVec (1 + beta * dt * dt * ((8 * 58333 + 38888) * (2645 / 18432) * (2645 / 18432)))
                (- (beta * dt * dt * ((58333 - 38888) * (2645 / 18432) * (2645 / 18432))))
                (- (beta * dt * dt * ((58333 - 38888) * (2645 / 18432) * (2645 / 18432))))].
Proof.
  intros Hidx.
  unfold implicitBody. simpl length. simpl negb. cbv iota.
  cbn [particleNodes single_solver foldM map].
  unfold del_f_particle.
  rewrite (half_cell_window single_solver (sample_particle (mkVec 0.5 0.5 0.5))
             eq_refl eq_refl).
  unfold del_deformElastic_at, del_f_at.
  rewrite !foldM_guarded_filter.
  change (filter (isValidGridNode single_solver) (box (0, 0, 0)%Z (2, 2, 2)%Z))
    with [(0, 0, 0)%Z].
  cbn [foldM].
  unfold gridNode. rewrite !Hidx.
  change (at_index (gridNodes single_solver) 0%Z)
    with (Some (mkGridNode (mkNode vzero vzero vzero vzero 1) 0 (0, 0, 0)%Z vzero)).
  change (at_index [mkVec 1 0 0] 0%Z) with (Some (mkVec 1 0 0)).
  cbn [bind].
  rewrite single_nabla_weight.
  rewrite foldM_guarded_filter.
  change (filter (isValidGridNode single_solver) (box (0, 0, 0)%Z (2, 2, 2)%Z))
    with [(0, 0, 0)%Z].
  cbn [foldM].
  unfold gridNode. rewrite !Hidx.
  change (at_index (gridNodes single_solver) 0%Z)
    with (Some (mkGridNode (mkNode vzero vzero vzero vzero 1) 0 (0, 0, 0)%Z vzero)).
  change (at_index [vzero] 0%Z) with (Some vzero).
  cbn [bind]. rewrite single_nabla_weight.
  change (store [vzero] 0 ?x) with [x].
  cbn [gridNodes single_solver combine map Av_next_at g_node mass].
  assert (Hm : Rgtb 1 0 = true) by (apply Rgtb_true; lra).
  rewrite Hm. rewrite single_del_force.
  do 2 f_equal. unfold vsub, vdiv, vscale, vadd, vzero; simpl.
  f_equal; field.
Qed.

(** C3, on the code.  The operator never reads the solver's time step:
    it computes with its own constant 5e-3.  For the solver with one
    node, one particle and the time step 1e-5, its result differs from
    [v - (beta * delta_t / m) * delta_f (v)] taken with the solver's time
    step (and the same [beta] = 1), whatever the flat index is that puts
    the node (0, 0, 0) first. *)
Theorem implicit_operator_ignores_time_step :
  (forall svd s dt v,
     implicitVelocityIntegrationMatrix svd storage_index (with_delta_t s dt) v =
     implicitVelocityIntegrationMatrix svd storage_index s v) /\
  delta_t single_solver = 1e-5 /\
  forall idx, idx single_solver (0, 0, 0)%Z = 0%Z ->
  exists a_code a_spec,
    implicitVelocityIntegrationMatrix svd_of_identity idx single_solver
      [mkVec 1 0 0] = Some [a_code] /\
    implicitBody svd_of_identity idx (delta_t single_solver) 1 single_solver
      [mkVec 1 0 0] = Some [a_spec] /\
    vx a_code = 1 + 5e-3 * 5e-3 * ((8 * 58333 + 38888) * (2645 / 18432) * (2645 / 18432)) /\
    vx a_spec = 1 + 1e-5 * 1e-5 * ((8 * 58333 + 38888) * (2645 / 18432) * (2645 / 18432)) /\
    a_code <> a_spec.
Proof.
  split; [intros svd s dt v; destruct s; reflexivity |].
  split; [reflexivity |].
  intros idx Hidx.
  unfold implicitVelocityIntegrationMatrix. cbv zeta.
  rewrite !(implicit_single idx) by assumption.
  do 2 eexists. split; [reflexivity |]. split; [reflexivity |].
  split; [simpl; lra |]. split; [simpl; lra |].
  intros E. apply (f_equal vx) in E. simpl in E. lra.
Qed.

(** ** The whole tick *)

Lemma bind_Some {A B : Type} (m : option A) (f : A -> option B) (b : B) :
  bind m f = Some b -> exists a, m = Some a /\ f a = Some b.
Proof. destruct m as [a |]; simpl; [eauto | discriminate]. Qed.

Lemma mapM_Forall2 {A B : Type} (f : A -> option B) (l : list A) (l' : list B) :
  mapM f l = Some l' -> Forall2 (fun a b => f a = Some b) l l'.
Proof.
  revert l'. induction l as [| a l IH]; intros l' H; simpl in H.
  - injection H as <-. constructor.
  - apply bind_Some in H. destruct H as (b & Hb & H).
    apply bind_Some in H. destruct H as (t & Ht & H).
    injection H as <-. constructor; auto.
Qed.

Lemma mapM_total {A B : Type} (f : A -> option B) (l : list A) :
  Forall (fun a => exists b, f a = Some b) l -> exists l', mapM f l = Some l'.
Proof.
  induction 1 as [| a l [b Hb] _ [l' IH]]; simpl; [eauto |].
  rewrite Hb, IH. simpl. eauto.
Qed.

Lemma step6_length (n : nat) (gs : list GridNode) : length (step6 n gs) = length gs.
Proof.
  unfold step6. rewrite length_map, length_combine, length_map. apply Nat.min_id.
Qed.

Section Tick.

Variable svd : dmat3 -> dmat3 * dvec3 * dmat3.
Variable idx : SnowSolver -> coord -> Z.
Variable s : SnowSolver.

Lemma modify_particles_total (upd : ParticleNode -> GridNode -> GridNode)
    (ps : list ParticleNode) :
  forall gs, index_in_range idx s gs ->
  exists gs',
    foldM (fun p gs1 => foldM (modify_at idx s (upd p)) (window s p) gs1) ps gs
    = Some gs' /\ length gs' = length gs.
Proof.
  induction ps as [| p ps IH]; intros gs Hr; simpl; [eauto |].
  destruct (modify_loop_total idx s (upd p) (window s p) gs Hr) as (gs1 & -> & Hl1).
  simpl.
  destruct (IH gs1) as (gs' & -> & Hl).
  - eapply index_in_range_length; eassumption.
  - exists gs'. split; [reflexivity | congruence].
Qed.

Lemma step3_total (ps : list ParticleNode) (gs : list GridNode) :
  index_in_range idx s gs ->
  exists gs', step3 svd idx s ps gs = Some gs' /\ length gs' = length gs.
Proof.
  intros Hr. unfold step3, step3_forces, force_at.
  destruct (modify_particles_total
              (fun p g => g_with_force g
                 (vadd (force g) (mvmul (unweightedForce svd s p) (nabla_weight s g p))))
              ps (step3_gravity gs)) as (gs' & H & Hl).
  - eapply index_in_range_length; [| exact Hr]. unfold step3_gravity. apply length_map.
  - exists gs'. split; [exact H |]. rewrite Hl. unfold step3_gravity. apply length_map.
Qed.

Lemma density_gather_total (gs : list GridNode) (p : ParticleNode) (l : list coord) :
  index_in_range idx s gs ->
  (forall c, In c l -> isValidGridNode s c = true) ->
  forall a, exists d, foldM (density_at idx s gs p) l a = Some d.
Proof.
  intros Hr. induction l as [| c l IH]; intros Hv a; simpl; [eauto |].
  unfold density_at at 1.
  destruct (gridNode_valid idx s gs c Hr (Hv c (or_introl eq_refl))) as [g ->].
  simpl. apply IH. intros c' Hc'. apply Hv. right. assumption.
Qed.

Lemma step2_total (n : nat) (gs : list GridNode) (ps : list ParticleNode) :
  index_in_range idx s gs ->
  (n = 0%nat ->
   Forall (fun p => forall c, In c (window s p) -> isValidGridNode s c = true) ps) ->
  exists gs' ps', step2 idx s n gs ps = Some (gs', ps') /\ length gs' = length gs.
Proof.
  intros Hr Hw. unfold step2. destruct n as [| n]; simpl; [| eauto].
  assert (Hr' : index_in_range idx s (step2_density s gs)).
  { eapply index_in_range_length; [| exact Hr]. unfold step2_density. apply length_map. }
  destruct (mapM_total (step2_volume idx s (step2_density s gs)) ps) as [ps' ->].
  - specialize (Hw eq_refl). induction Hw as [| p ps Hp _ IH]; constructor; [| exact IH].
    unfold step2_volume, particle_density0.
    destruct (density_gather_total (step2_density s gs) p (window s p) Hr' Hp 0)
      as [d ->].
    simpl. eauto.
  - simpl. do 2 eexists. split; [reflexivity |].
    unfold step2_density. apply length_map.
Qed.

Lemma particle_update_total (delta_t : R) (n : nat) (gs : list GridNode)
    (p : ParticleNode) :
  index_in_range idx s gs ->
  exists p', particle_update svd idx s delta_t n gs p = Some p'.
Proof.
  intros Hr. unfold particle_update, step7.
  destruct (velocity_gradient_total idx s n gs p Hr) as [nv ->]. simpl.
  unfold step8910, pic_flip_at.
  match goal with
  | |- context [foldM (guarded idx s gs ?body) ?l ?x] =>
      destruct (foldM_guarded_total idx s gs body Hr
                  (fun c0 g0 a0 => ex_intro _ _ eq_refl) l x) as [acc ->]
  end.
  simpl. eauto.
Qed.

(** A tick runs to its end when the flat index maps the valid
    coordinates into the node array and, in the first tick, the windows
    of the particles hold valid coordinates only. *)
Lemma update_total (delta_t : R) (n : nat) :
  index_in_range idx s (gridNodes s) ->
  (n = 0%nat ->
   Forall (fun p => forall c, In c (window s p) -> isValidGridNode s c = true)
          (particleNodes s)) ->
  exists s', update svd idx s delta_t n = Some s'.
Proof.
  intros Hr Hw. unfold update.
  destruct (step1_total idx s n (particleNodes s) (gridNodes s) Hr) as (gs1 & -> & Hl1).
  cbn [bind].
  assert (Hr1 : index_in_range idx s gs1)
    by (eapply index_in_range_length; eassumption).
  destruct (step2_total n gs1 (particleNodes s) Hr1 Hw) as (gs2 & ps2 & -> & Hl2).
  cbn [bind fst snd].
  assert (Hr2 : index_in_range idx s gs2)
    by (eapply index_in_range_length; eassumption).
  destruct (step3_total ps2 gs2 Hr2) as (gs3 & -> & Hl3).
  cbn [bind].
  assert (Hr6 : index_in_range idx s (step6 n (step45 delta_t n gs3))).
  { eapply index_in_range_length; [| exact Hr2].
    rewrite step6_length. unfold step45. rewrite length_map. exact Hl3. }
  destruct (mapM_total (particle_update svd idx s delta_t n
                          (step6 n (step45 delta_t n gs3))) ps2) as [ps' ->].
  - apply Forall_forall. intros p _. apply particle_update_total, Hr6.
  - simpl. eauto.
Qed.

(** What a finished tick leaves: a grid that went through steps 4 to 6,
    and particles that went through step 7 on that grid. *)
Lemma update_result (delta_t : R) (n : nat) (s' : SnowSolver) :
  update svd idx s delta_t n = Some s' ->
  exists gs3 ps2,
    gridNodes s' = step6 n (step45 delta_t n gs3) /\
    Forall2 (fun p p' =>
               exists p7, step7 svd idx s delta_t n (gridNodes s') p = Some p7 /\
                          deformElastic p' = deformElastic p7 /\
                          deformPlastic p' = deformPlastic p7)
            ps2 (particleNodes s').
Proof.
  unfold update. intros H.
  apply bind_Some in H. destruct H as (gs1 & _ & H).
  apply bind_Some in H. destruct H as ([gs2 ps2] & _ & H). cbn [fst snd] in H.
  apply bind_Some in H. destruct H as (gs3 & _ & H).
  apply bind_Some in H. destruct H as (ps' & Hps & H).
  injection H as <-. exists gs3, ps2. simpl. split; [reflexivity |].
  apply mapM_Forall2 in Hps.
  induction Hps as [| p p' ps ps' Hp _ IH]; constructor; [| exact IH].
  unfold particle_update in Hp.
  apply bind_Some in Hp. destruct Hp as (p7 & H7 & H8).
  exists p7. split; [exact H7 |].
  unfold step8910 in H8. apply bind_Some in H8. destruct H8 as (acc & _ & H8).
  injection H8 as <-. simpl. auto.
Qed.

(** After a tick every particle has the singular values of its
    [deformElastic] in the clamp interval. *)
Lemma update_clamps_every_particle (delta_t : R) (n : nat) (s' : SnowSolver) :
  (forall m, svd_factors (svd m)) ->
  1 - criticalCompression s <= 1 + criticalStretch s ->
  0 <= 1 + criticalStretch s ->
  update svd idx s delta_t n = Some s' ->
  Forall (fun p' => forall sigma, singular_value (deformElastic p') sigma ->
            1 - criticalCompression s <= sigma <= 1 + criticalStretch s)
         (particleNodes s').
Proof.
  intros Hsvd Hlh Hh Hu.
  destruct (update_result delta_t n s' Hu) as (gs3 & ps2 & _ & Hps).
  induction Hps as [| p p' ps ps' (p7 & H7 & HE & _) _ IH]; constructor; [| exact IH].
  intros sigma. rewrite HE.
  unfold step7 in H7. apply bind_Some in H7. destruct H7 as (nv & _ & H7).
  injection H7 as <-. simpl. unfold deform_update, multiplier.
  specialize (Hsvd (mmul (madd (dmat3_1 1) (mscale delta_t nv)) (deformElastic p))).
  destruct (svd _) as [[u e] v]. destruct Hsvd as (Hu' & Hv & Hx & Hy & Hz). simpl.
  intros Hsv.
  apply singular_value_of_factors in Hsv;
    try assumption; try (apply clamp1_nonneg; assumption).
  destruct Hsv as [_ [-> | [-> | ->]]]; apply clamp1_bounds; assumption.
Qed.

End Tick.

(** ** The window of the loops and the window of the specification

    The loops bound the window by truncation, the specification by the
    floor.  On the valid coordinates the two differ only by nodes the
    kernel gives no weight, so either may be read in the properties
    above. *)

Lemma Zceil_nonpos (x : R) : x < 0 -> (Zceil x <= 0)%Z.
Proof.
  intros Hx. pose proof (Zceil_bound x) as [Hb _].
  assert (IZR (Zceil x) < 1) by lra.
  apply lt_IZR in H. lia.
Qed.

Lemma Zfloor_le_Zceil (x : R) : (Zfloor x <= Zceil x)%Z.
Proof. apply le_IZR. pose proof (Zfloor_ceil_bound x). lra. Qed.

Lemma bspline_outside (d : R) : 2 <= Rabs d -> bspline d = 0 /\ bspline' d = 0.
Proof.
  intros Hd. unfold bspline, bspline'.
  destruct (Rlt_dec (Rabs d) 1); [lra |].
  destruct (Rlt_dec (Rabs d) 2); [lra |]. auto.
Qed.

Lemma window_axis (x : R) (i : Z) :
  (0 <= i)%Z ->
  ((Zfloor x - 1 <= i <= Zfloor x + 2)%Z ->
   (trunc (x - 1) <= i <= trunc (x + 2))%Z) /\
  ((trunc (x - 1) <= i <= trunc (x + 2))%Z ->
   ~ (Zfloor x - 1 <= i <= Zfloor x + 2)%Z ->
   bspline (x - IZR i) = 0 /\ bspline' (x - IZR i) = 0).
Proof.
  intros Hi.
  assert (F1 : Zfloor (x - 1) = (Zfloor x - 1)%Z).
  { replace (x - 1) with (x + IZR (-1)) by (simpl; ring). apply Zfloor_addz. }
  assert (F2 : Zfloor (x + 2) = (Zfloor x + 2)%Z) by apply (Zfloor_addz 2 x).
  pose proof (Zfloor_le_Zceil (x - 1)) as C1.
  pose proof (Zfloor_le_Zceil (x + 2)) as C2.
  unfold trunc.
  destruct (Rle_dec 0 (x - 1)) as [H1 | H1];
    destruct (Rle_dec 0 (x + 2)) as [H2 | H2]; try lra.
  - rewrite F1, F2. split; [auto | intros; contradiction].
  - assert (Zceil (x - 1) <= 0)%Z by (apply Zceil_nonpos; lra).
    rewrite F2. split; [lia |]. intros Hin Hnot. exfalso. lia.
  - assert (Zceil (x - 1) <= 0)%Z by (apply Zceil_nonpos; lra).
    assert (Zceil (x + 2) <= 0)%Z by (apply Zceil_nonpos; lra).
    split; [lia |]. intros Hin Hnot.
    assert (i = 0%Z) by lia. subst i.
    apply bspline_outside. simpl. rewrite Rabs_left by lra. lra.
Qed.

Lemma window_floor_window (s : SnowSolver) (p : ParticleNode) (c : coord) :
  isValidGridNode s c = true ->
  (In c (floor_window s p) -> In c (window s p)) /\
  (In c (window s p) -> ~ In c (floor_window s p) ->
   forall g, h s <> 0 -> position (g_node g) = lattice_point s c ->
     weight s g p = 0 /\ nabla_weight s g p = vzero).
Proof.
  intros Hv. apply valid_coord_bounds in Hv. destruct Hv as ([Hx _] & [Hy _] & [Hz _]).
  unfold floor_window, window, gmin, gmax, ivec3.
  destruct (position (p_node p)) as [px py pz] eqn:Ep. simpl.
  rewrite !in_box. unfold cx, cy, cz in *. simpl.
  destruct (window_axis (px / h s) (fst (fst c)) Hx) as [Ax Bx].
  destruct (window_axis (py / h s) (snd (fst c)) Hy) as [Ay By].
  destruct (window_axis (pz / h s) (snd c) Hz) as [Az Bz].
  split.
  - intros (Ix & Iy & Iz). auto.
  - intros (Ix & Iy & Iz) Hnot g Hh Hg.
    unfold weight, nabla_weight, nabla_bspline3, bspline3, kernel_arg.
    rewrite Hg, Ep. unfold lattice_point, vdiv, vsub, cx, cy, cz; simpl.
    replace ((px - IZR (fst (fst c)) * h s) / h s)
      with (px / h s - IZR (fst (fst c))) by (field; assumption).
    replace ((py - IZR (snd (fst c)) * h s) / h s)
      with (py / h s - IZR (snd (fst c))) by (field; assumption).
    replace ((pz - IZR (snd c) * h s) / h s)
      with (pz / h s - IZR (snd c)) by (field; assumption).
    destruct (Z_le_dec (Zfloor (px / h s) - 1) (fst (fst c)));
      destruct (Z_le_dec (fst (fst c)) (Zfloor (px / h s) + 2));
      try (destruct (Bx Ix) as [-> ->]; [lia |];
           split; [ring | unfold vscale, vzero; simpl; f_equal; ring]).
    destruct (Z_le_dec (Zfloor (py / h s) - 1) (snd (fst c)));
      destruct (Z_le_dec (snd (fst c)) (Zfloor (py / h s) + 2));
      try (destruct (By Iy) as [-> ->]; [lia |];
           split; [ring | unfold vscale, vzero; simpl; f_equal; ring]).
    destruct (Bz Iz) as [-> ->]; [lia |].
    split; [ring | unfold vscale, vzero; simpl; f_equal; ring].
Qed.

(** ** Step 3: the force of a node, over the window of the specification *)

Section SpecForces.

Variable svd : dmat3 -> dmat3 * dvec3 * dmat3.
Variable idx : SnowSolver -> coord -> Z.
Variable s : SnowSolver.
Hypothesis idx_inj : index_injective idx s.

(** For the node on the lattice point of a valid coordinate, what a
    particle adds over the window of its loops is what it adds over the
    4 x 4 x 4 window: the loops visit all of that window, and beyond it
    the weight gradient is zero. *)
Lemma window_contribution (p : ParticleNode) (c : coord) (g : GridNode)
    (m : dmat3) (k : R) (f : dvec3) :
  h s <> 0 -> isValidGridNode s c = true ->
  position (g_node g) = lattice_point s c ->
  (if in_window s p c
   then vadd f (vscale k (mvmul m (nabla_weight s g p))) else f) =
  (if in_floor_window s p c
   then vadd f (vscale k (mvmul m (nabla_weight s g p))) else f).
Proof.
  intros Hh Hv Hp.
  destruct (window_floor_window s p c Hv) as [Hsub Hout].
  unfold in_window, in_floor_window.
  destruct (existsb (coord_eqb c) (floor_window s p)) eqn:Ef.
  - apply existsb_coord_in in Ef. apply Hsub in Ef.
    apply existsb_coord_in in Ef. rewrite Ef. reflexivity.
  - destruct (existsb (coord_eqb c) (window s p)) eqn:Ew; [| reflexivity].
    apply existsb_coord_in in Ew.
    assert (Hnf : ~ In c (floor_window s p)).
    { intros Hin. apply existsb_coord_in in Hin. congruence. }
    destruct (Hout Ew Hnf g Hh Hp) as [_ ->].
    destruct f as [a b d], m as [[? ? ?] [? ? ?] [? ? ?]].
    unfold vadd, vscale, mvmul, vzero; simpl. f_equal; ring.
Qed.

(** C5.  Step 3 first sets the force of every node to
    (0, 0, -9.8 m_g); then every particle adds - volume0 * P * nabla w,
    with the stress P of the specification, to the force of every valid
    node of its 4 x 4 x 4 window, from floor (p / h) - 1 to
    floor (p / h) + 2 in every axis.  So the node of a valid coordinate
    ends with the force the specification describes, and nothing else
    of it changes.  The flat index is taken to map the valid
    coordinates into the node array and not two of them to the same
    place, and the nodes to sit on their lattice points, where the
    constructor puts them. *)
Theorem nodal_force_of_step3 (ps : list ParticleNode) (gs : list GridNode) :
  h s <> 0 ->
  index_in_range idx s gs ->
  nodes_on_lattice idx s gs ->
  Forall2 (fun g g1 =>
             force g1 = mkVec 0 0 (-9.8 * mass (g_node g)) /\ g_node g1 = g_node g)
          gs (step3_gravity gs) /\
  exists gs',
    step3_forces svd idx s ps (step3_gravity gs) = Some gs' /\
    step3 svd idx s ps gs = Some gs' /\
    length gs' = length gs /\
    forall c g0, isValidGridNode s c = true ->
      at_index gs (idx s c) = Some g0 ->
      exists g', at_index gs' (idx s c) = Some g' /\
        force g' = force_spec svd s ps c g0 /\
        g_node g' = g_node g0 /\ density0 g' = density0 g0 /\
        location g' = location g0.
Proof.
  intros Hh Hr Hlat.
  destruct (step3_force_of_window svd idx s idx_inj ps gs Hr)
    as (Hgrav & gs' & H3 & H3' & Hl & Hat).
  split; [exact Hgrav |].
  exists gs'. split; [exact H3 |]. split; [exact H3' |]. split; [exact Hl |].
  intros c g0 Hv Hg0.
  destruct (Hat c g0 Hv Hg0) as (g' & Hg' & Hf & Hrest).
  exists g'. split; [exact Hg' |]. split; [| exact Hrest].
  rewrite Hf. unfold force_spec. apply fold_left_ext. intros f p.
  apply window_contribution; [exact Hh | exact Hv |].
  destruct (Hlat c Hv) as (g & Hg & Hp). congruence.
Qed.

End SpecForces.

(** ** The properties at the sample states *)

Lemma orthogonal_identity : orthogonal midentity.
Proof. split; vec_unfold; repeat f_equal; ring. Defined.

Lemma inner_index_in_range :
  index_in_range storage_index inner_solver (gridNodes inner_solver).
Proof. apply storage_index_in_range. reflexivity. Defined.

Lemma inner_window_inside :
  window_inside inner_solver (sample_particle (mkVec 1.5 1.5 1.5)).
Proof.
  unfold window_inside. simpl.
  rewrite (Zfloor_eq 1 (1.5 / 1)) by (simpl; lra).
  unfold size_x, size_y, size_z. simpl. lia.
Defined.

Lemma collision_floor_cases_witness :
  vz (position floor_node) <= 0.1 /\
  handleNodeCollisionVelocityUpdate floor_node =
  set_velocity_star floor_node
    (vadd (vadd (mkVec (3 - 0 - -1 * 0) (4 - 0 - -1 * 0) (-1 - 0 - -1 * 1))
                (vscale (1 * -1)
                   (vdiv (mkVec (3 - 0 - -1 * 0) (4 - 0 - -1 * 0) (-1 - 0 - -1 * 1))
                         (length3 (mkVec (3 - 0 - -1 * 0) (4 - 0 - -1 * 0)
                                         (-1 - 0 - -1 * 1))))))
          vzero).
Proof.
  assert (Hc : vz (position floor_node) <= 0.1) by (simpl; lra).
  split; [exact Hc |].
  destruct (collision_floor_cases floor_node Hc) as (_ & _ & Hslide).
  assert (Hn : dot (vsub (velocity_star floor_node) vzero) (mkVec 0 0 1) = -1)
    by (unfold dot, vsub; simpl; lra).
  cbv zeta in Hslide. rewrite Hn in Hslide.
  apply Hslide; [lra |].
  unfold length3, dot, vsub, vscale; simpl.
  replace (- (1) * -1) with (sqrt 1) by (rewrite sqrt_1; lra).
  apply Rlt_gt, sqrt_lt_1_alt. lra.
Defined.

Lemma grid_mass_conservation_witness :
  exists acc,
    step1_rasterize storage_index inner_solver 0 (particleNodes inner_solver)
      (step1_clear 0 (gridNodes inner_solver)) = Some acc /\
    grid_mass acc = particle_mass (particleNodes inner_solver) /\
    step1 storage_index inner_solver 0 (particleNodes inner_solver)
      (gridNodes inner_solver) = Some (step1_normalize 0 acc) /\
    grid_mass (step1_normalize 0 acc) = particle_mass (particleNodes inner_solver).
Proof.
  apply (grid_mass_conservation storage_index inner_solver 0
           (particleNodes inner_solver) (gridNodes inner_solver)).
  - simpl; lra.
  - exact inner_index_in_range.
  - exact (new_gridNodes_on_lattice inner_solver).
  - constructor; [exact inner_window_inside | constructor].
Defined.

(** * Further properties *)


(** ** The collision handler, further *)

(** X1.  In the contact zone the handler never leaves a velocity that points
    into the floor. *)
Theorem collision_no_penetration (nd : Node) :
  vz (position nd) <= 0.1 ->
  0 <= vz (velocity_star (handleNodeCollisionVelocityUpdate nd)).
Proof.
  intros Hc.
  destruct (Rle_dec 0 (vz (velocity_star nd))) as [Hz | Hz].
  - rewrite (handle_no_approach nd Hz). exact Hz.
  - rewrite handle_normal_component; lra.
Qed.

Lemma slide_factor (vn l : R) :
  vn < 0 -> - vn < l -> 0 <= 1 + vn * (1 / l) <= 1.
Proof.
  intros Hn Hl. assert (Hl0 : 0 < l) by lra.
  assert (Ht : 0 < 1 / l) by (apply Rdiv_lt_0_compat; lra).
  assert (E : l * (1 / l) = 1) by (field; lra).
  split; nra.
Qed.

(** X2.  Friction only slows a node down: the tangential components are
    scaled by a common factor between 0 and 1, the normal component is
    kept or set to zero, and the speed does not grow. *)
Theorem collision_dissipative (nd : Node) :
  let v := velocity_star nd in
  let v' := velocity_star (handleNodeCollisionVelocityUpdate nd) in
  (exists k, 0 <= k <= 1 /\ vx v' = k * vx v /\ vy v' = k * vy v /\
             (vz v' = vz v \/ vz v' = 0)) /\
  length3 v' <= length3 v.
Proof.
  cbv zeta.
  assert (Hlen : forall k a b c c',
            0 <= k <= 1 -> (c' = c \/ c' = 0) ->
            length3 (mkVec (k * a) (k * b) c') <= length3 (mkVec a b c)).
  { intros k a b c c' Hk Hc. unfold length3, dot; simpl.
    apply sqrt_le_1_alt.
    assert (Hk2 : 0 <= 1 - k * k) by nra.
    pose proof (Rmult_le_pos _ _ Hk2 (Rle_0_sqr a)) as Ha.
    pose proof (Rmult_le_pos _ _ Hk2 (Rle_0_sqr b)) as Hb.
    unfold Rsqr in Ha, Hb.
    destruct Hc as [-> | ->]; nra. }
  assert (Hmain : exists k, 0 <= k <= 1 /\
            vx (velocity_star (handleNodeCollisionVelocityUpdate nd)) = k * vx (velocity_star nd) /\
            vy (velocity_star (handleNodeCollisionVelocityUpdate nd)) = k * vy (velocity_star nd) /\
            (vz (velocity_star (handleNodeCollisionVelocityUpdate nd)) = vz (velocity_star nd) \/
             vz (velocity_star (handleNodeCollisionVelocityUpdate nd)) = 0)).
  { unfold handleNodeCollisionVelocityUpdate.
    destruct (Rle_dec (vz (position nd)) 0.1) as [Hc | Hc];
      [| exists 1; repeat split; try lra; auto].
    destruct (Rge_dec _ 0) as [Hge | Hlt];
      [exists 1; repeat split; try lra; auto |].
    destruct nd as [pos ve vo [a b c] m]. simpl in *.
    unfold dot, vsub in Hlt; simpl in Hlt.
    assert (Hc0 : c < 0) by lra.
    destruct (Rle_dec _ _) as [Hst | Hsl].
    - exists 0. simpl. repeat split; try lra; try (right; lra).
    - match type of Hsl with
      | ~ (length3 ?t <= _) => set (vt := t) in *
      end.
      set (vn := dot (vsub (mkVec a b c) (mkVec 0 0 0)) (mkVec 0 0 1)) in *.
      assert (Evn : vn = c) by (unfold vn, dot, vsub; simpl; ring).
      assert (Hl : - vn < length3 vt) by lra.
      exists (1 + vn * (1 / length3 vt)).
      split; [apply slide_factor; lra |].
      unfold normalize. fold (length3 vt).
      unfold vt at 1 3 5 7 9 11. unfold vadd, vscale, vsub, dot; simpl.
      fold vn. replace 1.0 with 1 by lra.
      repeat split; try (rewrite Evn; ring); try (right; rewrite Evn; ring). }
  split; [exact Hmain |].
  destruct Hmain as (k & Hk & Ex & Ey & Ez).
  destruct (velocity_star (handleNodeCollisionVelocityUpdate nd)) as [a' b' c'].
  destruct (velocity_star nd) as [a b c]. simpl in *. subst a' b'.
  apply Hlen; assumption.
Qed.

(** ** What the loops over the node array keep *)

Lemma Forall2_same {A : Type} (R : A -> A -> Prop) (l : list A) :
  (forall a, R a a) -> Forall2 R l l.
Proof. intros H. induction l; constructor; auto. Qed.

Lemma Forall2_chain {A : Type} (R : A -> A -> Prop) (l1 l2 l3 : list A) :
  (forall a b c, R a b -> R b c -> R a c) ->
  Forall2 R l1 l2 -> Forall2 R l2 l3 -> Forall2 R l1 l3.
Proof.
  intros Ht H12. revert l3. induction H12; intros l3 H23; inversion H23; subst;
    constructor; eauto.
Qed.

Lemma Forall2_compose {A B C : Type} (R1 : A -> B -> Prop) (R2 : B -> C -> Prop)
    (l1 : list A) (l2 : list B) (l3 : list C) :
  Forall2 R1 l1 l2 -> Forall2 R2 l2 l3 ->
  Forall2 (fun a c => exists b, R1 a b /\ R2 b c) l1 l3.
Proof.
  intros H12. revert l3. induction H12; intros l3 H23; inversion H23; subst;
    constructor; eauto.
Qed.

Lemma Forall2_weaken {A B : Type} (R R' : A -> B -> Prop) (l : list A) (l' : list B) :
  (forall a b, R a b -> R' a b) -> Forall2 R l l' -> Forall2 R' l l'.
Proof. intros H. induction 1; constructor; auto. Qed.

Lemma Forall2_Forall_r {A B : Type} (P : A -> Prop) (Q : B -> Prop)
    (R : A -> B -> Prop) (l : list A) (l' : list B) :
  (forall a b, P a -> R a b -> Q b) -> Forall P l -> Forall2 R l l' -> Forall Q l'.
Proof.
  intros H HP HR. induction HR; inversion HP; subst; constructor; eauto.
Qed.

Lemma Forall2_at_index {A : Type} (R : A -> A -> Prop) (l l' : list A) (i : Z) (a : A) :
  Forall2 R l l' -> at_index l i = Some a ->
  exists a', at_index l' i = Some a' /\ R a a'.
Proof.
  unfold at_index. destruct (i <? 0)%Z; [discriminate |].
  generalize (Z.to_nat i) as k. intros k H. revert k.
  induction H as [| x y l l' Hxy _ IH]; intros [| k] Hk; simpl in *; try discriminate.
  - injection Hk as <-. eauto.
  - apply IH, Hk.
Qed.

Lemma store_nat_Forall2 {A : Type} (R : A -> A -> Prop) (l : list A) (k : nat) (a b : A) :
  (forall x, R x x) -> nth_error l k = Some a -> R a b ->
  Forall2 R l (store_nat l k b).
Proof.
  intros Hr. revert k. induction l as [| x l IH]; intros [| k] Hk Hab;
    simpl in *; try discriminate.
  - injection Hk as ->. constructor; [assumption | apply Forall2_same, Hr].
  - constructor; [apply Hr | apply IH; assumption].
Qed.

Lemma store_Forall2 {A : Type} (R : A -> A -> Prop) (l : list A) (i : Z) (a b : A) :
  (forall x, R x x) -> at_index l i = Some a -> R a b -> Forall2 R l (store l i b).
Proof.
  unfold at_index, store. destruct (i <? 0)%Z; [discriminate |].
  apply store_nat_Forall2.
Qed.

Section Frames.

Variable idx : SnowSolver -> coord -> Z.
Variable s : SnowSolver.
Variable R : GridNode -> GridNode -> Prop.
Hypothesis R_refl : forall g, R g g.
Hypothesis R_trans : forall a b c, R a b -> R b c -> R a c.

(** A loop of guarded writes relates every node of the array to the
    node that takes its place, when the update itself does. *)
Lemma modify_loop_Forall2 (upd : GridNode -> GridNode) (l : list coord) :
  (forall g, R g (upd g)) ->
  forall gs gs', foldM (modify_at idx s upd) l gs = Some gs' -> Forall2 R gs gs'.
Proof.
  intros Hu. induction l as [| c l IH]; intros gs gs' H; simpl in H.
  - injection H as <-. apply Forall2_same, R_refl.
  - apply bind_Some in H. destruct H as (gs1 & H1 & H).
    apply (Forall2_chain R gs gs1 gs' R_trans); [| apply IH, H].
    unfold modify_at, guarded in H1.
    destruct (isValidGridNode s c).
    + apply bind_Some in H1. destruct H1 as (g & Hg & H1). injection H1 as <-.
      apply (store_Forall2 R gs _ g); auto.
    + injection H1 as <-. apply Forall2_same, R_refl.
Qed.

Lemma modify_particles_Forall2 (upd : ParticleNode -> GridNode -> GridNode)
    (ps : list ParticleNode) :
  (forall p, In p ps -> forall g, R g (upd p g)) ->
  forall gs gs',
    foldM (fun p gs1 => foldM (modify_at idx s (upd p)) (window s p) gs1) ps gs
    = Some gs' ->
    Forall2 R gs gs'.
Proof.
  intros Hu. induction ps as [| p ps IH]; intros gs gs' H; simpl in H.
  - injection H as <-. apply Forall2_same, R_refl.
  - apply bind_Some in H. destruct H as (gs1 & H1 & H).
    apply (Forall2_chain R gs gs1 gs' R_trans).
    + apply (modify_loop_Forall2 (upd p) (window s p)); auto.
      apply Hu. left; reflexivity.
    + apply IH; [| exact H]. intros q Hq. apply Hu. right; exact Hq.
Qed.

End Frames.

(** ** A whole tick, step by step *)

Lemma velocity_set_other (nd : Node) (n : nat) (v : dvec3) :
  velocity (set_velocity nd n v) (n + 1) = velocity nd (n + 1).
Proof.
  unfold velocity, set_velocity. rewrite even_succ_negb.
  destruct (Nat.even n); reflexivity.
Qed.

Section TickFrames.

Variable svd : dmat3 -> dmat3 * dvec3 * dmat3.
Variable idx : SnowSolver -> coord -> Z.
Variable s : SnowSolver.
Variable delta_t : R.
Variable n : nat.

Lemma update_steps (s' : SnowSolver) :
  update svd idx s delta_t n = Some s' ->
  exists acc gs2 ps2 gs3 ps',
    step1_rasterize idx s n (particleNodes s) (step1_clear n (gridNodes s)) = Some acc /\
    step2 idx s n (step1_normalize n acc) (particleNodes s) = Some (gs2, ps2) /\
    step3_forces svd idx s ps2 (step3_gravity gs2) = Some gs3 /\
    mapM (particle_update svd idx s delta_t n (step6 n (step45 delta_t n gs3))) ps2
    = Some ps' /\
    s' = with_nodes s (step6 n (step45 delta_t n gs3)) ps'.
Proof.
  unfold update, step1, step3. intros H.
  apply bind_Some in H. destruct H as (gs1 & H1 & H).
  apply bind_Some in H1. destruct H1 as (acc & Hacc & H1). injection H1 as <-.
  apply bind_Some in H. destruct H as ([gs2 ps2] & H2 & H). cbn [fst snd] in H.
  apply bind_Some in H. destruct H as (gs3 & H3 & H).
  apply bind_Some in H. destruct H as (ps' & Hps & H).
  injection H as <-. exists acc, gs2, ps2, gs3, ps'. auto.
Qed.

(** The relation between a grid node before and after a tick: it stays
    where it is, keeps its location and, after the first tick, its
    [density0]. *)
Lemma step2_grid (gs gs2 : list GridNode) (ps ps2 : list ParticleNode) :
  step2 idx s n gs ps = Some (gs2, ps2) ->
  Forall2 (fun g g' => g_node g' = g_node g /\ location g' = location g /\
                       force g' = force g /\
                       (n <> 0%nat -> density0 g' = density0 g)) gs gs2.
Proof.
  unfold step2. destruct n as [| k]; simpl.
  - intros H. apply bind_Some in H. destruct H as (ps' & _ & H).
    injection H as <- _. unfold step2_density. apply Forall2_map_self.
    intros g. simpl. repeat split; auto. intros E; contradiction.
  - intros H. injection H as <- _. apply Forall2_same. auto.
Qed.

Lemma step2_particles (gs gs2 : list GridNode) (ps ps2 : list ParticleNode) :
  step2 idx s n gs ps = Some (gs2, ps2) ->
  Forall2 (fun p p' => p_node p' = p_node p /\
                       deformElastic p' = deformElastic p /\
                       deformPlastic p' = deformPlastic p /\
                       (n <> 0%nat -> volume0 p' = volume0 p)) ps ps2.
Proof.
  unfold step2. destruct n as [| k]; simpl.
  - intros H. apply bind_Some in H. destruct H as (ps' & Hps & H).
    injection H as _ <-. apply mapM_Forall2 in Hps.
    eapply Forall2_weaken; [| exact Hps].
    intros p p' Hp. unfold step2_volume in Hp.
    apply bind_Some in Hp. destruct Hp as (d & _ & Hp). injection Hp as <-.
    simpl. repeat split; auto. intros E; contradiction.
  - intros H. injection H as _ <-. apply Forall2_same. auto.
Qed.

Lemma step1_rasterize_frame (ps : list ParticleNode) (gs acc : list GridNode) :
  step1_rasterize idx s n ps gs = Some acc ->
  Forall2 (fun g g' => position (g_node g') = position (g_node g) /\
                       location g' = location g /\ density0 g' = density0 g /\
                       force g' = force g /\
                       velocity_star (g_node g') = velocity_star (g_node g) /\
                       velocity (g_node g') (n + 1) = velocity (g_node g) (n + 1))
          gs acc.
Proof.
  unfold step1_rasterize, rasterize_at.
  apply (modify_particles_Forall2 idx s _) with (upd := rasterize_node s n).
  - auto 10.
  - intros a b c (H1 & H2 & H3 & H4 & H5 & H6) (K1 & K2 & K3 & K4 & K5 & K6).
    repeat split; congruence.
  - intros p _ g. unfold rasterize_node. simpl.
    match goal with
    | |- context [set_velocity ?nd n ?v] =>
        destruct (set_velocity_fields nd n v) as (-> & -> & _);
        rewrite (velocity_set_other nd n v)
    end.
    simpl. auto 10.
Qed.


Lemma step3_forces_frame (ps : list ParticleNode) (gs gs3 : list GridNode) :
  step3_forces svd idx s ps gs = Some gs3 ->
  Forall2 (fun g g' => g_node g' = g_node g /\ location g' = location g /\
                       density0 g' = density0 g) gs gs3.
Proof.
  unfold step3_forces, force_at.
  apply (modify_particles_Forall2 idx s _) with
    (upd := fun p g => g_with_force g
              (vadd (force g) (mvmul (unweightedForce svd s p) (nabla_weight s g p)))).
  - auto.
  - intros a b c (H1 & H2 & H3) (K1 & K2 & K3). repeat split; congruence.
  - intros p _ g. simpl. auto.
Qed.

Lemma handle_velocity (nd : Node) (k : nat) :
  velocity (handleNodeCollisionVelocityUpdate nd) k = velocity nd k.
Proof.
  destruct (handle_other_fields nd) as (He & Ho & _).
  unfold velocity. rewrite He, Ho. reflexivity.
Qed.

Lemma handle_normal_nonneg (nd : Node) :
  vz (position nd) <= 0.1 ->
  0 <= vz (velocity_star (handleNodeCollisionVelocityUpdate nd)).
Proof.
  intros Hc.
  destruct (Rle_dec 0 (vz (velocity_star nd))) as [Hz | Hz].
  - rewrite (handle_no_approach nd Hz). exact Hz.
  - rewrite handle_normal_component; lra.
Qed.

(** What steps 4 and 5 make of a grid node. *)
Lemma step45_node_fields (g : GridNode) :
  let g' := step45_node delta_t n g in
  position (g_node g') = position (g_node g) /\
  mass (g_node g') = mass (g_node g) /\
  (forall k, velocity (g_node g') k = velocity (g_node g) k) /\
  location g' = location g /\ density0 g' = density0 g /\ force g' = force g /\
  (vz (position (g_node g)) <= 0.1 -> 0 <= vz (velocity_star (g_node g'))) /\
  (mass (g_node g) <= 0 -> velocity (g_node g) n = vzero ->
   velocity_star (g_node g') = vzero).
Proof.
  cbv zeta. unfold step45_node. cbv zeta.
  match goal with
  | |- context [handleNodeCollisionVelocityUpdate ?x] => set (nd := x)
  end.
  simpl.
  assert (Hp : position nd = position (g_node g))
    by (subst nd; destruct (_ && _); reflexivity).
  assert (Hm : mass nd = mass (g_node g))
    by (subst nd; destruct (_ && _); reflexivity).
  assert (Hv : forall k, velocity nd k = velocity (g_node g) k)
    by (intros k; subst nd; destruct (_ && _); reflexivity).
  destruct (handle_other_fields nd) as (_ & _ & Hmass).
  rewrite handle_position, Hmass, Hp, Hm.
  repeat split; auto.
  - intros k. rewrite handle_velocity. apply Hv.
  - intros Hc. apply handle_normal_nonneg. rewrite Hp. exact Hc.
  - intros Hm0 Hv0.
    assert (E : nd = set_velocity_star (g_node g) vzero).
    { subst nd. simpl.
      assert (E : Rgtb (mass (g_node g)) 0 = false) by (apply Rgtb_false; exact Hm0).
      rewrite E, andb_false_r, Hv0. reflexivity. }
    rewrite E, handle_no_approach; simpl; [reflexivity | lra].
Qed.

Lemma step456_node (g : GridNode) :
  let g5 := step45_node delta_t n g in
  let g' := g_with_node g5 (set_velocity (g_node g5) (n + 1) (velocity_star (g_node g5))) in
  position (g_node g') = position (g_node g) /\
  mass (g_node g') = mass (g_node g) /\
  velocity (g_node g') n = velocity (g_node g) n /\
  velocity (g_node g') (n + 1) = velocity_star (g_node g') /\
  location g' = location g /\ density0 g' = density0 g /\ force g' = force g /\
  (vz (position (g_node g)) <= 0.1 -> 0 <= vz (velocity (g_node g') (n + 1))) /\
  (mass (g_node g) <= 0 -> velocity (g_node g) n = vzero ->
   velocity (g_node g') (n + 1) = vzero).
Proof.
  cbv zeta.
  destruct (step45_node_fields g) as (Hp & Hm & Hv & Hl & Hd & Hf & Hc & Hz).
  cbv zeta in *. cbn [g_node g_with_node location density0 force].
  rewrite velocity_set_same, velocity_set_next.
  match goal with
  | |- context [set_velocity ?nd (n + 1) ?v] =>
      destruct (set_velocity_fields nd (n + 1) v) as (-> & -> & ->)
  end.
  rewrite Hp, Hm, Hv. repeat split; auto.
Qed.

Lemma step6_step45 (gs : list GridNode) :
  step6 n (step45 delta_t n gs) =
  map (fun g => g_with_node (step45_node delta_t n g)
                  (set_velocity (g_node (step45_node delta_t n g)) (n + 1)
                     (velocity_star (g_node (step45_node delta_t n g))))) gs.
Proof.
  unfold step6. rewrite map_combine_self. unfold step45. rewrite map_map.
  reflexivity.
Qed.

Lemma normalize_node_fields (g : GridNode) :
  position (g_node (normalize_node n g)) = position (g_node g) /\
  mass (g_node (normalize_node n g)) = mass (g_node g) /\
  velocity_star (g_node (normalize_node n g)) = velocity_star (g_node g) /\
  velocity (g_node (normalize_node n g)) (n + 1) = velocity (g_node g) (n + 1) /\
  location (normalize_node n g) = location g /\
  density0 (normalize_node n g) = density0 g /\
  force (normalize_node n g) = force g.
Proof.
  unfold normalize_node.
  destruct (_ && _); simpl; rewrite velocity_set_other;
    match goal with
    | |- context [set_velocity ?nd n ?v] =>
        destruct (set_velocity_fields nd n v) as (-> & -> & ->)
    end; auto 10.
Qed.

Lemma clear_node_fields (g : GridNode) :
  let g' := g_with_node g (set_velocity (set_mass (g_node g) 0) n vzero) in
  position (g_node g') = position (g_node g) /\
  velocity_star (g_node g') = velocity_star (g_node g) /\
  velocity (g_node g') (n + 1) = velocity (g_node g) (n + 1) /\
  location g' = location g /\ density0 g' = density0 g /\ force g' = force g.
Proof.
  cbv zeta. simpl. rewrite velocity_set_other.
  destruct (set_velocity_fields (set_mass (g_node g) 0) n vzero) as (-> & -> & _).
  simpl. auto 10.
Qed.

(** The grid a tick leaves, node by node against the grid it found. *)
Lemma update_grid_frame (s' : SnowSolver) :
  update svd idx s delta_t n = Some s' ->
  Forall2 (fun g g' => position (g_node g') = position (g_node g) /\
                       location g' = location g /\
                       (n <> 0%nat -> density0 g' = density0 g))
          (gridNodes s) (gridNodes s').
Proof.
  intros H. apply update_steps in H.
  destruct H as (acc & gs2 & ps2 & gs3 & ps' & H1 & H2 & H3 & _ & ->).
  simpl. rewrite step6_step45.
  set (R := fun g g' : GridNode =>
              position (g_node g') = position (g_node g) /\
              location g' = location g /\
              (n <> 0%nat -> density0 g' = density0 g)).
  assert (Rt : forall a b c, R a b -> R b c -> R a c).
  { intros a b c (A1 & A2 & A3) (B1 & B2 & B3). unfold R.
    repeat split; try congruence. intros Hn. rewrite B3, A3; auto. }
  apply (Forall2_chain R _ (step1_clear n (gridNodes s)) _ Rt).
  { unfold step1_clear. apply Forall2_map_self. intros g.
    destruct (clear_node_fields g) as (Hp & _ & _ & Hl & Hd & _).
    unfold R. auto. }
  apply (Forall2_chain R _ acc _ Rt).
  { eapply Forall2_weaken; [| apply (step1_rasterize_frame _ _ _ H1)].
    intros a b (Hp & Hl & Hd & _). unfold R. auto. }
  apply (Forall2_chain R _ (step1_normalize n acc) _ Rt).
  { unfold step1_normalize. apply Forall2_map_self. intros g.
    destruct (normalize_node_fields g) as (Hp & _ & _ & _ & Hl & Hd & _).
    unfold R. auto. }
  apply (Forall2_chain R _ gs2 _ Rt).
  { eapply Forall2_weaken; [| apply (step2_grid _ _ _ _ H2)].
    intros a b (Hn & Hl & _ & Hd). unfold R. rewrite Hn. auto. }
  apply (Forall2_chain R _ (step3_gravity gs2) _ Rt).
  { unfold step3_gravity. apply Forall2_map_self. intros g. unfold R. simpl. auto. }
  apply (Forall2_chain R _ gs3 _ Rt).
  { eapply Forall2_weaken; [| apply (step3_forces_frame _ _ _ H3)].
    intros a b (Hn & Hl & Hd). unfold R. rewrite Hn. auto. }
  apply Forall2_map_self. intros g.
  destruct (step456_node g) as (Hp & _ & _ & _ & Hl & Hd & _).
  cbv zeta in *. unfold R. auto.
Qed.

(** The grid a tick leaves: what holds of each of its nodes. *)
Lemma update_final_grid (s' : SnowSolver) :
  update svd idx s delta_t n = Some s' ->
  Forall (fun g' =>
            velocity (g_node g') (n + 1) = velocity_star (g_node g') /\
            (vz (position (g_node g')) <= 0.1 ->
             0 <= vz (velocity (g_node g') (n + 1))) /\
            (mass (g_node g') <= 0 ->
             velocity (g_node g') n = vzero /\
             velocity (g_node g') (n + 1) = vzero))
         (gridNodes s').
Proof.
  intros H. apply update_steps in H.
  destruct H as (acc & gs2 & ps2 & gs3 & ps' & H1 & H2 & H3 & _ & ->).
  simpl. rewrite step6_step45.
  set (P := fun g : GridNode => mass (g_node g) <= 0 -> velocity (g_node g) n = vzero).
  assert (P1 : Forall P (step1_normalize n acc)).
  { unfold step1_normalize. apply Forall_map. apply Forall_forall. intros g _.
    unfold P. destruct (normalize_node_fields g) as (_ & -> & _).
    rewrite normalize_node_velocity. intros Hm.
    apply Rgtb_false in Hm. rewrite Hm. reflexivity. }
  assert (P2 : Forall P gs2).
  { refine (Forall2_Forall_r P P _ _ _ _ P1 (step2_grid _ _ _ _ H2)).
    intros a b Ha (Hn & _). unfold P in *. rewrite Hn. exact Ha. }
  assert (P3 : Forall P gs3).
  { assert (Pg : Forall P (step3_gravity gs2)).
    { unfold step3_gravity. apply Forall_map.
      eapply Forall_impl; [| exact P2]. intros g Hg. exact Hg. }
    refine (Forall2_Forall_r P P _ _ _ _ Pg (step3_forces_frame _ _ _ H3)).
    intros a b Ha (Hn & _). unfold P in *. rewrite Hn. exact Ha. }
  apply Forall_map. eapply Forall_impl; [| exact P3].
  intros g Hg. unfold P in Hg.
  destruct (step456_node g) as (Hp & Hm & Hv & Hs & _ & _ & _ & Hc & Hz).
  cbv zeta in *. rewrite Hp, Hm, Hv.
  repeat split; auto.
Qed.

(** What steps 7 to 10 make of a particle. *)
Lemma particle_update_fields (gs : list GridNode) (p p' : ParticleNode) :
  particle_update svd idx s delta_t n gs p = Some p' ->
  mass (p_node p') = mass (p_node p) /\
  volume0 p' = volume0 p /\
  velocity (p_node p') n = velocity (p_node p) n /\
  velocity (p_node p') (n + 1) = velocity_star (p_node p') /\
  position (p_node p') =
    vadd (position (p_node p)) (vscale delta_t (velocity (p_node p') (n + 1))) /\
  (vz (position (p_node p)) <= 0.1 -> 0 <= vz (velocity (p_node p') (n + 1))).
Proof.
  unfold particle_update. intros H.
  apply bind_Some in H. destruct H as (p7 & H7 & H8).
  unfold step7 in H7. apply bind_Some in H7. destruct H7 as (nv & _ & H7).
  injection H7 as <-.
  unfold step8910 in H8. apply bind_Some in H8. destruct H8 as (acc & _ & H8).
  injection H8 as <-.
  cbn [p_node p_with_node p_with_deform volume0].
  match goal with
  | |- context [handleNodeCollisionVelocityUpdate ?x] => set (nd0 := x)
  end.
  set (nd1 := handleNodeCollisionVelocityUpdate nd0).
  destruct (set_velocity_fields nd1 (n + 1) (velocity_star nd1)) as (Hp2 & Hs2 & Hm2).
  assert (Hp1 : position nd1 = position (p_node p))
    by (unfold nd1; rewrite handle_position; reflexivity).
  assert (Hm1 : mass nd1 = mass (p_node p)).
  { unfold nd1. destruct (handle_other_fields nd0) as (_ & _ & ->). reflexivity. }
  assert (Hv1 : velocity nd1 n = velocity (p_node p) n)
    by (unfold nd1; rewrite handle_velocity; reflexivity).
  unfold set_position. cbn [mass position velocity_star].
  assert (Hvel : forall k x,
            velocity (mkNode x (velocity_even (set_velocity nd1 (n + 1) (velocity_star nd1)))
                        (velocity_odd (set_velocity nd1 (n + 1) (velocity_star nd1)))
                        (velocity_star (set_velocity nd1 (n + 1) (velocity_star nd1)))
                        (mass (set_velocity nd1 (n + 1) (velocity_star nd1)))) k
            = velocity (set_velocity nd1 (n + 1) (velocity_star nd1)) k)
    by reflexivity.
  rewrite !Hvel, velocity_set_next, velocity_set_same, Hp2, Hs2, Hm2, Hp1, Hm1, Hv1.
  repeat split; auto.
  intros Hc. apply handle_normal_nonneg. exact Hc.
Qed.

(** The particles a tick leaves, one by one against those it found. *)
Lemma update_particle_frame (s' : SnowSolver) :
  update svd idx s delta_t n = Some s' ->
  Forall2 (fun p p' =>
             mass (p_node p') = mass (p_node p) /\
             (n <> 0%nat -> volume0 p' = volume0 p) /\
             velocity (p_node p') n = velocity (p_node p) n /\
             velocity (p_node p') (n + 1) = velocity_star (p_node p') /\
             position (p_node p') =
               vadd (position (p_node p))
                    (vscale delta_t (velocity (p_node p') (n + 1))) /\
             (vz (position (p_node p)) <= 0.1 ->
              0 <= vz (velocity (p_node p') (n + 1))))
          (particleNodes s) (particleNodes s').
Proof.
  intros H. apply update_steps in H.
  destruct H as (acc & gs2 & ps2 & gs3 & ps' & _ & H2 & _ & Hps & ->).
  simpl. apply mapM_Forall2 in Hps.
  pose proof (Forall2_compose _ _ _ _ _ (step2_particles _ _ _ _ H2) Hps) as Hc.
  eapply Forall2_weaken; [| exact Hc].
  intros p p' (p2 & (Hn & _ & _ & Hvol) & Hp).
  apply particle_update_fields in Hp.
  destruct Hp as (Hm & Hv0 & Hv & Hs & Hpos & Hz).
  rewrite Hn in *. repeat split; auto.
  intros Hne. rewrite Hv0. auto.
Qed.

End TickFrames.

(** ** Properties of a whole tick *)

Section TickProperties.

Variable svd : dmat3 -> dmat3 * dvec3 * dmat3.
Variable idx : SnowSolver -> coord -> Z.
Variable s : SnowSolver.
Variable dt : R.
Variable n : nat.

Hypothesis in_range : index_in_range idx s (gridNodes s).
Hypothesis first_tick_windows :
  n = 0%nat ->
  Forall (fun p => forall c, In c (window s p) -> isValidGridNode s c = true)
         (particleNodes s).

(** X4.  A tick leaves the grid where it is: as many nodes, each at its
    position and with its location, and after the first tick with its
    [density0]; so the index still maps into the array, the nodes still
    sit on their lattice points, and the scalar parameters are those of
    before. *)
Theorem tick_keeps_grid_geometry :
  exists s', update svd idx s dt n = Some s' /\
    length (gridNodes s') = length (gridNodes s) /\
    Forall2 (fun g g' => position (g_node g') = position (g_node g) /\
                         location g' = location g /\
                         (n <> 0%nat -> density0 g' = density0 g))
            (gridNodes s) (gridNodes s') /\
    index_in_range idx s (gridNodes s') /\
    (nodes_on_lattice idx s (gridNodes s) -> nodes_on_lattice idx s (gridNodes s')) /\
    h s' = h s /\ size s' = size s /\ delta_t s' = delta_t s /\
    alpha s' = alpha s /\ mu0 s' = mu0 s /\ lambda0 s' = lambda0 s /\
    criticalCompression s' = criticalCompression s /\
    criticalStretch s' = criticalStretch s.
Proof.
  destruct (update_total svd idx s dt n in_range first_tick_windows) as [s' Hs'].
  exists s'. split; [exact Hs' |].
  pose proof (update_grid_frame svd idx s dt n s' Hs') as HF.
  assert (Hl : length (gridNodes s') = length (gridNodes s))
    by (symmetry; eapply Forall2_length; exact HF).
  split; [exact Hl |]. split; [exact HF |].
  split; [eapply index_in_range_length; eassumption |].
  split.
  - intros Hn c Hv. destruct (Hn c Hv) as (g & Hg & Hp).
    destruct (Forall2_at_index _ _ _ _ _ HF Hg) as (g' & Hg' & Hp' & _).
    exists g'. split; [exact Hg' | congruence].
  - apply update_steps in Hs'.
    destruct Hs' as (acc & gs2 & ps2 & gs3 & ps' & _ & _ & _ & _ & ->).
    simpl. auto 10.
Qed.

(** X5.  A tick keeps the particles: as many as before, each with its mass
    and its velocity at time n, and after the first tick with its
    [volume0]. *)
Theorem tick_keeps_particle_mass :
  exists s', update svd idx s dt n = Some s' /\
    length (particleNodes s') = length (particleNodes s) /\
    Forall2 (fun p p' => mass (p_node p') = mass (p_node p) /\
                         velocity (p_node p') n = velocity (p_node p) n /\
                         (n <> 0%nat -> volume0 p' = volume0 p))
            (particleNodes s) (particleNodes s').
Proof.
  destruct (update_total svd idx s dt n in_range first_tick_windows) as [s' Hs'].
  exists s'. split; [exact Hs' |].
  pose proof (update_particle_frame svd idx s dt n s' Hs') as HF.
  split; [symmetry; eapply Forall2_length; exact HF |].
  eapply Forall2_weaken; [| exact HF].
  intros p p' (Hm & Hv & Hv0 & _). auto.
Qed.

(** X6.  A tick moves every particle by the time step times its new
    velocity, which is its [velocity_star] after the collision; a
    particle that starts in the contact zone of the floor gets no
    downward velocity, so with a non-negative time step it does not
    sink. *)
Theorem tick_advects_particles :
  exists s', update svd idx s dt n = Some s' /\
    Forall2 (fun p p' =>
               velocity (p_node p') (n + 1) = velocity_star (p_node p') /\
               position (p_node p') =
                 vadd (position (p_node p))
                      (vscale dt (velocity (p_node p') (n + 1))) /\
               (vz (position (p_node p)) <= 0.1 ->
                0 <= vz (velocity (p_node p') (n + 1)) /\
                (0 <= dt -> vz (position (p_node p)) <= vz (position (p_node p')))))
            (particleNodes s) (particleNodes s').
Proof.
  destruct (update_total svd idx s dt n in_range first_tick_windows) as [s' Hs'].
  exists s'. split; [exact Hs' |].
  pose proof (update_particle_frame svd idx s dt n s' Hs') as HF.
  eapply Forall2_weaken; [| exact HF].
  intros p p' (_ & _ & _ & Hs & Hp & Hz).
  split; [exact Hs |]. split; [exact Hp |].
  intros Hc. specialize (Hz Hc). split; [exact Hz |].
  intros Hdt. rewrite Hp. unfold vadd, vscale; simpl. nra.
Qed.

(** X7.  After a tick every grid node has its [velocity_star] as velocity at
    time n + 1, and no node in the contact zone of the floor has a
    downward one. *)
Theorem tick_grid_floor_velocity :
  exists s', update svd idx s dt n = Some s' /\
    Forall (fun g' =>
              velocity (g_node g') (n + 1) = velocity_star (g_node g') /\
              (vz (position (g_node g')) <= 0.1 ->
               0 <= vz (velocity (g_node g') (n + 1))))
           (gridNodes s').
Proof.
  destruct (update_total svd idx s dt n in_range first_tick_windows) as [s' Hs'].
  exists s'. split; [exact Hs' |].
  pose proof (update_final_grid svd idx s dt n s' Hs') as HF.
  eapply Forall_impl; [| exact HF].
  intros g (H1 & H2 & _). auto.
Qed.

(** X8.  After a tick a grid node without mass is at rest: its velocities at
    time n and n + 1 are zero, whatever force step 3 left on it. *)
Theorem tick_massless_nodes_at_rest :
  exists s', update svd idx s dt n = Some s' /\
    Forall (fun g' =>
              mass (g_node g') <= 0 ->
              velocity (g_node g') n = vzero /\
              velocity (g_node g') (n + 1) = vzero /\
              velocity_star (g_node g') = vzero)
           (gridNodes s').
Proof.
  destruct (update_total svd idx s dt n in_range first_tick_windows) as [s' Hs'].
  exists s'. split; [exact Hs' |].
  pose proof (update_final_grid svd idx s dt n s' Hs') as HF.
  eapply Forall_impl; [| exact HF].
  intros g (H1 & _ & H3) Hm. destruct (H3 Hm) as [Hv Hv1].
  repeat split; auto. congruence.
Qed.

End TickProperties.

(** ** Step 1 on particles that move together *)

Section Uniform.

Variable idx : SnowSolver -> coord -> Z.
Variable s : SnowSolver.
Variable n : nat.
Variable u : dvec3.

Lemma rasterize_uniform (ps : list ParticleNode) (gs acc : list GridNode) :
  Forall (fun p => velocity (p_node p) n = u) ps ->
  step1_rasterize idx s n ps gs = Some acc ->
  Forall (fun g => velocity (g_node g) n = vscale (mass (g_node g)) u) gs ->
  Forall (fun g => velocity (g_node g) n = vscale (mass (g_node g)) u) acc.
Proof.
  intros Hu H HP.
  set (P := fun g : GridNode => velocity (g_node g) n = vscale (mass (g_node g)) u).
  refine (Forall2_Forall_r P P (fun g g' => P g -> P g') _ _ _ HP _).
  { intros a b Ha Hab. exact (Hab Ha). }
  unfold step1_rasterize, rasterize_at in H.
  apply (modify_particles_Forall2 idx s (fun g g' => P g -> P g'))
    with (upd := rasterize_node s n) (ps := ps); auto.
  intros p Hp g Hg. unfold P in *.
  rewrite Forall_forall in Hu. specialize (Hu p Hp).
  unfold rasterize_node. cbn [g_node g_with_node].
  rewrite velocity_set_same.
  match goal with
  | |- context [mass (set_velocity ?nd n ?v)] =>
      destruct (set_velocity_fields nd n v) as (_ & _ & ->)
  end.
  cbn [mass set_mass].
  assert (E : velocity (set_mass (g_node g) (mass (g_node g)
                                  + mass (p_node p) * weight s g p)) n
              = velocity (g_node g) n) by reflexivity.
  rewrite E, Hg, Hu.
  destruct u as [a b c]. unfold vadd, vscale; simpl. f_equal; ring.
Qed.

(** X9.  When all the particles have the same velocity at time n, step 1
    gives that velocity to every grid node that received mass, and the
    zero velocity to the others. *)
Theorem p2g_uniform_velocity (ps : list ParticleNode) (gs : list GridNode) :
  index_in_range idx s gs ->
  Forall (fun p => velocity (p_node p) n = u) ps ->
  exists gs1, step1 idx s n ps gs = Some gs1 /\
    Forall (fun g => (mass (g_node g) > 0 -> velocity (g_node g) n = u) /\
                     (mass (g_node g) <= 0 -> velocity (g_node g) n = vzero))
           gs1.
Proof.
  intros Hr Hu.
  destruct (step1_total idx s n ps gs Hr) as (gs1 & H1 & _).
  exists gs1. split; [exact H1 |].
  unfold step1 in H1. apply bind_Some in H1. destruct H1 as (acc & Hacc & H1).
  injection H1 as <-.
  assert (HP : Forall (fun g => velocity (g_node g) n = vscale (mass (g_node g)) u) acc).
  { apply (rasterize_uniform ps _ _ Hu Hacc).
    unfold step1_clear. apply Forall_map. apply Forall_forall. intros g _.
    cbn [g_node g_with_node]. rewrite velocity_set_same.
    destruct (set_velocity_fields (set_mass (g_node g) 0) n vzero) as (_ & _ & ->).
    simpl. unfold vscale, vzero. f_equal; ring. }
  unfold step1_normalize. apply Forall_map.
  eapply Forall_impl; [| exact HP]. intros g Hg.
  rewrite normalize_node_velocity.
  assert (Hm : mass (g_node (normalize_node n g)) = mass (g_node g)).
  { unfold normalize_node. destruct (_ && _); simpl; apply set_velocity_fields. }
  rewrite Hm. split; intros Hmass.
  - apply Rgtb_true in Hmass. rewrite Hmass, Hg.
    apply Rgtb_true in Hmass.
    destruct u as [a b c]. unfold vdiv, vscale; simpl. f_equal; field; lra.
  - apply Rgtb_false in Hmass. rewrite Hmass. reflexivity.
Qed.

End Uniform.

(** ** The implicit operator, further *)


Section Operator.

Variable svd : dmat3 -> dmat3 * dvec3 * dmat3.
Variable idx : SnowSolver -> coord -> Z.
Variable s : SnowSolver.




(** X12.  Without particles the operator is the identity. *)
Theorem implicit_operator_no_particles (v : list dvec3) :
  particleNodes s = [] -> length v = length (gridNodes s) ->
  implicitVelocityIntegrationMatrix svd idx s v = Some v.
Proof.
  unfold implicitVelocityIntegrationMatrix, implicitBody. cbv zeta.
  intros Hp Hl. rewrite Hp. apply Nat.eqb_eq in Hl. rewrite Hl. simpl.
  apply Nat.eqb_eq in Hl. f_equal.
  revert Hl. generalize (gridNodes s) as gs. clear.
  induction v as [| x v IH]; intros [| g gs] Hl; simpl in *; try discriminate;
    [reflexivity |].
  f_equal; [| apply IH; lia].
  destruct (Rgtb (mass (g_node g)) 0); [| reflexivity].
  destruct x as [a b c]. unfold vsub, vdiv, vscale, vzero; simpl.
  f_equal; unfold Rdiv; ring.
Qed.

End Operator.


Lemma at_index_In {A : Type} (l : list A) (i : Z) (a : A) :
  at_index l i = Some a -> In a l.
Proof.
  unfold at_index. destruct (i <? 0)%Z; [discriminate |]. apply nth_error_In.
Qed.

Section Gathers.

Variable idx : SnowSolver -> coord -> Z.
Variable s : SnowSolver.
Variable n : nat.

(** A guarded loop whose body leaves the accumulator alone on the nodes
    of the grid returns the accumulator. *)
Lemma foldM_guarded_fixed {A : Type} (gs : list GridNode)
    (body : coord -> GridNode -> A -> option A) (a : A) (l : list coord) :
  index_in_range idx s gs ->
  (forall c g, In g gs -> body c g a = Some a) ->
  foldM (guarded idx s gs body) l a = Some a.
Proof.
  intros Hr Hb. induction l as [| c l IH]; simpl; [reflexivity |].
  unfold guarded at 1. destruct (isValidGridNode s c) eqn:Hv; simpl; [| exact IH].
  destruct (gridNode_valid idx s gs c Hr Hv) as [g Hg]. rewrite Hg. simpl.
  rewrite (Hb c g (at_index_In _ _ _ Hg)). simpl. exact IH.
Qed.

(** X13.  On a grid at rest at time n + 1, step 7 finds no velocity
    gradient, and the matrix it multiplies the elastic deformation by
    is the identity. *)
Theorem resting_grid_no_gradient (gs : list GridNode) (p : ParticleNode) :
  index_in_range idx s gs ->
  Forall (fun g => velocity (g_node g) (n + 1) = vzero) gs ->
  velocity_gradient idx s n gs p = Some mzero /\
  forall dt, multiplier dt mzero = midentity.
Proof.
  intros Hr Hz. split.
  - unfold velocity_gradient, nabla_v_at.
    apply foldM_guarded_fixed; [exact Hr |].
    intros c g Hg. rewrite Forall_forall in Hz. rewrite (Hz g Hg).
    f_equal. generalize (nabla_weight s g p). intros w. vec_ring.
  - intros dt. unfold multiplier. vec_unfold. repeat f_equal; ring.
Qed.

(** X14.  On a grid whose velocities did not change from time n to n + 1,
    with [alpha = 1] (pure FLIP), a particle above the contact zone of
    the floor keeps its velocity and moves in a straight line. *)
Theorem flip_on_steady_grid (dt : R) (gs : list GridNode) (p : ParticleNode) :
  index_in_range idx s gs ->
  Forall (fun g => velocity (g_node g) (n + 1) = velocity (g_node g) n) gs ->
  alpha s = 1 ->
  vz (position (p_node p)) > 0.1 ->
  exists p', step8910 idx s dt n gs p = Some p' /\
    velocity (p_node p') (n + 1) = velocity (p_node p) n /\
    position (p_node p') =
      vadd (position (p_node p)) (vscale dt (velocity (p_node p) n)) /\
    deformElastic p' = deformElastic p /\ deformPlastic p' = deformPlastic p.
Proof.
  intros Hr Hs Ha Hz.
  assert (Hfold : exists v_pic,
            foldM (pic_flip_at idx s n gs p) (window s p) (vzero, velocity (p_node p) n)
            = Some (v_pic, velocity (p_node p) n)).
  { generalize (window s p) as l. generalize vzero as a0.
    intros a0 l. revert a0. induction l as [| c l IH]; intros a0; simpl; [eauto |].
    unfold pic_flip_at at 1, guarded.
    destruct (isValidGridNode s c) eqn:Hv; simpl; [| apply IH].
    destruct (gridNode_valid idx s gs c Hr Hv) as [g Hg]. rewrite Hg. simpl.
    rewrite Forall_forall in Hs. rewrite (Hs g (at_index_In _ _ _ Hg)).
    replace (vadd (velocity (p_node p) n)
               (vscale (weight s g p) (vsub (velocity (g_node g) n) (velocity (g_node g) n))))
      with (velocity (p_node p) n).
    - apply IH.
    - generalize (weight s g p), (velocity (g_node g) n), (velocity (p_node p) n).
      intros w a b. vec_ring. }
  destruct Hfold as [v_pic Hfold].
  unfold step8910. rewrite Hfold. cbn [bind fst snd]. rewrite Ha.
  eexists. split; [reflexivity |].
  match goal with
  | |- context [handleNodeCollisionVelocityUpdate ?x] => set (nd0 := x)
  end.
  assert (Hh : handleNodeCollisionVelocityUpdate nd0 = nd0).
  { unfold handleNodeCollisionVelocityUpdate.
    destruct (Rle_dec (vz (position nd0)) 0.1) as [Hc | _]; [| reflexivity].
    exfalso. unfold nd0 in Hc. simpl in Hc. lra. }
  rewrite Hh.
  assert (Hstar : velocity_star nd0 = velocity (p_node p) n).
  { unfold nd0. simpl. generalize (velocity (p_node p) n). intros v.
    destruct v, v_pic. unfold vadd, vscale; simpl. f_equal; ring. }
  cbn [p_node p_with_node deformElastic deformPlastic].
  unfold set_position. cbn [position].
  assert (Hvel : forall k x nd, velocity (mkNode x (velocity_even nd) (velocity_odd nd)
                                           (velocity_star nd) (mass nd)) k
                                = velocity nd k) by reflexivity.
  rewrite !Hvel, velocity_set_same, Hstar.
  destruct (set_velocity_fields nd0 (n + 1) (velocity (p_node p) n)) as (-> & _).
  repeat split.
Qed.

End Gathers.

(** ** The polar decomposition *)

Lemma transpose_diag (a b c : R) :
  transpose (dmat3_9 a 0 0 0 b 0 0 0 c) = dmat3_9 a 0 0 0 b 0 0 0 c.
Proof. reflexivity. Qed.

(** X15.  When the SVD routine returns orthogonal factors [u], [v] and values
    [e] with [m = u * diag e * v^T], [polarDecompose] returns an
    orthogonal [r] and a symmetric [s] with [r * s = m], and [polarRot]
    returns the same [r]. *)
Theorem polar_decomposition_factors (svd : dmat3 -> dmat3 * dvec3 * dmat3) (m : dmat3) :
  (let '(u, e, v) := svd m in
   orthogonal u /\ orthogonal v /\
   m = mmul (mmul u (dmat3_9 (vx e) 0 0 0 (vy e) 0 0 0 (vz e))) (transpose v)) ->
  orthogonal (fst (polarDecompose svd m)) /\
  symmetric (snd (polarDecompose svd m)) /\
  mmul (fst (polarDecompose svd m)) (snd (polarDecompose svd m)) = m /\
  polarRot svd m = fst (polarDecompose svd m).
Proof.
  unfold polarDecompose, polarRot.
  destruct (svd m) as [[u e] v]. intros ((Hu1 & Hu2) & (Hv1 & Hv2) & Hm).
  cbn [fst snd]. repeat split.
  - rewrite transpose_mmul, transpose_involutive, !mmul_assoc.
    rewrite <- (mmul_assoc (transpose u)), Hu1, mmul_id_l. exact Hv2.
  - rewrite transpose_mmul, transpose_involutive, !mmul_assoc.
    rewrite <- (mmul_assoc (transpose v)), Hv1, mmul_id_l. exact Hu2.
  - unfold symmetric.
    rewrite !transpose_mmul, transpose_involutive, transpose_diag, mmul_assoc.
    reflexivity.
  - rewrite Hm. rewrite !mmul_assoc.
    rewrite <- (mmul_assoc (transpose v) v), Hv1, mmul_id_l. reflexivity.
Qed.

(** ** The differential of the determinant *)

(** X16.  [del_je], the double contraction of the cofactor matrix
    [je * transpose (inverse F)] with [dF], is the first-order change of
    the determinant: [det (F + t dF)] is [det F + t * del_je] up to terms
    in [t^2] and [t^3]. *)
Theorem del_je_first_order (f df : dmat3) :
  determinant f <> 0 ->
  exists q2 q3, forall t,
    determinant (madd f (mscale t df)) =
    determinant f
    + t * ddot (mscale (determinant f) (transpose (inverse f))) df
    + t * t * q2 + t * t * t * q3.
Proof.
  intros Hd.
  exists (determinant (madd f df) - determinant f
          - ddot (mscale (determinant f) (transpose (inverse f))) df
          - determinant df),
         (determinant df).
  intros t. revert Hd.
  destruct f as [[a0 a1 a2] [b0 b1 b2] [c0 c1 c2]].
  destruct df as [[x0 x1 x2] [y0 y1 y2] [z0 z1 z2]].
  unfold ddot, inverse, determinant. vec_unfold. intros Hd.
  field. exact Hd.
Qed.

(** ** The force differential is linear *)

Lemma unweightedDelForce_from svd s dt p o :
  unweightedDelForce svd s dt p o =
  del_force_from svd s p (mmul (mscale dt o) (deformElastic p)).
Proof. reflexivity. Qed.

Lemma del_force_from_linear svd s p (a b : R) (d1 d2 : dmat3) :
  del_force_from svd s p (madd (mscale a d1) (mscale b d2)) =
  madd (mscale a (del_force_from svd s p d1)) (mscale b (del_force_from svd s p d2)).
Proof.
  unfold del_force_from. cbv zeta.
  generalize (polarDecompose svd (deformElastic p)) as rs. intros [r sm].
  cbn [fst snd].
  generalize (inverse (dmat3_9 (mget sm 0 0 + mget sm 1 1) (mget sm 1 2)
                (- mget sm 0 2) (mget sm 2 1) (mget sm 0 0 + mget sm 2 2) (mget sm 1 0)
                (- mget sm 0 2) (mget sm 0 1) (mget sm 1 1 + mget sm 2 2))) as iv.
  generalize (mscale (determinant (deformElastic p))
                (transpose (inverse (deformElastic p)))) as cof.
  generalize (exp (hardeningCoefficient s * (1 - determinant (deformPlastic p)))) as e.
  generalize (determinant (deformElastic p)) as je.
  generalize (transpose (deformElastic p)) as fet. generalize (volume0 p) as vol.
  generalize (mu0 s) as m0. generalize (lambda0 s) as l0.
  clear. intros.
  destruct fet as [[? ? ?] [? ? ?] [? ? ?]], cof as [[? ? ?] [? ? ?] [? ? ?]],
           iv as [[? ? ?] [? ? ?] [? ? ?]], r as [[? ? ?] [? ? ?] [? ? ?]],
           d1 as [[? ? ?] [? ? ?] [? ? ?]], d2 as [[? ? ?] [? ? ?] [? ? ?]].
  unfold del_cofactor, ddot. vec_unfold.
  f_equal; f_equal; ring.
Qed.


(** X17.  The force differential of a particle is linear in the sum of outer
    products it is computed from, and proportional to the time step. *)
Theorem del_force_linear (svd : dmat3 -> dmat3 * dvec3 * dmat3) (s : SnowSolver)
    (p : ParticleNode) (dt a b : R) (o1 o2 : dmat3) :
  unweightedDelForce svd s dt p (madd (mscale a o1) (mscale b o2)) =
  madd (mscale a (unweightedDelForce svd s dt p o1))
       (mscale b (unweightedDelForce svd s dt p o2)) /\
  unweightedDelForce svd s dt p o1 = mscale dt (unweightedDelForce svd s 1 p o1).
Proof.
  rewrite !unweightedDelForce_from. split.
  - rewrite <- del_force_from_linear. f_equal.
    generalize (deformElastic p). clear. vec_ring.
  - replace (mmul (mscale dt o1) (deformElastic p))
      with (madd (mscale dt (mmul (mscale 1 o1) (deformElastic p)))
                 (mscale 0 (mmul (mscale 1 o1) (deformElastic p))))
      by (generalize (deformElastic p); clear; vec_ring).
    rewrite del_force_from_linear.
    generalize (del_force_from svd s p (mmul (mscale 1 o1) (deformElastic p))).
    clear. vec_ring.
Qed.

(** ** The window of a particle *)

(** Away from the window of the specification, a valid node that the
    loops visit is at least two cells from the particle in some axis. *)
Lemma window_axis_far (x : R) (i : Z) :
  (0 <= i)%Z ->
  ((Zfloor x - 1 <= i <= Zfloor x + 2)%Z ->
   (trunc (x - 1) <= i <= trunc (x + 2))%Z) /\
  ((trunc (x - 1) <= i <= trunc (x + 2))%Z ->
   ~ (Zfloor x - 1 <= i <= Zfloor x + 2)%Z -> 2 <= Rabs (x - IZR i)).
Proof.
  intros Hi.
  assert (F1 : Zfloor (x - 1) = (Zfloor x - 1)%Z).
  { replace (x - 1) with (x + IZR (-1)) by (simpl; ring). apply Zfloor_addz. }
  assert (F2 : Zfloor (x + 2) = (Zfloor x + 2)%Z) by apply (Zfloor_addz 2 x).
  pose proof (Zfloor_le_Zceil (x - 1)) as C1.
  pose proof (Zfloor_le_Zceil (x + 2)) as C2.
  unfold trunc.
  destruct (Rle_dec 0 (x - 1)) as [H1 | H1];
    destruct (Rle_dec 0 (x + 2)) as [H2 | H2]; try lra.
  - rewrite F1, F2. split; [auto | intros; contradiction].
  - assert (Zceil (x - 1) <= 0)%Z by (apply Zceil_nonpos; lra).
    rewrite F2. split; [lia |]. intros Hin Hnot. exfalso. lia.
  - assert (Zceil (x - 1) <= 0)%Z by (apply Zceil_nonpos; lra).
    assert (Zceil (x + 2) <= 0)%Z by (apply Zceil_nonpos; lra).
    split; [lia |]. intros Hin Hnot.
    assert (i = 0%Z) by lia. subst i.
    simpl. rewrite Rabs_left by lra. lra.
Qed.

(** An integer less than two away from [x] is one of the four from
    [floor x - 1] to [floor x + 2]. *)
Lemma near_floor_window (x : R) (i : Z) :
  Rabs (x - IZR i) < 2 -> (Zfloor x - 1 <= i <= Zfloor x + 2)%Z.
Proof.
  intros H. apply Rabs_def2 in H. destruct H as [H1 H2].
  pose proof (Zfloor_bound x) as Hb.
  split.
  - assert (IZR (Zfloor x) - 2 < IZR i) by lra.
    rewrite <- (minus_IZR _ 2) in H. apply lt_IZR in H. lia.
  - assert (IZR i < IZR (Zfloor x) + 3) by lra.
    rewrite <- (plus_IZR _ 3) in H. apply lt_IZR in H. lia.
Qed.

(** X19.  The loops over the window skip no node near the particle: a valid
    coordinate that is less than two cells away from the particle in
    every axis is in the window. *)
Theorem window_covers_support (s : SnowSolver) (p : ParticleNode) (c : coord) :
  isValidGridNode s c = true ->
  let q := vdiv (position (p_node p)) (h s) in
  Rabs (vx q - IZR (cx c)) < 2 ->
  Rabs (vy q - IZR (cy c)) < 2 ->
  Rabs (vz q - IZR (cz c)) < 2 ->
  In c (window s p).
Proof.
  intros Hv. apply valid_coord_bounds in Hv. destruct Hv as ([Hx _] & [Hy _] & [Hz _]).
  cbv zeta. unfold window, gmin, gmax, ivec3.
  destruct (position (p_node p)) as [px py pz] eqn:Ep. simpl.
  rewrite !in_box. unfold cx, cy, cz in *. simpl.
  intros Dx Dy Dz.
  destruct (window_axis_far (px / h s) (fst (fst c)) Hx) as [Ax _].
  destruct (window_axis_far (py / h s) (snd (fst c)) Hy) as [Ay _].
  destruct (window_axis_far (pz / h s) (snd c) Hz) as [Az _].
  repeat split;
    first [apply Ax, near_floor_window, Dx
          | apply Ay, near_floor_window, Dy
          | apply Az, near_floor_window, Dz].
Qed.

(** ** The constructor *)

(** X20.  The constructor builds one node per grid point; the node of the
    coordinates (x, y, z) is stored at [(x * Ny + y) * Nz + z], carries
    these coordinates as its location and sits at [(x, y, z) * h]; no
    two coordinates share a place. *)
Theorem constructor_grid (s : SnowSolver) :
  length (new_gridNodes (h s) (size s)) =
    (fst (fst (size s)) * snd (fst (size s)) * snd (size s))%nat /\
  index_injective storage_index s /\
  forall c, isValidGridNode s c = true ->
    exists g, at_index (new_gridNodes (h s) (size s)) (storage_index s c) = Some g /\
      location g = c /\
      position (g_node g) = lattice_point s c.
Proof.
  split; [apply new_gridNodes_length |]. split; [apply storage_index_injective |].
  intros c Hv.
  destruct (storage_index_nat s c Hv) as [H0 Hn].
  pose proof (valid_coord_bounds s c Hv) as Hb.
  unfold at_index. destruct (storage_index s c <? 0)%Z eqn:E;
    [apply Z.ltb_lt in E; lia |].
  rewrite Hn. unfold new_gridNodes, size_x, size_y, size_z in *.
  destruct (size s) as [[nx ny] nz]; simpl fst in *; simpl snd in *.
  rewrite (nth_error_flat_map_seq _ (ny * nz)); try lia; try nia.
  2:{ intros x. rewrite (length_flat_map_seq _ nz); [reflexivity |].
      intros y. rewrite length_map, length_seq. reflexivity. }
  rewrite (nth_error_flat_map_seq _ nz); try lia.
  2:{ intros y. rewrite length_map, length_seq. reflexivity. }
  rewrite nth_error_map, nth_error_seq.
  destruct (Nat.ltb (Z.to_nat (cz c)) nz) eqn:Ez;
    [| apply Nat.ltb_ge in Ez; lia].
  simpl. eexists; split; [reflexivity |].
  simpl. unfold lattice_point. rewrite !Z2Nat.id by lia.
  destruct c as [[x y] z]. unfold cx, cy, cz. simpl.
  repeat split; auto.
Qed.

(** ** utils/viz-diff.h *)

Lemma uint_small (z : Z) : (0 <= z < 2 ^ 32)%Z -> uint z = z.
Proof. intros H. unfold uint. apply Z.mod_small, H. Qed.

(** X21.  For [0 <= startFrame < endFrame < 2^32] the frame that is loaded
    lies in [startFrame, endFrame); it is [startFrame + frame] while
    that is below [endFrame], and it repeats with period
    [endFrame - startFrame]. *)
Theorem wrappedFrame_in_range (startFrame endFrame frame : Z) :
  (0 <= startFrame < endFrame)%Z -> (endFrame < 2 ^ 32)%Z ->
  (0 <= frame < 2 ^ 32)%Z ->
  exists w, wrappedFrame startFrame endFrame frame = Some w /\
    (startFrame <= w < endFrame)%Z /\
    (frame < endFrame - startFrame -> w = startFrame + frame)%Z /\
    (frame + (endFrame - startFrame) < 2 ^ 32 ->
     wrappedFrame startFrame endFrame (frame + (endFrame - startFrame)) = Some w)%Z.
Proof.
  intros Hs He Hf. unfold wrappedFrame. cbv zeta.
  rewrite (uint_small (endFrame - startFrame)) by lia.
  destruct (endFrame - startFrame =? 0)%Z eqn:E; [apply Z.eqb_eq in E; lia |].
  pose proof (Z.mod_pos_bound frame (endFrame - startFrame)) as Hm.
  assert (Hm' : (0 <= frame mod (endFrame - startFrame) < endFrame - startFrame)%Z)
    by (apply Hm; lia).
  assert (Ep : ((frame + (endFrame - startFrame)) mod (endFrame - startFrame)
                = frame mod (endFrame - startFrame))%Z).
  { rewrite <- (Z.mul_1_l (endFrame - startFrame)) at 1.
    apply Z.mod_add. lia. }
  rewrite Ep.
  eexists. split; [reflexivity |].
  rewrite uint_small by lia.
  split; [lia |]. split; [| reflexivity].
  intros Hlt. rewrite Z.mod_small by lia. reflexivity.
Qed.

(** X22.  With [startFrame = endFrame] the remainder is taken by zero; with
    [endFrame < startFrame] the unsigned difference wraps around to
    [2^32 - (startFrame - endFrame)], and for the frames below it
    nothing is wrapped: the frame loaded is [startFrame + frame], beyond
    [endFrame]. *)
Theorem wrappedFrame_empty_range (startFrame endFrame frame : Z) :
  (0 <= endFrame <= startFrame)%Z -> (startFrame < 2 ^ 32)%Z ->
  (0 <= frame < 2 ^ 32)%Z ->
  (startFrame = endFrame -> wrappedFrame startFrame endFrame frame = None) /\
  (endFrame < startFrame -> frame < 2 ^ 32 - (startFrame - endFrame) ->
   wrappedFrame startFrame endFrame frame = Some (uint (startFrame + frame)))%Z.
Proof.
  intros He Hs Hf. unfold wrappedFrame. cbv zeta. split.
  - intros ->. rewrite Z.sub_diag. reflexivity.
  - intros Hlt Hfr.
    assert (Ed : uint (endFrame - startFrame) = (2 ^ 32 - (startFrame - endFrame))%Z).
    { unfold uint.
      replace (endFrame - startFrame)%Z
        with (2 ^ 32 - (startFrame - endFrame) + (-1) * 2 ^ 32)%Z by ring.
      rewrite Z.mod_add by lia. apply Z.mod_small. lia. }
    rewrite Ed.
    destruct (_ =? 0)%Z eqn:E; [apply Z.eqb_eq in E; lia |].
    rewrite Z.mod_small by lia. reflexivity.
Qed.

Module CliProps.
Import String Cli.
Local Open Scope string_scope.

Lemma find_In (r : list (string * Launcher)) (name : string) (l : Launcher) :
  find r name = Some l -> In (name, l) r.
Proof.
  induction r as [| [k v] r IH]; simpl; [discriminate |].
  destruct (String.eqb k name) eqn:E.
  - apply String.eqb_eq in E. intros H. injection H as <-. subst. auto.
  - auto.
Qed.

(** X23.  [main] calls a launcher exactly when there is a first argument
    that is a registered name, then the launcher registered under it
    and with the arguments unchanged; every other run leaves with
    status 1; without [USE_RENDERBOX] only the five launchers of the
    first block are ever called. *)
Theorem main_dispatch (USE_RENDERBOX : bool) (argv : list string) :
  (forall l a, snd (main USE_RENDERBOX argv) = Call l a <->
     a = argv /\ exists name, nth_error argv 1 = Some name /\
                              find (routines USE_RENDERBOX) name = Some l) /\
  (forall code, snd (main USE_RENDERBOX argv) = Exit code -> code = 1%Z) /\
  (forall l a, snd (main false argv) = Call l a ->
     In l [launchInfo; launchSimGenSnowball; launchSimGenSlab;
           launchSimScene0; launchSimScene1]).
Proof.
  assert (Hnth : forall av, (2 <= List.length av)%nat ->
            nth_error av 1 = Some (nth 1 av "")).
  { intros [| x [| y av]] H; simpl in *; try lia. reflexivity. }
  split; [| split].
  - intros l a. unfold main.
    destruct (List.length argv <? 2)%nat eqn:E.
    + cbn [snd]. split; [discriminate |].
      intros (_ & name & Hn & _). apply Nat.ltb_lt in E.
      assert (nth_error argv 1 = None) by (apply nth_error_None; lia). congruence.
    + apply Nat.ltb_ge in E. rewrite (Hnth argv E).
      destruct (find _ _) eqn:F; cbn [snd]; split.
      * intros H. injection H as <- <-. split; [reflexivity |]. eauto.
      * intros (-> & name & Hn & Hf). injection Hn as <-. congruence.
      * discriminate.
      * intros (_ & name & Hn & Hf). injection Hn as <-. congruence.
  - intros code. unfold main.
    destruct (List.length argv <? 2)%nat; cbn [snd].
    + intros H. injection H as <-. reflexivity.
    + destruct (find (routines USE_RENDERBOX) (nth 1 argv "")); cbn [snd]; intros H;
        [discriminate |].
      injection H as <-. reflexivity.
  - intros l a. unfold main.
    destruct (List.length argv <? 2)%nat; cbn [snd]; [discriminate |].
    destruct (find (routines false) (nth 1 argv "")) eqn:F; cbn [snd]; intros H;
      [| discriminate].
    injection H as <- _. apply find_In in F.
    change (routines false) with
      [("info", launchInfo); ("sim-gen-snowball", launchSimGenSnowball);
       ("sim-gen-slab", launchSimGenSlab); ("sim-scene0", launchSimScene0);
       ("sim-scene1", launchSimScene1)] in F.
    simpl in F. simpl.
    repeat (destruct F as [F | F]; [injection F as _ <-; tauto |]).
    contradiction.
Qed.

End CliProps.

(** ** The further properties at the sample states *)

Lemma inner_first_tick_windows :
  0%nat = 0%nat ->
  Forall (fun p => forall c, In c (window inner_solver p) ->
                             isValidGridNode inner_solver c = true)
         (particleNodes inner_solver).
Proof.
  intros _. constructor; [| constructor].
  intros c. apply window_inside_valid. exact inner_window_inside.
Defined.

Lemma new_gridNodes_at_rest (h0 : R) (size : nat * nat * nat) :
  Forall (fun g => forall k, velocity (g_node g) k = vzero) (new_gridNodes h0 size).
Proof.
  apply Forall_forall. intros g Hg. unfold new_gridNodes in Hg.
  apply in_flat_map in Hg. destruct Hg as (x & _ & Hg).
  apply in_flat_map in Hg. destruct Hg as (y & _ & Hg).
  apply in_map_iff in Hg. destruct Hg as (z & <- & _).
  intros k. unfold velocity. simpl. destruct (Nat.even k); reflexivity.
Defined.

Lemma collision_no_penetration_witness :
  vz (position floor_node) <= 0.1 /\
  0 <= vz (velocity_star (handleNodeCollisionVelocityUpdate floor_node)).
Proof.
  assert (Hc : vz (position floor_node) <= 0.1) by (simpl; lra).
  split; [exact Hc | exact (collision_no_penetration floor_node Hc)].
Defined.

Lemma tick_keeps_grid_geometry_witness :
  exists s', update svd_of_identity storage_index inner_solver 1e-5 0 = Some s' /\
    length (gridNodes s') = 64%nat /\ h s' = 1 /\ size s' = (4, 4, 4)%nat.
Proof.
  destruct (tick_keeps_grid_geometry svd_of_identity storage_index inner_solver 1e-5 0
              inner_index_in_range inner_first_tick_windows)
    as (s' & H & Hl & _ & _ & _ & Hh & Hs & _).
  exists s'. split; [exact H |]. split; [rewrite Hl; reflexivity |].
  split; [rewrite Hh; reflexivity | rewrite Hs; reflexivity].
Defined.

Lemma tick_keeps_particle_mass_witness :
  exists s', update svd_of_identity storage_index inner_solver 1e-5 0 = Some s' /\
    length (particleNodes s') = 1%nat.
Proof.
  destruct (tick_keeps_particle_mass svd_of_identity storage_index inner_solver 1e-5 0
              inner_index_in_range inner_first_tick_windows)
    as (s' & H & Hl & _).
  exists s'. split; [exact H | rewrite Hl; reflexivity].
Defined.

Lemma tick_advects_particles_witness :
  exists s', update svd_of_identity storage_index inner_solver 1e-5 0 = Some s' /\
    Forall2 (fun p p' => velocity (p_node p') 1 = velocity_star (p_node p'))
            (particleNodes inner_solver) (particleNodes s').
Proof.
  destruct (tick_advects_particles svd_of_identity storage_index inner_solver 1e-5 0
              inner_index_in_range inner_first_tick_windows)
    as (s' & H & HF).
  exists s'. split; [exact H |].
  eapply Forall2_weaken; [| exact HF]. intros p p' (Hv & _). exact Hv.
Defined.

Lemma tick_grid_floor_velocity_witness :
  exists s', update svd_of_identity storage_index inner_solver 1e-5 0 = Some s' /\
    Forall (fun g' => velocity (g_node g') 1 = velocity_star (g_node g'))
           (gridNodes s').
Proof.
  destruct (tick_grid_floor_velocity svd_of_identity storage_index inner_solver 1e-5 0
              inner_index_in_range inner_first_tick_windows)
    as (s' & H & HF).
  exists s'. split; [exact H |].
  eapply Forall_impl; [| exact HF]. intros g (Hv & _). exact Hv.
Defined.


Lemma implicit_operator_no_particles_witness :
  implicitVelocityIntegrationMatrix svd_of_identity storage_index empty_solver
    [mkVec 1 2 3] = Some [mkVec 1 2 3].
Proof.
  apply (implicit_operator_no_particles svd_of_identity storage_index empty_solver
           [mkVec 1 2 3]); reflexivity.
Defined.

Lemma resting_grid_no_gradient_witness :
  velocity_gradient storage_index inner_solver 0 (gridNodes inner_solver)
    (sample_particle (mkVec 1.5 1.5 1.5)) = Some mzero /\
  forall dt, multiplier dt mzero = midentity.
Proof.
  apply (resting_grid_no_gradient storage_index inner_solver 0
           (gridNodes inner_solver) (sample_particle (mkVec 1.5 1.5 1.5))).
  - exact inner_index_in_range.
  - eapply Forall_impl; [| exact (new_gridNodes_at_rest 1 (4, 4, 4)%nat)].
    intros g Hg. apply Hg.
Defined.

Lemma del_je_first_order_witness :
  exists q2 q3, forall t,
    determinant (madd midentity (mscale t midentity)) =
    determinant midentity
    + t * ddot (mscale (determinant midentity) (transpose (inverse midentity))) midentity
    + t * t * q2 + t * t * t * q3.
Proof.
  apply (del_je_first_order midentity midentity).
  unfold determinant. vec_unfold. simpl. lra.
Defined.

Lemma window_covers_support_witness :
  In (1, 1, 1)%Z (window inner_solver (sample_particle (mkVec 1.5 1.5 1.5))).
Proof.
  apply (window_covers_support inner_solver (sample_particle (mkVec 1.5 1.5 1.5))
           (1, 1, 1)%Z).
  - reflexivity.
  - unfold cx, cy, cz; simpl. apply Rabs_def1; lra.
  - unfold cx, cy, cz; simpl. apply Rabs_def1; lra.
  - unfold cx, cy, cz; simpl. apply Rabs_def1; lra.
Defined.

Lemma wrappedFrame_in_range_witness :
  exists w, wrappedFrame 0 10 25 = Some w /\
    (0 <= w < 10)%Z /\
    (25 < 10 - 0 -> w = 0 + 25)%Z /\
    (25 + (10 - 0) < 2 ^ 32 -> wrappedFrame 0 10 (25 + (10 - 0)) = Some w)%Z.
Proof.
  apply (wrappedFrame_in_range 0 10 25).
  - lia.
  - reflexivity.
  - split; [lia | reflexivity].
Defined.

Lemma wrappedFrame_empty_range_witness :
  wrappedFrame 7 7 3 = None /\
  wrappedFrame 7 5 3 = Some (uint (7 + 3)).
Proof.
  split.
  - apply (wrappedFrame_empty_range 7 7 3); [lia | reflexivity | | reflexivity].
    split; [lia | reflexivity].
  - apply (wrappedFrame_empty_range 7 5 3); [lia | reflexivity | | lia |].
    + split; [lia | reflexivity].
    + reflexivity.
Defined.

(** ** Steps 3 and 7 at a particle that the grid stretches *)

Lemma bspline_zero : bspline 0 = 2 / 3.
Proof.
  unfold bspline. rewrite Rabs_R0.
  destruct (Rlt_dec 0 1); lra.
Qed.

Lemma bspline'_zero : bspline' 0 = 0.
Proof.
  unfold bspline'. rewrite Rabs_R0.
  destruct (Rlt_dec 0 1); lra.
Qed.

Lemma stretch_nabla_weight :
  nabla_weight stretch_solver stretch_node stretch_particle = mkVec (- (5 / 18)) 0 0.
Proof.
  unfold nabla_weight, nabla_bspline3, kernel_arg. simpl.
  replace ((0.5 - 0) / 1) with (1 / 2) by lra.
  replace ((0 - 0) / 1) with 0 by lra.
  rewrite bspline_half, bspline'_half, bspline_zero, bspline'_zero.
  unfold vscale; simpl. f_equal; lra.
Qed.

Lemma stretch_window :
  window stretch_solver stretch_particle = box (0, -1, -1)%Z (2, 2, 2)%Z.
Proof.
  unfold window, gmin, gmax, ivec3. simpl.
  rewrite (trunc_neg (0.5 / 1 - 1) 0) by (simpl; lra).
  rewrite (trunc_nonneg (0.5 / 1 + 2) 2) by (simpl; lra).
  rewrite (trunc_neg (0 / 1 - 1) (-1)) by (simpl; lra).
  rewrite (trunc_nonneg (0 / 1 + 2) 2) by (simpl; lra).
  reflexivity.
Qed.

Lemma stretch_velocity_gradient :
  velocity_gradient storage_index stretch_solver 0 (gridNodes stretch_solver)
    stretch_particle = Some (dmat3_9 5 0 0 0 0 0 0 0 0).
Proof.
  unfold velocity_gradient, nabla_v_at.
  rewrite stretch_window, foldM_guarded_filter.
  change (filter (isValidGridNode stretch_solver) (box (0, -1, -1)%Z (2, 2, 2)%Z))
    with [(0, 0, 0)%Z].
  cbn [foldM]. unfold gridNode.
  change (at_index (gridNodes stretch_solver) (storage_index stretch_solver (0, 0, 0)%Z))
    with (Some stretch_node).
  cbn [bind]. rewrite stretch_nabla_weight.
  f_equal. unfold stretch_node, velocity. simpl. vec_unfold.
  repeat f_equal; lra.
Qed.


Lemma clamp1_high (x lo hi : R) : lo <= hi -> hi <= x -> clamp1 x lo hi = hi.
Proof.
  intros H1 H2. unfold clamp1. rewrite Rmax_left by lra. apply Rmin_right. lra.
Qed.

Lemma clamp1_low (x lo hi : R) : lo <= hi -> x <= lo -> clamp1 x lo hi = lo.
Proof.
  intros H1 H2. unfold clamp1. rewrite Rmax_right by lra. apply Rmin_left. lra.
Qed.

Lemma clamp1_mid (x lo hi : R) : lo <= x <= hi -> clamp1 x lo hi = x.
Proof.
  intros H. unfold clamp1. rewrite Rmax_left by lra. apply Rmin_left. lra.
Qed.

Lemma stretch_deform_update :
  deform_update svd_of_diagonal stretch_solver (1 / 10) (dmat3_9 5 0 0 0 0 0 0 0 0)
    stretch_particle
  = (dmat3_9 (1 + 7.5e-3) 0 0 0 1 0 0 0 (1 - 2.5e-2),
     dmat3_9 (3 / 2 / (1 + 7.5e-3)) 0 0 0 2 0 0 0 (1 / 2 / (1 - 2.5e-2))).
Proof.
  unfold deform_update, multiplier, svd_of_diagonal, vclamp, stretch_particle.
  cbn [deformElastic deformPlastic criticalCompression criticalStretch stretch_solver].
  vec_unfold. cbn [vx vy vz nth].
  repeat match goal with
         | |- context [clamp1 ?x ?lo ?hi] =>
             first [ rewrite (clamp1_high x lo hi) by lra
                   | rewrite (clamp1_low x lo hi) by lra
                   | rewrite (clamp1_mid x lo hi) by lra ]
         end.
  f_equal; apply dmat3_eq; cbn [col0 col1 col2]; apply dvec3_eq; cbn [vx vy vz];
    try lra; field; lra.
Qed.

Lemma stretch_index_in_range :
  index_in_range storage_index stretch_solver (gridNodes stretch_solver).
Proof. apply storage_index_in_range. reflexivity. Defined.

Lemma stretch_svd_factors (nabla_v : dmat3) :
  velocity_gradient storage_index stretch_solver 0 (gridNodes stretch_solver)
    stretch_particle = Some nabla_v ->
  svd_factors (svd_of_diagonal (mmul (madd midentity (mscale (1 / 10) nabla_v))
                                     (deformElastic stretch_particle))).
Proof.
  rewrite stretch_velocity_gradient. intros H. injection H as <-.
  unfold svd_factors, svd_of_diagonal.
  split; [exact orthogonal_identity |]. split; [exact orthogonal_identity |].
  vec_unfold. simpl. lra.
Defined.

Lemma stretch_step7 (p' : ParticleNode) :
  step7 svd_of_diagonal storage_index stretch_solver (1 / 10) 0
        (gridNodes stretch_solver) stretch_particle = Some p' ->
  deformElastic p' = dmat3_9 (1 + 7.5e-3) 0 0 0 1 0 0 0 (1 - 2.5e-2) /\
  deformPlastic p' =
    dmat3_9 (3 / 2 / (1 + 7.5e-3)) 0 0 0 2 0 0 0 (1 / 2 / (1 - 2.5e-2)).
Proof.
  unfold step7. rewrite stretch_velocity_gradient. cbn [bind].
  rewrite stretch_deform_update. intros H. injection H as <-. split; reflexivity.
Defined.

Lemma clamp_singular_values_witness :
  exists p',
    step7 svd_of_diagonal storage_index stretch_solver (1 / 10) 0
          (gridNodes stretch_solver) stretch_particle = Some p' /\
    deformElastic p' = dmat3_9 (1 + 7.5e-3) 0 0 0 1 0 0 0 (1 - 2.5e-2) /\
    forall sigma, singular_value (deformElastic p') sigma ->
      1 - criticalCompression stretch_solver <= sigma
      <= 1 + criticalStretch stretch_solver.
Proof.
  destruct (clamp_singular_values svd_of_diagonal storage_index stretch_solver (1 / 10) 0
              (gridNodes stretch_solver) stretch_particle)
    as (p' & Hp' & Hs).
  - exact stretch_index_in_range.
  - simpl; lra.
  - simpl; lra.
  - exact stretch_svd_factors.
  - exists p'. split; [exact Hp' |]. split; [| exact Hs].
    apply (stretch_step7 p' Hp').
Defined.

Lemma deformation_product_preserved_witness :
  exists p',
    velocity_gradient storage_index stretch_solver 0 (gridNodes stretch_solver)
      stretch_particle = Some (dmat3_9 5 0 0 0 0 0 0 0 0) /\
    step7 svd_of_diagonal storage_index stretch_solver (1 / 10) 0
          (gridNodes stretch_solver) stretch_particle = Some p' /\
    deformElastic p' = dmat3_9 (1 + 7.5e-3) 0 0 0 1 0 0 0 (1 - 2.5e-2) /\
    deformPlastic p' =
      dmat3_9 (3 / 2 / (1 + 7.5e-3)) 0 0 0 2 0 0 0 (1 / 2 / (1 - 2.5e-2)) /\
    mmul (deformElastic p') (deformPlastic p') =
    mmul (mmul (madd midentity (mscale (1 / 10) (dmat3_9 5 0 0 0 0 0 0 0 0)))
               (dmat3_9 1 0 0 0 1 0 0 0 (1 / 2)))
         (dmat3_9 1 0 0 0 2 0 0 0 1).
Proof.
  destruct (deformation_product_preserved svd_of_diagonal storage_index stretch_solver
              (1 / 10) 0 (gridNodes stretch_solver) stretch_particle)
    as (nabla_v & p' & Hnv & Hp' & Hprod).
  - exact stretch_index_in_range.
  - intros nabla_v Hnv.
    rewrite stretch_velocity_gradient in Hnv. injection Hnv as <-.
    unfold svd_of_diagonal. cbv zeta.
    split; [exact orthogonal_identity |]. split; [exact orthogonal_identity |].
    unfold vclamp. cbn [vx vy vz].
    repeat split;
      match goal with
      | |- clamp1 ?x ?lo ?hi <> 0 =>
          pose proof (clamp1_bounds x lo hi) as Hc; simpl in Hc |- *; lra
      end.
  - rewrite stretch_velocity_gradient in Hnv. injection Hnv as <-.
    exists p'. split; [exact stretch_velocity_gradient |]. split; [exact Hp' |].
    destruct (stretch_step7 p' Hp') as [He Hpl].
    split; [exact He |]. split; [exact Hpl | exact Hprod].
Defined.

Lemma stretch_nodes_on_lattice :
  nodes_on_lattice storage_index stretch_solver (gridNodes stretch_solver).
Proof.
  intros c Hv. pose proof (valid_coord_bounds _ _ Hv) as Hb.
  destruct c as [[x y] z]. unfold cx, cy, cz, size_x, size_y, size_z in Hb.
  simpl in Hb.
  assert (x = 0%Z) by lia. assert (y = 0%Z) by lia. assert (z = 0%Z) by lia. subst.
  exists stretch_node. split; [reflexivity |].
  unfold lattice_point, stretch_node, vzero, cx, cy, cz; simpl. f_equal; lra.
Defined.

Lemma stretch_force_spec :
  force_spec svd_of_diagonal stretch_solver [stretch_particle] (0, 0, 0)%Z stretch_node
  = mkVec (- (5 / 72) * (38888 * exp (10 * (1 - 2)))) 0 (-9.8).
Proof.
  unfold force_spec. cbn [fold_left].
  assert (Hin : in_floor_window stretch_solver stretch_particle (0, 0, 0)%Z = true).
  { unfold in_floor_window, floor_window. simpl.
    rewrite (Zfloor_eq 0 (0.5 / 1)) by (simpl; lra).
    rewrite (Zfloor_eq 0 (0 / 1)) by (simpl; lra).
    reflexivity. }
  rewrite Hin, stretch_nabla_weight.
  unfold stress_spec, polarRot, svd_of_diagonal, stretch_particle.
  cbn [deformElastic deformPlastic volume0 stretch_solver hardeningCoefficient
       mu0 lambda0 stretch_node g_node mass].
  assert (Hp : determinant (dmat3_9 1 0 0 0 2 0 0 0 1) = 2)
    by (unfold determinant; vec_unfold; simpl; ring).
  assert (He : determinant (dmat3_9 1 0 0 0 1 0 0 0 (1 / 2)) = 1 / 2)
    by (unfold determinant; vec_unfold; simpl; field).
  rewrite Hp, He.
  generalize (exp (10 * (1 - 2))). intros e.
  vec_unfold. simpl. f_equal; field.
Qed.

Lemma nodal_force_of_step3_witness :
  exists gs',
    step3 svd_of_diagonal storage_index stretch_solver (particleNodes stretch_solver)
      (gridNodes stretch_solver) = Some gs' /\
    exists g', at_index gs' 0 = Some g' /\
      force g' = mkVec (- (5 / 72) * (38888 * exp (10 * (1 - 2)))) 0 (-9.8) /\
      g_node g' = g_node stretch_node.
Proof.
  destruct (nodal_force_of_step3 svd_of_diagonal storage_index stretch_solver
              (storage_index_injective stretch_solver)
              (particleNodes stretch_solver) (gridNodes stretch_solver))
    as (_ & gs' & _ & H3 & _ & Hat).
  - simpl; lra.
  - exact stretch_index_in_range.
  - exact stretch_nodes_on_lattice.
  - exists gs'. split; [exact H3 |].
    destruct (Hat (0, 0, 0)%Z stretch_node eq_refl eq_refl)
      as (g' & Hg' & Hf & Hn & _).
    exists g'. split; [exact Hg' |]. split; [| exact Hn].
    rewrite Hf. exact stretch_force_spec.
Defined.

(** ** A first tick on a grid with nodes the particle does not reach *)

(** After the rasterization of step 1 nothing writes the mass of a grid
    node. *)
Lemma update_mass_frame (svd : dmat3 -> dmat3 * dvec3 * dmat3)
    (idx : SnowSolver -> coord -> Z) (s s' : SnowSolver) (dt : R) (n : nat) :
  update svd idx s dt n = Some s' ->
  exists acc,
    step1_rasterize idx s n (particleNodes s) (step1_clear n (gridNodes s)) = Some acc /\
    Forall2 (fun g g' => mass (g_node g') = mass (g_node g)) acc (gridNodes s').
Proof.
  intros H. apply update_steps in H.
  destruct H as (acc & gs2 & ps2 & gs3 & ps' & H1 & H2 & H3 & _ & ->).
  exists acc. split; [exact H1 |].
  simpl. rewrite step6_step45.
  set (R := fun g g' : GridNode => mass (g_node g') = mass (g_node g)).
  assert (Rt : forall a b c, R a b -> R b c -> R a c)
    by (unfold R; intros; congruence).
  apply (Forall2_chain R _ (step1_normalize n acc) _ Rt).
  { unfold step1_normalize. apply Forall2_map_self. intros g.
    destruct (normalize_node_fields n g) as (_ & Hm & _). exact Hm. }
  apply (Forall2_chain R _ gs2 _ Rt).
  { eapply Forall2_weaken; [| apply (step2_grid _ _ _ _ _ _ _ H2)].
    intros a b (Hn & _). unfold R. rewrite Hn. reflexivity. }
  apply (Forall2_chain R _ (step3_gravity gs2) _ Rt).
  { unfold step3_gravity. apply Forall2_map_self. intros g. reflexivity. }
  apply (Forall2_chain R _ gs3 _ Rt).
  { eapply Forall2_weaken; [| apply (step3_forces_frame _ _ _ _ _ _ H3)].
    intros a b (Hn & _). unfold R. rewrite Hn. reflexivity. }
  apply Forall2_map_self. intros g.
  destruct (step456_node dt n g) as (_ & Hm & _). exact Hm.
Qed.

Lemma outer_index_in_range :
  index_in_range storage_index outer_solver (gridNodes outer_solver).
Proof. apply storage_index_in_range. reflexivity. Defined.

Lemma outer_window :
  window outer_solver moving_particle = box (0, 0, 0)%Z (3, 3, 3)%Z.
Proof.
  unfold window, gmin, gmax, ivec3. simpl.
  rewrite (trunc_nonneg (1.5 / 1 - 1) 0) by (simpl; lra).
  rewrite (trunc_nonneg (1.5 / 1 + 2) 3) by (simpl; lra).
  reflexivity.
Qed.

Lemma outer_first_tick_windows :
  0%nat = 0%nat ->
  Forall (fun p => forall c, In c (window outer_solver p) ->
                             isValidGridNode outer_solver c = true)
         (particleNodes outer_solver).
Proof.
  intros _. constructor; [| constructor].
  intros c. rewrite outer_window. intros Hin. apply in_box in Hin.
  unfold isValidGridNode, size_x, size_y, size_z. unfold cx, cy, cz in *. simpl in *.
  rewrite !andb_true_iff, !Z.leb_le, !Z.ltb_lt. lia.
Defined.

(** The node of the coordinates (4, 4, 4), which the loops over the
    window of the particle do not visit, has no mass after the
    rasterization. *)
Lemma outer_corner_mass (acc : list GridNode) :
  step1_rasterize storage_index outer_solver 0 (particleNodes outer_solver)
    (step1_clear 0 (gridNodes outer_solver)) = Some acc ->
  exists g, at_index acc 124 = Some g /\ mass (g_node g) = 0.
Proof.
  unfold step1_rasterize, rasterize_at. cbn [particleNodes outer_solver foldM].
  assert (Hr : index_in_range storage_index outer_solver
                 (step1_clear 0 (new_gridNodes 1 (5, 5, 5)%nat))).
  { apply storage_index_in_range. unfold step1_clear. rewrite length_map. reflexivity. }
  destruct (modify_window storage_index outer_solver
              (storage_index_injective outer_solver)
              (rasterize_node outer_solver 0 moving_particle)
              (window outer_solver moving_particle)
              (NoDup_box _ _) _ Hr) as (gs' & Hgs' & _ & Hat).
  change (gridNodes outer_solver) with (new_gridNodes 1 (5, 5, 5)%nat).
  rewrite Hgs'. cbn [bind]. intros H. injection H as <-.
  specialize (Hat (4, 4, 4)%Z eq_refl).
  rewrite outer_window in Hat.
  change (existsb (coord_eqb (4, 4, 4)%Z) (box (0, 0, 0)%Z (3, 3, 3)%Z)) with false in Hat.
  change (storage_index outer_solver (4, 4, 4)%Z) with 124%Z in Hat.
  rewrite Hat. unfold step1_clear. rewrite at_index_map.
  destruct (new_gridNodes_on_lattice outer_solver (4, 4, 4)%Z eq_refl) as (g0 & Hg0 & _).
  change (storage_index outer_solver (4, 4, 4)%Z) with 124%Z in Hg0.
  change (new_gridNodes (h outer_solver) (size outer_solver))
    with (new_gridNodes 1 (5, 5, 5)%nat) in Hg0.
  rewrite Hg0. simpl. eexists. split; [reflexivity |].
  cbn [g_node g_with_node]. apply set_velocity_fields.
Qed.

Lemma tick_massless_nodes_at_rest_witness :
  exists s', update svd_of_identity storage_index outer_solver 1e-5 0 = Some s' /\
    exists g', at_index (gridNodes s') 124 = Some g' /\
      mass (g_node g') = 0 /\
      velocity (g_node g') 0 = vzero /\ velocity (g_node g') 1 = vzero /\
      velocity_star (g_node g') = vzero.
Proof.
  destruct (tick_massless_nodes_at_rest svd_of_identity storage_index outer_solver 1e-5 0
              outer_index_in_range outer_first_tick_windows)
    as (s' & H & HF).
  exists s'. split; [exact H |].
  destruct (update_mass_frame _ _ _ _ _ _ H) as (acc & Hacc & Hmass).
  destruct (outer_corner_mass acc Hacc) as (g & Hg & Hm).
  destruct (Forall2_at_index _ _ _ _ _ Hmass Hg) as (g' & Hg' & Hm').
  exists g'. split; [exact Hg' |].
  assert (Hz : mass (g_node g') = 0) by congruence.
  split; [exact Hz |].
  rewrite Forall_forall in HF.
  apply (HF g' (at_index_In _ _ _ Hg')). lra.
Defined.

Lemma p2g_uniform_velocity_witness :
  exists gs1,
    step1 storage_index outer_solver 0 (particleNodes outer_solver)
      (gridNodes outer_solver) = Some gs1 /\
    Forall (fun g => (mass (g_node g) > 0 -> velocity (g_node g) 0 = mkVec 1 2 3) /\
                     (mass (g_node g) <= 0 -> velocity (g_node g) 0 = vzero))
           gs1.
Proof.
  apply (p2g_uniform_velocity storage_index outer_solver 0 (mkVec 1 2 3)
           (particleNodes outer_solver) (gridNodes outer_solver)).
  - exact outer_index_in_range.
  - constructor; [reflexivity | constructor].
Defined.

Lemma flip_on_steady_grid_witness :
  exists p',
    step8910 storage_index flip_solver 1e-5 0 (gridNodes flip_solver)
      moving_particle = Some p' /\
    velocity (p_node p') 1 = mkVec 1 2 3 /\
    position (p_node p') = vadd (mkVec 1.5 1.5 1.5) (vscale 1e-5 (mkVec 1 2 3)).
Proof.
  destruct (flip_on_steady_grid storage_index flip_solver 0 1e-5 (gridNodes flip_solver)
              moving_particle)
    as (p' & H & Hv & Hp & _).
  - apply storage_index_in_range. reflexivity.
  - unfold flip_solver, gridNodes. apply Forall_map. apply Forall_forall.
    intros g _. reflexivity.
  - reflexivity.
  - simpl; lra.
  - exists p'. split; [exact H |]. split; [exact Hv | exact Hp].
Defined.

Lemma orthogonal_quarter_turn_z : orthogonal quarter_turn_z.
Proof. split; unfold quarter_turn_z; vec_unfold; repeat f_equal; ring. Defined.

Lemma orthogonal_quarter_turn_x : orthogonal quarter_turn_x.
Proof. split; unfold quarter_turn_x; vec_unfold; repeat f_equal; ring. Defined.

Lemma polar_decomposition_factors_witness :
  orthogonal (fst (polarDecompose svd_of_turned turned_matrix)) /\
  symmetric (snd (polarDecompose svd_of_turned turned_matrix)) /\
  mmul (fst (polarDecompose svd_of_turned turned_matrix))
       (snd (polarDecompose svd_of_turned turned_matrix)) = turned_matrix /\
  polarRot svd_of_turned turned_matrix = fst (polarDecompose svd_of_turned turned_matrix).
Proof.
  apply (polar_decomposition_factors svd_of_turned turned_matrix).
  unfold svd_of_turned.
  split; [exact orthogonal_quarter_turn_z |]. split; [exact orthogonal_quarter_turn_x |].
  reflexivity.
Defined.
